(** * hal-diagram: graph synchronisation, tree utility and local-storage cache

    A shallow embedding of

    - [applyToCytoscape] and its closure [ensureNodeExists] (the [useCytoscape]
      hook), the graph synchronisation engine;
    - [Tree.toTree], [Tree.getAncestors], [Tree.getDepth] (util.tsx);
    - [StorageUtil.useLocalStorage] and the [LocalStorageContext] reducer
      (util.tsx);
    - the reducer of [ErrorHandling] and the filter of its [MessageList]
      (util.tsx);

    followed by the properties the specification states about them. *)

From Stdlib Require Import ZArith.
From stdpp Require Import base option list strings gmap sets relations sorting pretty.

Local Open Scope string_scope.
Local Open Scope list_scope.
Local Open Scope nat_scope.
Local Open Scope stdpp_scope.

(** The names under which every object finds a member of
    [Object.prototype]: the functions it inherits and, under ["__proto__"],
    the prototype itself.  A property access [o[k]] on an object that has no
    entry of its own under such a name gives that member, not
    [undefined]. *)
Definition inheritedNames : list string :=
  [ "constructor"; "hasOwnProperty"; "isPrototypeOf"; "propertyIsEnumerable";
    "toLocaleString"; "toString"; "valueOf"; "__proto__";
    "__defineGetter__"; "__defineSetter__"; "__lookupGetter__";
    "__lookupSetter__" ].

(* ===================================================================== *)
(** * DataSource: the data set handed to the synchronisation engine        *)
(* ===================================================================== *)

Module DS.

(** [{ label, parent? }] *)
Record Node := { label : string; parent : option string }.

(** [{ source, target, label }] *)
Record Edge := { source : string; target : string; elabel : string }.

(** [{ nodes: { [id]: Node }, edges: Edge[] }].  The object [nodes] is kept
    as the list of its own entries in the order [Object.entries] enumerates
    them, because that order is the input order of the depth sort. *)
Record DataSet := { nodes : list (string * Node); edges : list Edge }.

(** [Object.keys(o)] *)
Definition keys (o : list (string * Node)) : list string := o.*1.

(** The own entry of [o] under the key [k], the first one in the list. *)
Fixpoint own (o : list (string * Node)) (k : string) : option Node :=
  match o with
  | [] => None
  | (k', n) :: o' => if decide (k' = k) then Some n else own o' k
  end.

(** What a property access on [nodes] gives when it is not [undefined]: an
    entry of the data set, or a member of [Object.prototype]. *)
Inductive Member :=
| Entry (n : Node)
| Inherited.

(** [o[k]], [undefined] being [None]: the own entry when there is one, and
    what the object inherits under that name otherwise. *)
Definition prop (o : list (string * Node)) (k : string) : option Member :=
  match own o k with
  | Some n => Some (Entry n)
  | None => if decide (k ∈ inheritedNames) then Some Inherited else None
  end.

(** [m.parent]: no member of [Object.prototype] has a property [parent]. *)
Definition parentOf (m : Member) : option string :=
  match m with
  | Entry n => parent n
  | Inherited => None
  end.

End DS.

(** JavaScript truthiness of a [string | undefined]: [undefined] and the
    empty string are falsy. *)
Definition truthy (s : option string) : bool :=
  match s with
  | Some s => negb (String.eqb s "")
  | None => false
  end.

(* ===================================================================== *)
(** * Stable sort with a three-way comparator ([Array.prototype.sort])     *)
(* ===================================================================== *)

Section Sort.
Context {A : Type} (cmp : A → A → Z).

(** [x] goes in front of the first element it does not compare greater
    than, so elements that compare equal keep their order. *)
Fixpoint insert (x : A) (l : list A) : list A :=
  match l with
  | [] => [x]
  | y :: l' => if (cmp x y <=? 0)%Z then x :: y :: l' else y :: insert x l'
  end.

Fixpoint sort (l : list A) : list A :=
  match l with
  | [] => []
  | x :: l' => insert x (sort l')
  end.
End Sort.

(* ===================================================================== *)
(** * The rendering engine and the synchronisation engine                  *)
(* ===================================================================== *)

Module Cy.

(** ** View state and the live model *)

(** Coordinates and zoom factors are only stored and copied, never
    computed with; integers stand for the numbers. *)
Record Position := { px : Z; py : Z }.
Record Camera := { pan : Position; zoom : Z }.

Record ViewState := {
  nodePositions : gmap string Position;
  camera : option Camera;
  selected : gset string;
  collapsed : gset string;
  locked : bool;
}.

(** The [data] of an element definition passed to [cy.add]. *)
Record ElementDefinition := {
  id : string;
  label : string;
  parent : option string;
  source : option string;
  target : option string;
}.

Definition isNode (e : ElementDefinition) : bool :=
  match source e, target e with
  | None, None => true
  | _, _ => false
  end.

(** Modelled from the spec: the live graph model of the rendering engine
    (cytoscape, an external library): the element records in insertion
    order, with the view attributes the view-state store reads and
    writes, and the depth of open batches. *)
Record Core := {
  elements : list ElementDefinition;
  batchCount : nat;
  positions : gmap string Position;
  viewport : Camera;
  selection : gset string;
  collapsedNodes : gset string;
  autolock : bool;
}.

Definition nodeIdsOf (els : list ElementDefinition) : list string :=
  id <$> filter (λ e, isNode e = true) els.

Definition withElements (els : list ElementDefinition) (c : Core) : Core :=
  {| elements := els; batchCount := batchCount c; positions := positions c;
     viewport := viewport c; selection := selection c;
     collapsedNodes := collapsedNodes c; autolock := autolock c |}.

Definition withBatchCount (n : nat) (c : Core) : Core :=
  {| elements := elements c; batchCount := n; positions := positions c;
     viewport := viewport c; selection := selection c;
     collapsedNodes := collapsedNodes c; autolock := autolock c |}.

Definition startBatch (c : Core) : Core := withBatchCount (S (batchCount c)) c.
Definition endBatch (c : Core) : Core := withBatchCount (pred (batchCount c)) c.

(** Modelled from the spec: [cy.add].  The parent is set at creation only;
    an element whose parent identifier is not a node of the model yet is
    inserted detached (no parent). *)
Definition attach (els : list ElementDefinition) (def : ElementDefinition)
    : ElementDefinition :=
  match parent def with
  | Some p =>
      if decide (p ∈ nodeIdsOf els) then def
      else {| id := id def; label := label def; parent := None;
              source := source def; target := target def |}
  | None => def
  end.

Definition add (def : ElementDefinition) (c : Core) : Core :=
  withElements (elements c ++ [attach (elements c) def]) c.

(** Modelled from the spec: [cy.elements().remove()]; the elements go with
    their positions, selection and grouping state. *)
Definition removeAll (c : Core) : Core :=
  {| elements := []; batchCount := batchCount c; positions := ∅;
     viewport := viewport c; selection := ∅; collapsedNodes := ∅;
     autolock := autolock c |}.

(** Modelled from the spec: [collectViewState] of Cy.SaveLoad, which is
    not among the sources (§4.3 [collect]): the position of every node
    element, the camera, the selected and the collapsed identifiers and
    the lock flag.  A node that was never positioned sits at the origin. *)
Definition origin : Position := {| px := 0; py := 0 |}.

Definition positionOf (c : Core) (k : string) : Position :=
  default origin (positions c !! k).

Definition collect (c : Core) : ViewState :=
  {| nodePositions :=
       list_to_map ((λ k, (k, positionOf c k)) <$> nodeIdsOf (elements c));
     camera := Some (viewport c);
     selected := selection c;
     collapsed := collapsedNodes c;
     locked := autolock c |}.

(** Modelled from the spec: [applyViewState] of Cy.SaveLoad, which is not
    among the sources (§4.3 [apply]): every position whose node exists in
    the live model is set, the camera is set if provided, the selection
    and the collapsed set become the provided ones (unknown identifiers
    skipped), the lock flag is restored. *)
Definition apply (vs : ViewState) (c : Core) : Core :=
  {| elements := elements c;
     batchCount := batchCount c;
     positions :=
       filter (λ kv, kv.1 ∈ nodeIdsOf (elements c)) (nodePositions vs)
         ∪ positions c;
     viewport := default (viewport c) (camera vs);
     selection := filter (λ k, k ∈ id <$> elements c) (selected vs);
     collapsedNodes := filter (λ k, k ∈ nodeIdsOf (elements c)) (collapsed vs);
     autolock := locked vs |}.

(** ** The world the hook runs in *)

(** Calls that leave the hook. *)
Inductive Call :=
| CStartBatch
| CEndBatch
| CRemove
| CAdd (def : ElementDefinition)
| CCollect
| CApply (vs : ViewState)
| CUuid.

(** [cy] is the cytoscape instance; [nodeIds] is the [Set] captured by
    [ensureNodeExists]; [uuids] and [drawn] stand for the generator behind
    [UUID.v4]; [trace] is the log of the calls made so far; [fuse], when
    set, is the number of calls that still succeed before one throws. *)
Record World := {
  cy : Core;
  nodeIds : gset string;
  uuids : nat → string;
  drawn : nat;
  fuse : option nat;
  trace : list Call;
}.

Definition withCy (c : Core) (w : World) : World :=
  {| cy := c; nodeIds := nodeIds w; uuids := uuids w; drawn := drawn w;
     fuse := fuse w; trace := trace w |}.
Definition withNodeIds (s : gset string) (w : World) : World :=
  {| cy := cy w; nodeIds := s; uuids := uuids w; drawn := drawn w;
     fuse := fuse w; trace := trace w |}.
Definition withDrawn (n : nat) (w : World) : World :=
  {| cy := cy w; nodeIds := nodeIds w; uuids := uuids w; drawn := n;
     fuse := fuse w; trace := trace w |}.
Definition logged (f : option nat) (c : Call) (w : World) : World :=
  {| cy := cy w; nodeIds := nodeIds w; uuids := uuids w; drawn := drawn w;
     fuse := f; trace := trace w ++ [c] |}.

(** A run returns, throws, or is still in a loop when the fuel is spent. *)
Inductive Outcome (A : Type) :=
| Ret (a : A) (w : World)
| Thrown (w : World)
| OutOfFuel.
Arguments Ret {A} a w.
Arguments Thrown {A} w.
Arguments OutOfFuel {A}.

Definition M (A : Type) : Type := World → Outcome A.

#[export] Instance M_ret : MRet M := λ A a w, Ret a w.
#[export] Instance M_bind : MBind M := λ A B k c w,
  match c w with
  | Ret a w' => k a w'
  | Thrown w' => Thrown w'
  | OutOfFuel => OutOfFuel
  end.

(** [try { body } finally { fin }] *)
Definition try_finally {A} (body : M A) (fin : M unit) : M A := λ w,
  match body w with
  | Ret a w1 =>
      match fin w1 with
      | Ret _ w2 => Ret a w2
      | Thrown w2 => Thrown w2
      | OutOfFuel => OutOfFuel
      end
  | Thrown w1 =>
      match fin w1 with
      | Ret _ w2 => Thrown w2
      | Thrown w2 => Thrown w2
      | OutOfFuel => OutOfFuel
      end
  | OutOfFuel => OutOfFuel
  end.

(** [for (const x of l) { body x }] *)
Fixpoint forM_ {A} (l : list A) (body : A → M unit) : M unit :=
  match l with
  | [] => mret tt
  | x :: l' => body x ;; forM_ l' body
  end.

(** A value whose computation may not come back. *)
Definition await_ {A} (o : option A) : M A := λ w,
  match o with
  | Some a => Ret a w
  | None => OutOfFuel
  end.

(** A call that may throw: it is logged and burns the fuse when it
    succeeds, and has no effect when it throws. *)
Definition call (c : Call) : M unit := λ w,
  match fuse w with
  | Some 0 => Thrown w
  | Some (S n) => Ret tt (logged (Some n) c w)
  | None => Ret tt (logged None c w)
  end.

Definition gets {A} (f : World → A) : M A := λ w, Ret (f w) w.
Definition modify (f : World → World) : M unit := λ w, Ret tt (f w).
Definition modifyCy (f : Core → Core) : M unit := modify (λ w, withCy (f (cy w)) w).

Definition cy_startBatch : M unit := call CStartBatch ;; modifyCy startBatch.
Definition cy_endBatch : M unit :=
  modify (λ w, logged (fuse w) CEndBatch w) ;; modifyCy endBatch.
Definition cy_elements_remove : M unit := call CRemove ;; modifyCy removeAll.
Definition cy_add (def : ElementDefinition) : M unit :=
  call (CAdd def) ;; modifyCy (add def).
Definition collectViewState : M ViewState :=
  call CCollect ;; gets (λ w, collect (cy w)).
Definition applyViewState (vs : ViewState) : M unit :=
  call (CApply vs) ;; modifyCy (apply vs).
Definition UUID_v4 : M string :=
  call CUuid ;;
  id ← gets (λ w, uuids w (drawn w));
  modify (λ w, withDrawn (S (drawn w)) w) ;;
  mret id.

(** ** applyToCytoscape *)

(** [const ensureNodeExists = (id: string) => { ... }] *)
Definition ensureNodeExists (id : string) : M unit := λ w,
  if decide (id ∈ nodeIds w) then Ret tt w
  else
    cy_add {| id := id; label := id; parent := None;
              source := None; target := None |}
      (withNodeIds ({[id]} ∪ nodeIds w) w).

(** The [while (parentId)] loop of the depth computation; [fuel] bounds
    the number of times the loop condition is evaluated. *)
Fixpoint walk (fuel : nat) (nodes : list (string * DS.Node))
    (depth : nat) (parentId : option string) : option nat :=
  match fuel with
  | 0 => None
  | S fuel' =>
      if truthy parentId then
        match parentId ≫= DS.prop nodes with
        | None => Some depth
        | Some parent => walk fuel' nodes (S depth) (DS.parentOf parent)
        end
      else Some depth
  end.

Record NodeWithDepth := { nwd_id : string; nwd_node : DS.Node; nwd_depth : nat }.

(** [Object.entries(dataSet.nodes).reduce(...)] *)
Definition nodesWithDepth (fuel : nat) (dataSet : DS.DataSet)
    : option (list NodeWithDepth) :=
  mapM (λ entry : string * DS.Node,
          depth ← walk fuel (DS.nodes dataSet) 0 (DS.parent entry.2);
          Some {| nwd_id := entry.1; nwd_node := entry.2; nwd_depth := depth |})
       (DS.nodes dataSet).

(** The comparator handed to [sort]. *)
Definition compareDepth (a b : NodeWithDepth) : Z :=
  if (nwd_depth a <? nwd_depth b)%nat then (-1)%Z
  else if (nwd_depth b <? nwd_depth a)%nat then 1%Z
  else 0%Z.

Definition insertNode (e : NodeWithDepth) : M unit :=
  (if truthy (DS.parent (nwd_node e))
   then ensureNodeExists (default "" (DS.parent (nwd_node e)))
   else mret tt) ;;
  cy_add {| id := nwd_id e; label := DS.label (nwd_node e);
            parent := DS.parent (nwd_node e);
            source := None; target := None |}.

Definition insertEdge (e : DS.Edge) : M unit :=
  ensureNodeExists (DS.source e) ;;
  ensureNodeExists (DS.target e) ;;
  id ← UUID_v4;
  cy_add {| id := id; label := DS.elabel e; parent := None;
            source := Some (DS.source e); target := Some (DS.target e) |}.

(** The [try] block. *)
Definition rebuild (fuel : nat) (dataSet : DS.DataSet) (viewState : ViewState)
    : M unit :=
  cy_startBatch ;;
  viewStateBeforeQuery ← collectViewState;
  cy_elements_remove ;;
  modify (withNodeIds (list_to_set (DS.keys (DS.nodes dataSet)))) ;;
  nodesWithDepth ← await_ (nodesWithDepth fuel dataSet);
  forM_ (sort compareDepth nodesWithDepth) insertNode ;;
  forM_ (DS.edges dataSet) insertEdge ;;
  applyViewState viewState ;;
  applyViewState viewStateBeforeQuery.

(** What one call of [applyToCytoscape] amounts to: nothing while the hook
    has no instance yet ([if (!cy) return]), a run of the [try]/[finally]
    statement on the instance otherwise. *)
Inductive Invocation :=
| Skipped
| Ran (o : Outcome unit).

(** [applyToCytoscape(dataSet, viewState)] *)
Definition applyToCytoscape (fuel : nat) (dataSet : DS.DataSet)
    (viewState : ViewState) (cy : option World) : Invocation :=
  match cy with
  | None => Skipped
  | Some w => Ran (try_finally (rebuild fuel dataSet viewState) cy_endBatch w)
  end.

(** [hasNoElements: (cy?.elements().length ?? 0) === 0] *)
Definition hasNoElements (instance : option World) : bool :=
  default 0 ((λ w, length (elements (cy w))) <$> instance) =? 0.

End Cy.

(* ===================================================================== *)
(** * Tree: the forest of a flat list (util.tsx)                           *)
(* ===================================================================== *)

Module Tree.

(** [TreeNode<T>].  The nodes are objects that refer to one another; they
    are kept in a heap and [children] and [parent] hold addresses. *)
Record TreeNode (T : Type) := {
  item : T;
  children : list nat;
  parent : option nat;
  depth : Z;
}.
Arguments item {T} _.
Arguments children {T} _.
Arguments parent {T} _.
Arguments depth {T} _.

(** The alternative of [ToTreeArgs<T>] that has [getParent] (parent-pointer
    mode); [null] and [undefined] are [None]. *)
Record ToTreeArgs (T : Type) := {
  getId : T → string;
  getParent : T → option string;
}.
Arguments getId {T} _ _.
Arguments getParent {T} _ _.

(** [Map.prototype.set] on a [Map<string, TreeNode<T>>], kept as its entries
    in insertion order: a key that is there keeps its place and takes the
    new value. *)
Fixpoint Map_set (m : list (string * nat)) (k : string) (v : nat)
    : list (string * nat) :=
  match m with
  | [] => [(k, v)]
  | (k', v') :: m' =>
      if decide (k' = k) then (k, v) :: m' else (k', v') :: Map_set m' k v
  end.

(** [Map.prototype.get] *)
Fixpoint Map_get (m : list (string * nat)) (k : string) : option nat :=
  match m with
  | [] => None
  | (k', v) :: m' => if decide (k' = k) then Some v else Map_get m' k
  end.

(** [items.map(item => [fn.getId(item), { item, children: [], depth: -1 }])]
    allocates the node of the [i]-th item at address [i]. *)
Definition allocate {T} (items : list T) : list (TreeNode T) :=
  (λ item, {| item := item; children := []; parent := None; depth := -1 |})
    <$> items.

(** [new Map(entries)], the entries being those of the items from address
    [i] on. *)
Fixpoint mapFrom {T} (fn : ToTreeArgs T) (i : nat) (items : list T)
    (m : list (string * nat)) : list (string * nat) :=
  match items with
  | [] => m
  | item :: rest => mapFrom fn (S i) rest (Map_set m (getId fn item) i)
  end.

Definition setParent {T} (p : option nat) (n : TreeNode T) : TreeNode T :=
  {| item := item n; children := children n; parent := p; depth := depth n |}.
Definition pushChild {T} (c : nat) (n : TreeNode T) : TreeNode T :=
  {| item := item n; children := children n ++ [c]; parent := parent n;
     depth := depth n |}.
Definition setDepth {T} (d : Z) (n : TreeNode T) : TreeNode T :=
  {| item := item n; children := children n; parent := parent n; depth := d |}.

(** The body of the first [for (const node of treeNodes)]. *)
Definition link {T} (fn : ToTreeArgs T) (treeNodes : list (string * nat))
    (heap : list (TreeNode T)) (node : string * nat) : list (TreeNode T) :=
  match heap !! node.2 with
  | None => heap
  | Some n =>
      match getParent fn (item n) with
      | None => heap
      | Some parentId =>
          let parent := Map_get treeNodes parentId in
          let heap := alter (setParent parent) node.2 heap in
          match parent with
          | Some p => alter (pushChild node.2) p heap
          | None => heap
          end
      end
  end.

(** The [while (parent)] loop of [getAncestors]; [fuel] bounds the number of
    times its condition is evaluated.  (An address always has its node in
    the heap; the last case is there for the type only.) *)
Fixpoint ancestors {T} (fuel : nat) (heap : list (TreeNode T))
    (parent : option nat) (arr : list nat) : option (list nat) :=
  match fuel with
  | 0 => None
  | S fuel' =>
      match parent with
      | None => Some arr
      | Some p =>
          match heap !! p with
          | Some n => ancestors fuel' heap (Tree.parent n) (arr ++ [p])
          | None => Some (arr ++ [p])
          end
      end
  end.

Definition getAncestors {T} (fuel : nat) (heap : list (TreeNode T))
    (node : TreeNode T) : option (list nat) :=
  reverse <$> ancestors fuel heap (parent node) [].

Definition getDepth {T} (fuel : nat) (heap : list (TreeNode T))
    (node : TreeNode T) : option Z :=
  (λ a, Z.of_nat (length a)) <$> getAncestors fuel heap node.

(** The second [for (const node of treeNodes)]. *)
Fixpoint measure {T} (fuel : nat) (treeNodes : list (string * nat))
    (heap : list (TreeNode T)) : option (list (TreeNode T)) :=
  match treeNodes with
  | [] => Some heap
  | node :: rest =>
      match heap !! node.2 with
      | None => measure fuel rest heap
      | Some n =>
          d ← getDepth fuel heap n;
          measure fuel rest (alter (setDepth d) node.2 heap)
      end
  end.

(** [toTree(items, fn)] with [fn.getParent]: the heap it leaves and the
    addresses of the nodes it returns. *)
Definition toTree {T} (fuel : nat) (items : list T) (fn : ToTreeArgs T)
    : option (list (TreeNode T) * list nat) :=
  let treeNodes := mapFrom fn 0 items [] in
  let heap := foldl (link fn treeNodes) (allocate items) treeNodes in
  heap ← measure fuel treeNodes heap;
  Some (heap, filter (λ a, depth <$> heap !! a = Some 0%Z) treeNodes.*2).

End Tree.

(* ===================================================================== *)
(** * StorageUtil: the cache in front of localStorage (util.tsx)           *)
(* ===================================================================== *)

Module StorageUtil.

(** How a call ends: it returns a value, or it throws. *)
Inductive Completion (A : Type) :=
| Returns (a : A)
| Throws (error : string).
Arguments Returns {A} a.
Arguments Throws {A} error.

#[export] Instance Completion_ret : MRet Completion := λ A a, Returns a.
#[export] Instance Completion_bind : MBind Completion := λ A B k c,
  match c with
  | Returns a => k a
  | Throws error => Throws error
  end.
#[export] Instance Completion_fmap : FMap Completion := λ A B f c,
  match c with
  | Returns a => Returns (f a)
  | Throws error => Throws error
  end.

(** [{ ok: true, obj: T } | { ok: false }] *)
Inductive DeserializeResult (T : Type) :=
| Ok (obj : T)
| NotOk.
Arguments Ok {T} obj.
Arguments NotOk {T}.

(** The functions of a handler are the caller's: each may throw. *)
Record LocalStorageHandler (T : Type) := {
  storageKey : string;
  serialize : T → Completion string;
  deserialize : string → Completion (DeserializeResult T);
  defaultValue : unit → Completion T;
}.
Arguments storageKey {T} _.
Arguments serialize {T} _ _.
Arguments deserialize {T} _ _.
Arguments defaultValue {T} _ _.

(** The values of [T] that are [null] or [undefined], which [??] passes
    over. *)
Class Nullish (T : Type) := nullish : T → bool.

(** The browser as the hook sees it: what [localStorage] holds, whether the
    page is denied access to it, the quota on what it may hold, the state of
    [LocalStorageContext] ([LocalStorageData]) and the console. *)
Record Browser (T : Type) := {
  localStorage : gmap string string;
  denied : bool;
  quota : option nat;
  context : gmap string T;
  console : list string;
}.
Arguments localStorage {T} _.
Arguments denied {T} _.
Arguments quota {T} _.
Arguments context {T} _.
Arguments console {T} _.

Definition getInitialState {T} : gmap string T := ∅.

(** The action [cache] of the reducer: [{ ...state, [key]: value }]. *)
Definition cache {T} (key : string) (value : T) (state : gmap string T)
    : gmap string T :=
  <[key := value]> state.

Definition dispatch {T} (action : gmap string T → gmap string T)
    (b : Browser T) : Browser T :=
  {| localStorage := localStorage b; denied := denied b; quota := quota b;
     context := action (context b); console := console b |}.

Definition withLocalStorage {T} (stored : gmap string string)
    (b : Browser T) : Browser T :=
  {| localStorage := stored; denied := denied b; quota := quota b;
     context := context b; console := console b |}.

(** The room the stored keys and values take. *)
Definition used (stored : gmap string string) : nat :=
  map_fold (λ k v n, String.length k + String.length v + n) 0 stored.

(** [localStorage.getItem(key)]: [null] ([None]) for a key that is not
    stored; a [SecurityError] when the page is denied the storage. *)
Definition getItem {T} (key : string) (b : Browser T)
    : Completion (option string) :=
  if denied b then Throws "SecurityError"
  else Returns (localStorage b !! key).

(** [localStorage.setItem(key, value)]: a [SecurityError] when the page is
    denied the storage, a [QuotaExceededError] when the value does not fit
    in. *)
Definition setItem {T} (key value : string) (b : Browser T)
    : Completion (Browser T) :=
  if denied b then Throws "SecurityError"
  else
    let stored := <[key := value]> (localStorage b) in
    match quota b with
    | Some q =>
        if decide (q < used stored) then Throws "QuotaExceededError"
        else Returns (withLocalStorage stored b)
    | None => Returns (withLocalStorage stored b)
    end.

(** [console.warn(msg)] *)
Definition warn {T} (msg : string) (b : Browser T) : Browser T :=
  {| localStorage := localStorage b; denied := denied b; quota := quota b;
     context := context b; console := console b ++ [msg] |}.

(** What the hook hands out as [data]: a value of the handler's type or,
    where the property access on the context found a member the object
    inherits, that member, which [as T | undefined] lets pass for one. *)
Inductive Data (T : Type) :=
| Value (v : T)
| InheritedMember.
Arguments Value {T} v.
Arguments InheritedMember {T}.

(** [const data: T = useMemo(...)]:
    [dataSet[handler.storageKey] ?? handler.defaultValue()]. *)
Definition data {T} `{Nullish T} (handler : LocalStorageHandler T)
    (b : Browser T) : Completion (Data T) :=
  match context b !! storageKey handler with
  | Some cachedData =>
      if nullish cachedData then Value <$> defaultValue handler ()
      else Returns (Value cachedData)
  | None =>
      if decide (storageKey handler ∈ inheritedNames)
      then Returns InheritedMember
      else Value <$> defaultValue handler ()
  end.

(** The body of [useEffect]. *)
Definition effect {T} (handler : LocalStorageHandler T) (b : Browser T)
    : Completion (Browser T) :=
  serialized ← getItem (storageKey handler) b;
  match serialized with
  | None => Returns b
  | Some serialized =>
      deserialized ← deserialize handler serialized;
      match deserialized with
      | NotOk =>
          Returns (warn ("Failuer to parse local storage value as '"
                           +:+ storageKey handler +:+ "'.") b)
      | Ok obj => Returns (dispatch (cache (storageKey handler) obj) b)
      end
  end.

(** [save] *)
Definition save {T} (handler : LocalStorageHandler T) (value : T)
    (b : Browser T) : Completion (Browser T) :=
  serialized ← serialize handler value;
  b ← setItem (storageKey handler) serialized b;
  Returns (dispatch (cache (storageKey handler) value) b).

(** A component that uses the hook mounts: its first render computes
    [data], then the effect runs, and the render that follows computes
    [data] from the context the effect has left; this is what the component
    reads.  (When the effect has not touched the entry, [useMemo] keeps the
    first value, which is the one computed again here.) *)
Definition read {T} `{Nullish T} (handler : LocalStorageHandler T)
    (b : Browser T) : Completion (Data T * Browser T) :=
  data handler b ;;
  b ← effect handler b;
  d ← data handler b;
  Returns (d, b).

End StorageUtil.

(* ===================================================================== *)
(** * ErrorHandling: the list of messages (util.tsx)                       *)
(* ===================================================================== *)

Module ErrorHandling.

(** ['error' | 'warn'] *)
Inductive MsgType := error | warn.

(** [ErrMsg = { id: string, name?: string, message: string, type }] *)
Record ErrMsg := {
  id : string;
  name : option string;
  message : string;
  type : MsgType;
}.

(** The state of [ErrorMessageContext]. *)
Record State := { errorMessages : list ErrMsg }.

Definition getInitialState : State := {| errorMessages := [] |}.

(** A value of type [unknown], by what [add] asks of it: a string
    ([typeof m === 'string']); [null] or [undefined], of which no property
    can be read; a value whose [message] is a string, with its [name]; any
    other value, with what its [toString()] does: it throws, or it returns
    a string or [null] or [undefined] ([None]). *)
Inductive Unknown :=
| Text (m : string)
| Nullish
| Described (message : string) (name : option string)
| Other (toString : StorageUtil.Completion (option string)).

(** An argument of [add]: an array ([Array.isArray(m)]) or another value. *)
Inductive Arg :=
| One (m : Unknown)
| Many (ms : list Unknown).

(** [messages.flatMap(m => Array.isArray(m) ? m : [m])] *)
Definition flatten (messages : list Arg) : list Unknown :=
  messages ≫= λ m, match m with One m => [m] | Many ms => ms end.

(** The callback of [flatten.map]: the message made of [m] under the
    identifier [id], which [UUID.v4()] has returned before [m] is looked
    at. *)
Definition toErrMsg (type : MsgType) (id : string) (m : Unknown)
    : StorageUtil.Completion ErrMsg :=
  match m with
  | Text m =>
      StorageUtil.Returns
        {| id := id; type := type; message := m; name := None |}
  | Nullish => StorageUtil.Throws "TypeError"
  | Described message name =>
      StorageUtil.Returns
        {| id := id; type := type; message := message; name := name |}
  | Other toString =>
      match toString with
      | StorageUtil.Returns s =>
          StorageUtil.Returns
            {| id := id; type := type; message := default "" s;
               name := None |}
      | StorageUtil.Throws e => StorageUtil.Throws e
      end
  end.

(** [flatten.map<ErrMsg>(m => ...)], from the [i]-th call of [UUID.v4()]
    on: [v4 i] is what the [i]-th call returns.  The first element that
    throws ends the loop. *)
Fixpoint addedMessages (v4 : nat → string) (i : nat) (type : MsgType)
    (flatten : list Unknown) : StorageUtil.Completion (list ErrMsg) :=
  match flatten with
  | [] => StorageUtil.Returns []
  | m :: rest =>
      match toErrMsg type (v4 i) m with
      | StorageUtil.Throws e => StorageUtil.Throws e
      | StorageUtil.Returns msg =>
          match addedMessages v4 (S i) type rest with
          | StorageUtil.Throws e => StorageUtil.Throws e
          | StorageUtil.Returns msgs => StorageUtil.Returns (msg :: msgs)
          end
      end
  end.

(** [add(type, ...messages)] on the state [state] *)
Definition add (v4 : nat → string) (type : MsgType) (messages : list Arg)
    (state : State) : StorageUtil.Completion State :=
  match addedMessages v4 0 type (flatten messages) with
  | StorageUtil.Throws e => StorageUtil.Throws e
  | StorageUtil.Returns added =>
      StorageUtil.Returns
        {| errorMessages := errorMessages state ++ added |}
  end.

(** [m.name?.startsWith(prefix)], as a condition: [undefined], which a
    message without name gives, counts as false. *)
Definition nameStartsWith (prefix : string) (m : ErrMsg) : bool :=
  default false (String.prefix prefix <$> name m).

(** The argument of [clear], when there is one: a string or a message. *)
Inductive NameOrItem :=
| Name (name : string)
| Item (item : ErrMsg).

(** [clear(nameOrItem?)] on the state [state]; the empty string is as good
    as no argument ([!nameOrItem]). *)
Definition clear (nameOrItem : option NameOrItem) (state : State) : State :=
  match nameOrItem with
  | None | Some (Name "") => {| errorMessages := [] |}
  | Some (Name name) =>
      {| errorMessages :=
           filter (λ m, nameStartsWith name m = false) (errorMessages state) |}
  | Some (Item item) =>
      {| errorMessages :=
           filter (λ m, id m ≠ id item) (errorMessages state) |}
  end.

(** What [MessageList] lists: [filtered], by its property [filter]; the
    empty string is as good as no filter. *)
Definition filtered (filter_ : option string) (errorMessages : list ErrMsg)
    : list ErrMsg :=
  match filter_ with
  | None | Some "" => errorMessages
  | Some prefix => filter (λ m, nameStartsWith prefix m = true) errorMessages
  end.

(** The button of the message [msg] in [MessageList]:
    [dispatch(state => state.clear(msg))], where the reducer hands the
    action the modifiers of the current state. *)
Definition dismiss (msg : ErrMsg) (state : State) : State :=
  clear (Some (Item msg)) state.

End ErrorHandling.

(* ===================================================================== *)
(** * Scenarios                                                            *)
(* ===================================================================== *)

Definition plainNode (l : string) : DS.Node := {| DS.label := l; DS.parent := None |}.
Definition childNode (l p : string) : DS.Node := {| DS.label := l; DS.parent := Some p |}.
Definition edge (s t l : string) : DS.Edge :=
  {| DS.source := s; DS.target := t; DS.elabel := l |}.

(** [{nodes:{A:{label:"A"}, B:{label:"B", parent:"A"}},
      edges:[{source:"A",target:"B",label:"e"}]}] *)
Definition scenarioAB : DS.DataSet :=
  {| DS.nodes := [("A", plainNode "A"); ("B", childNode "B" "A")];
     DS.edges := [edge "A" "B" "e"] |}.

(** [{nodes:{A:{label:"A"}}, edges:[{source:"A",target:"Z",label:"e"}]}] *)
Definition scenarioZ : DS.DataSet :=
  {| DS.nodes := [("A", plainNode "A")];
     DS.edges := [edge "A" "Z" "e"] |}.

(** A child listed before its parent, whose own parent is missing, and a
    node without parent. *)
Definition scenarioChildFirst : DS.DataSet :=
  {| DS.nodes := [("B", childNode "B" "A"); ("A", childNode "A" "X");
                  ("C", plainNode "C")];
     DS.edges := [edge "B" "Y" "e"; edge "Y" "X" "f"] |}.

(** What [nodesWithDepth] makes of it. *)
Definition scenarioChildFirst_B : Cy.NodeWithDepth :=
  {| Cy.nwd_id := "B"; Cy.nwd_node := childNode "B" "A"; Cy.nwd_depth := 1 |}.
Definition scenarioChildFirst_depths : list Cy.NodeWithDepth :=
  [ scenarioChildFirst_B;
    {| Cy.nwd_id := "A"; Cy.nwd_node := childNode "A" "X"; Cy.nwd_depth := 0 |};
    {| Cy.nwd_id := "C"; Cy.nwd_node := plainNode "C"; Cy.nwd_depth := 0 |} ].

(** A parent identifier that is no key but the name of a member every
    object inherits. *)
Definition scenarioInherited : DS.DataSet :=
  {| DS.nodes := [("X", childNode "X" "constructor"); ("Y", plainNode "Y")];
     DS.edges := [] |}.


(** A node that is its own parent. *)
Definition scenarioSelf : DS.DataSet :=
  {| DS.nodes := [("A", childNode "A" "A")]; DS.edges := [] |}.

Definition emptyViewState : Cy.ViewState :=
  {| Cy.nodePositions := ∅; Cy.camera := None; Cy.selected := ∅;
     Cy.collapsed := ∅; Cy.locked := false |}.

Definition emptyCore : Cy.Core :=
  {| Cy.elements := []; Cy.batchCount := 0; Cy.positions := ∅;
     Cy.viewport := {| Cy.pan := Cy.origin; Cy.zoom := 1 |};
     Cy.selection := ∅; Cy.collapsedNodes := ∅; Cy.autolock := false |}.

(** A model that shows "A", which the user has moved, and a loaded view
    state that places "A" and "B". *)
Definition movedCore : Cy.Core :=
  {| Cy.elements := [ {| Cy.id := "A"; Cy.label := "A"; Cy.parent := None;
                         Cy.source := None; Cy.target := None |} ];
     Cy.batchCount := 0;
     Cy.positions := {[ "A" := {| Cy.px := 5; Cy.py := 5 |} ]};
     Cy.viewport := {| Cy.pan := Cy.origin; Cy.zoom := 2 |};
     Cy.selection := ∅; Cy.collapsedNodes := ∅; Cy.autolock := true |}.

Definition loadedViewState : Cy.ViewState :=
  {| Cy.nodePositions := {[ "A" := {| Cy.px := 1; Cy.py := 1 |};
                            "B" := {| Cy.px := 2; Cy.py := 2 |} ]};
     Cy.camera := Some {| Cy.pan := Cy.origin; Cy.zoom := 9 |};
     Cy.selected := ∅; Cy.collapsed := ∅; Cy.locked := false |}.

(** [[{id:"1"},{id:"2",parent:"1"},{id:"3",parent:"9"}]] *)
Record Item := { item_id : string; item_parent : option string }.

Definition itemArgs : Tree.ToTreeArgs Item :=
  {| Tree.getId := item_id; Tree.getParent := item_parent |}.

Definition scenarioItems : list Item :=
  [ {| item_id := "1"; item_parent := None |};
    {| item_id := "2"; item_parent := Some "1" |};
    {| item_id := "3"; item_parent := Some "9" |} ].

(** An item that is its own parent. *)
Definition scenarioItemsSelf : list Item :=
  [ {| item_id := "1"; item_parent := Some "1" |} ].

(** A handler for a [string | null] setting, [None] being [null]: [null]
    is stored as the text "null", and every stored text but "?" reads back. *)
#[export] Instance option_nullish {A} : StorageUtil.Nullish (option A) :=
  λ v, bool_decide (v = None :> option A) .

Definition nullableHandler : StorageUtil.LocalStorageHandler (option string) :=
  {| StorageUtil.storageKey := "K";
     StorageUtil.serialize := λ v, StorageUtil.Returns (default "null" v);
     StorageUtil.deserialize := λ s,
       StorageUtil.Returns
         (if decide (s = "?") then StorageUtil.NotOk
          else if decide (s = "null") then StorageUtil.Ok None
          else StorageUtil.Ok (Some s));
     StorageUtil.defaultValue := λ _, StorageUtil.Returns (Some "fallback") |}.


(** A handler whose key is a name every object inherits a member under. *)
Definition toStringHandler : StorageUtil.LocalStorageHandler (option string) :=
  {| StorageUtil.storageKey := "toString";
     StorageUtil.serialize := λ v, StorageUtil.Returns (default "null" v);
     StorageUtil.deserialize := λ s, StorageUtil.Returns (StorageUtil.Ok (Some s));
     StorageUtil.defaultValue := λ _, StorageUtil.Returns (Some "fallback") |}.

Definition emptyBrowser : StorageUtil.Browser (option string) :=
  {| StorageUtil.localStorage := ∅;
     StorageUtil.denied := false;
     StorageUtil.quota := None;
     StorageUtil.context := StorageUtil.getInitialState;
     StorageUtil.console := [] |}.



(** A world in which the [n]-th identifier drawn is ["uuid-n"]; [f] is its
    fuse. *)
Definition worldOf (c : Cy.Core) (f : option nat) : Cy.World :=
  {| Cy.cy := c; Cy.nodeIds := ∅; Cy.uuids := λ n, "uuid-" +:+ pretty n;
     Cy.drawn := 0; Cy.fuse := f; Cy.trace := [] |}.

(** Two messages of a form, one of a query and one without name. *)
Definition scenarioMessages : ErrorHandling.State :=
  {| ErrorHandling.errorMessages :=
       [ {| ErrorHandling.id := "1"; ErrorHandling.name := Some "form.name";
            ErrorHandling.message := "required";
            ErrorHandling.type := ErrorHandling.error |};
         {| ErrorHandling.id := "2"; ErrorHandling.name := Some "query";
            ErrorHandling.message := "syntax";
            ErrorHandling.type := ErrorHandling.error |};
         {| ErrorHandling.id := "3"; ErrorHandling.name := None;
            ErrorHandling.message := "offline";
            ErrorHandling.type := ErrorHandling.warn |};
         {| ErrorHandling.id := "4"; ErrorHandling.name := Some "form.age";
            ErrorHandling.message := "number";
            ErrorHandling.type := ErrorHandling.warn |} ] |}.

(* ===================================================================== *)
(** * Vocabulary of the statements and of the proofs                       *)
(* ===================================================================== *)

Import Cy.

(** ** Runs *)

(** [wp c Q E N w]: the run of [c] from [w] ends in [Q] when it returns, in
    [E] when it throws, and [N] holds when it never comes back. *)
Definition wp {A} (c : M A) (Q : A → World → Prop) (E : World → Prop)
    (N : Prop) (w : World) : Prop :=
  match c w with
  | Ret a w' => Q a w'
  | Thrown w' => E w'
  | OutOfFuel => N
  end.

(** [keeps R c]: whether [c] returns or throws, the world it ends in is
    related to the one it started from. *)
Definition keeps {A} (R : World → World → Prop) (c : M A) : Prop :=
  ∀ w, wp c (λ _ w', R w w') (λ w', R w w') True w.

(** ** Data sets, items and elements *)

(** [a]'s entry names the parent [b], and the walk follows it. *)
Definition parentStep (nodes : list (string * DS.Node)) (a b : string) : Prop :=
  ∃ n, DS.own nodes a = Some n ∧ DS.parent n = Some b ∧ b ≠ "".

(** The parent references form no cycle. *)
Definition acyclic (nodes : list (string * DS.Node)) : Prop :=
  ∀ k, ¬ tc (parentStep nodes) k k.

(** [reaches nodes parentId k x]: following the parent references from
    [parentId] through [k] entries of [nodes] arrives at the identifier [x]. *)
Inductive reaches (nodes : list (string * DS.Node)) : option string → nat → string → Prop :=
| reaches_here x : x ≠ "" → reaches nodes (Some x) 0 x
| reaches_step p n k x :
    p ≠ "" → DS.own nodes p = Some n → reaches nodes (DS.parent n) k x →
    reaches nodes (Some p) (S k) x.

(** The parent identifier the code resolves for a node: set, not empty, and
    the key of an entry. *)
Definition resolvedParent (nodes : list (string * DS.Node)) (n : DS.Node)
    : option (string * DS.Node) :=
  if truthy (DS.parent n)
  then p ← DS.parent n; np ← DS.own nodes p; Some (p, np)
  else None.

(** The item at address [a] has its node in the map and names the item at
    address [p] as its parent. *)
Definition parentLink {T} (fn : Tree.ToTreeArgs T) (items : list T)
    (a p : nat) : Prop :=
  a ∈ (Tree.mapFrom fn 0 items []).*2 ∧
  ∃ it, items !! a = Some it ∧
        Tree.getParent fn it ≫= Tree.Map_get (Tree.mapFrom fn 0 items []) = Some p.

(** The parent links of the items form no cycle. *)
Definition acyclicItems {T} (fn : Tree.ToTreeArgs T) (items : list T) : Prop :=
  ∀ a, ¬ tc (parentLink fn items) a a.

(** The record [ensureNodeExists] adds. *)
Definition placeholder (k : string) : ElementDefinition :=
  {| id := k; label := k; parent := None; source := None; target := None |}.

(** The record [applyToCytoscape] adds for an entry of [dataSet.nodes]. *)
Definition nodeElement (k : string) (n : DS.Node) : ElementDefinition :=
  {| id := k; label := DS.label n; parent := DS.parent n;
     source := None; target := None |}.

(** ** A rebuild *)

(** The invariant of a rebuild: [K] are the keys of [dataSet.nodes], [els]
    the elements added since the model was emptied, [ids] the identifiers
    [ensureNodeExists] takes for known. *)
Record Inv (K : list string) (els : list ElementDefinition) (ids : gset string)
    : Prop := {
  inv_keys : ∀ k, k ∈ K → k ∈ ids;
  inv_known : ∀ k, k ∈ nodeIdsOf els → k ∈ ids;
  inv_registered : ∀ k, k ∈ ids → k ∈ K ∨ k ∈ nodeIdsOf els;
  inv_placeholder :
    ∀ e, e ∈ els → isNode e = true → id e ∉ K → e = placeholder (id e);
  inv_once : NoDup (filter (λ k, k ∉ K) (nodeIdsOf els));
  inv_edges :
    ∀ e, e ∈ els → isNode e = false →
      ∃ s t, source e = Some s ∧ target e = Some t ∧
             s ∈ nodeIdsOf els ∧ t ∈ nodeIdsOf els;
}.

(** Everything of the instance but its elements. *)
Definition sameView (c c' : Core) : Prop :=
  batchCount c' = batchCount c ∧ positions c' = positions c ∧
  viewport c' = viewport c ∧ selection c' = selection c ∧
  collapsedNodes c' = collapsedNodes c ∧ autolock c' = autolock c.

(** The entries [done] are in the model, in this order, each behind the
    parent it resolves to. *)
Record NodeInv (dataSet : DS.DataSet) (done : list NodeWithDepth)
    (els : list ElementDefinition) : Prop := {
  ninv_order : filter (λ k, k ∈ DS.keys (DS.nodes dataSet)) (nodeIdsOf els)
    = nwd_id <$> done;
  ninv_parent :
    ∀ x p np, x ∈ done →
      resolvedParent (DS.nodes dataSet) (nwd_node x) = Some (p, np) →
      ∃ l1 l2, els = l1 ++ nodeElement (nwd_id x) (nwd_node x) :: l2 ∧
               p ∈ nodeIdsOf l1;
}.

(** The state of a run between two steps of the loops. *)
Definition Building (dataSet : DS.DataSet) (done : list NodeWithDepth)
    (w0 w : World) : Prop :=
  Inv (DS.keys (DS.nodes dataSet)) (elements (cy w)) (nodeIds w) ∧
  NodeInv dataSet done (elements (cy w)) ∧
  sameView (cy w0) (cy w).

(** The edges [done] are in the model with both their ends. *)
Definition Linking (dataSet : DS.DataSet) (nwd : list NodeWithDepth)
    (done : list DS.Edge) (w0 w : World) : Prop :=
  Building dataSet (sort compareDepth nwd) w0 w ∧
  (∀ k, k ∈ nodeIds w → k ∈ nodeIdsOf (elements (cy w))) ∧
  (∀ e, e ∈ done →
     DS.source e ∈ nodeIdsOf (elements (cy w)) ∧
     DS.target e ∈ nodeIdsOf (elements (cy w))).

(** What the [try] block has done when it returns in [w'] from [w]. *)
Definition Rebuilt (fuel : nat) (dataSet : DS.DataSet) (viewState : ViewState)
    (w w' : World) : Prop :=
  ∃ nwd,
    nodesWithDepth fuel dataSet = Some nwd ∧
    Inv (DS.keys (DS.nodes dataSet)) (elements (cy w')) (nodeIds w') ∧
    NodeInv dataSet (sort compareDepth nwd) (elements (cy w')) ∧
    (∀ e, e ∈ DS.edges dataSet →
       DS.source e ∈ nodeIdsOf (elements (cy w')) ∧
       DS.target e ∈ nodeIdsOf (elements (cy w'))) ∧
    cy w' = apply (collect (cy w))
              (apply viewState
                 (withElements (elements (cy w')) (removeAll (startBatch (cy w))))).

(** ** The batch and the placeholders *)

Definition notBatch (c : Call) : Prop := c ≠ CStartBatch ∧ c ≠ CEndBatch.

(** [w'] comes after [w] by calls that neither open nor close a batch. *)
Definition quiet (w w' : World) : Prop :=
  batchCount (cy w') = batchCount (cy w) ∧
  ∃ tr, trace w' = trace w ++ tr ∧ Forall notBatch tr.

(** The batch is open: [cy.startBatch()] has returned and nothing has closed
    it. *)
Definition inBatch (w w' : World) : Prop :=
  batchCount (cy w') = S (batchCount (cy w)) ∧
  ∃ mid, trace w' = trace w ++ CStartBatch :: mid ∧ Forall notBatch mid.

(** What is known stays known, and what is in the model stays there. *)
Definition extends (w w' : World) : Prop :=
  nodeIds w ⊆ nodeIds w' ∧ elements (cy w) `prefix_of` elements (cy w').

(** ** The heap of the forest *)

(** The heap when the entries [done] of the map have been linked. *)
Definition wired {T} (fn : Tree.ToTreeArgs T) (tn : list (string * nat))
    (items : list T) (done : list (string * nat)) (h : list (Tree.TreeNode T))
    : Prop :=
  ∀ a n, h !! a = Some n →
    items !! a = Some (Tree.item n) ∧ Tree.depth n = (-1)%Z ∧
    Tree.parent n = (if decide (a ∈ done.*2)
                     then Tree.getParent fn (Tree.item n) ≫= Tree.Map_get tn
                     else None).

(** The node at [a] has the node at [p] as its parent. *)
Definition heapStep {T} (h : list (Tree.TreeNode T)) (a p : nat) : Prop :=
  ∃ n, h !! a = Some n ∧ Tree.parent n = Some p.

(** ** The cache *)

(** What [data] is when [defaultValue()] returns [dflt]: the entry of the
    context, [dflt] where there is none or a [null] one, and the inherited
    member where the key names one and the context has no entry of its
    own. *)
Definition shown {T} `{StorageUtil.Nullish T}
    (handler : StorageUtil.LocalStorageHandler T) (dflt : T)
    (b : StorageUtil.Browser T) : StorageUtil.Data T :=
  match StorageUtil.context b !! StorageUtil.storageKey handler with
  | Some cachedData =>
      StorageUtil.Value (if StorageUtil.nullish cachedData then dflt else cachedData)
  | None =>
      if decide (StorageUtil.storageKey handler ∈ inheritedNames)
      then StorageUtil.InheritedMember
      else StorageUtil.Value dflt
  end.

(** The warning of the effect. *)
Definition parseWarning {T} (handler : StorageUtil.LocalStorageHandler T) : string :=
  "Failuer to parse local storage value as '"
    +:+ StorageUtil.storageKey handler +:+ "'.".

(** ** The shape of the rebuilt model *)

(** The record [applyToCytoscape] adds for an edge, [i] being the
    identifier [UUID.v4()] returned for it. *)
Definition edgeElement (i : string) (e : DS.Edge) : ElementDefinition :=
  {| id := i; label := DS.elabel e; parent := None;
     source := Some (DS.source e); target := Some (DS.target e) |}.

(** The edge elements of a model, in insertion order. *)
Definition edgesOf (els : list ElementDefinition) : list ElementDefinition :=
  filter (λ e, isNode e = false) els.

(** [w'] comes after [w] by steps that add nodes only and draw no
    identifier. *)
Definition nodesOnly (w w' : World) : Prop :=
  uuids w' = uuids w ∧ drawn w' = drawn w ∧
  edgesOf (elements (cy w')) = edgesOf (elements (cy w)).

(** The edges [done] are in the model, in this order, under the identifiers
    drawn for them since [w0]. *)
Definition Drawn (done : list DS.Edge) (w0 w : World) : Prop :=
  uuids w = uuids w0 ∧ drawn w = drawn w0 + length done ∧
  edgesOf (elements (cy w)) =
    imap (λ i e, edgeElement (uuids w0 (drawn w0 + i)) e) done.

(** Every entry of [done] that names a parent is in the model with this
    parent, behind a node of that identifier. *)
Definition Adopted (done : list NodeWithDepth) (els : list ElementDefinition)
    : Prop :=
  ∀ x p, x ∈ done → DS.parent (nwd_node x) = Some p → p ≠ "" →
    ∃ l1 l2, els = l1 ++ nodeElement (nwd_id x) (nwd_node x) :: l2 ∧
             p ∈ nodeIdsOf l1.

(** The identifier [k] is the parent some entry names or an end of some
    edge. *)
Definition referenced (dataSet : DS.DataSet) (k : string) : Prop :=
  (∃ k' n, (k', n) ∈ DS.nodes dataSet ∧ DS.parent n = Some k ∧ k ≠ "") ∨
  (∃ e, e ∈ DS.edges dataSet ∧ (DS.source e = k ∨ DS.target e = k)).

(** Every node of the model shows an entry of the data set or stands in
    for an identifier the data set refers to without having it. *)
Definition Sourced (dataSet : DS.DataSet) (els : list ElementDefinition)
    : Prop :=
  ∀ el, el ∈ els → isNode el = true →
    (∃ n, (id el, n) ∈ DS.nodes dataSet ∧ label el = DS.label n) ∨
    (el = placeholder (id el) ∧ (id el ∉ DS.keys (DS.nodes dataSet)) ∧
     referenced dataSet (id el)).

(** The children the first loop has given the node at [p] when the entries
    [done] of the map are linked: the addresses among them, in their order,
    whose item names the node at [p] as its parent. *)
Definition childrenOf {T} (fn : Tree.ToTreeArgs T) (tn : list (string * nat))
    (items : list T) (done : list (string * nat)) (p : nat) : list nat :=
  filter (λ a, (items !! a ≫= Tree.getParent fn) ≫= Tree.Map_get tn = Some p)
    done.*2.

(** The heap when the entries [done] of the map have been linked, as to the
    lists of children. *)
Definition kin {T} (fn : Tree.ToTreeArgs T) (tn : list (string * nat))
    (items : list T) (done : list (string * nat)) (h : list (Tree.TreeNode T))
    : Prop :=
  ∀ p n, h !! p = Some n → Tree.children n = childrenOf fn tn items done p.

(** [add] can make a message of [m]. *)
Definition presentable (m : ErrorHandling.Unknown) : Prop :=
  match m with
  | ErrorHandling.Nullish => False
  | ErrorHandling.Other (StorageUtil.Throws _) => False
  | _ => True
  end.

(** The text of the message [add] makes of [m]. *)
Definition textOf (m : ErrorHandling.Unknown) : string :=
  match m with
  | ErrorHandling.Text s => s
  | ErrorHandling.Described s _ => s
  | ErrorHandling.Other (StorageUtil.Returns (Some s)) => s
  | _ => ""
  end.

(** The name of the message [add] makes of [m]. *)
Definition nameOf (m : ErrorHandling.Unknown) : option string :=
  match m with
  | ErrorHandling.Described _ n => n
  | _ => None
  end.

(** The message [add] makes of [m] under the identifier [i]. *)
Definition messageOf (type : ErrorHandling.MsgType) (i : string)
    (m : ErrorHandling.Unknown) : ErrorHandling.ErrMsg :=
  {| ErrorHandling.id := i; ErrorHandling.type := type;
     ErrorHandling.message := textOf m; ErrorHandling.name := nameOf m |}.

(* ===================================================================== *)
(** * Reasoning about runs                                                 *)
(* ===================================================================== *)


Section WP.
Context {A : Type}.
Implicit Types (Q : A → World → Prop) (E : World → Prop) (N : Prop).

Lemma wp_ret (a : A) Q E N w : Q a w → wp (mret a) Q E N w.
Proof. done. Qed.

Lemma wp_bind {B} (c : M B) (k : B → M A) Q E N w :
  wp c (λ b w', wp (k b) Q E N w') E N w → wp (c ≫= k) Q E N w.
Proof. unfold wp, mbind, M_bind. by destruct (c w). Qed.

Lemma wp_mono (c : M A) Q Q' E E' N N' w :
  wp c Q E N w →
  (∀ a w', Q a w' → Q' a w') → (∀ w', E w' → E' w') → (N → N') →
  wp c Q' E' N' w.
Proof. unfold wp. destruct (c w); eauto. Qed.

Lemma wp_post (c : M A) Q Q' E N w :
  wp c Q E N w → (∀ a w', Q a w' → Q' a w') → wp c Q' E N w.
Proof. intros H HQ. by eapply wp_mono. Qed.

Lemma wp_and (c : M A) Q Q' E E' N N' w :
  wp c Q E N w → wp c Q' E' N' w →
  wp c (λ a w', Q a w' ∧ Q' a w') (λ w', E w' ∧ E' w') (N ∧ N') w.
Proof. unfold wp. destruct (c w); eauto. Qed.

Lemma wp_Ret (c : M A) Q E N w a w' :
  wp c Q E N w → c w = Ret a w' → Q a w'.
Proof. unfold wp. intros H Heq. by rewrite Heq in H. Qed.

Lemma wp_Thrown (c : M A) Q E N w w' :
  wp c Q E N w → c w = Thrown w' → E w'.
Proof. unfold wp. intros H Heq. by rewrite Heq in H. Qed.

Lemma wp_gets (f : World → A) Q E N w : Q (f w) w → wp (gets f) Q E N w.
Proof. done. Qed.

Lemma wp_await (o : option A) Q E N w :
  (∀ a, o = Some a → Q a w) → (o = None → N) → wp (await_ o) Q E N w.
Proof. unfold wp, await_. destruct o; eauto. Qed.

Lemma wp_try_finally (body : M A) (fin : M unit) Q E N w :
  wp body (λ a w1, wp fin (λ _ w2, Q a w2) E N w1)
          (λ w1, wp fin (λ _ w2, E w2) E N w1) N w →
  wp (try_finally body fin) Q E N w.
Proof.
  unfold wp, try_finally. destruct (body w) as [a w1|w1|]; [| |done].
  - by destruct (fin w1).
  - by destruct (fin w1).
Qed.
End WP.

Section WPunit.
Implicit Types (Q : unit → World → Prop) (E : World → Prop) (N : Prop).

Lemma wp_modify (f : World → World) Q E N w : Q tt (f w) → wp (modify f) Q E N w.
Proof. done. Qed.

(** A call returns unless the fuse is burnt; without a fuse it returns. *)
Lemma wp_call (c : Call) Q E N w :
  (∀ f, (fuse w = None → f = None) → Q tt (logged f c w)) →
  (fuse w = Some 0 → E w) →
  wp (call c) Q E N w.
Proof.
  unfold wp, call. intros HQ HE.
  destruct (fuse w) as [[|n]|]; [by apply HE|by apply HQ|by apply HQ].
Qed.

(** The loop rule: an invariant over the elements done so far. *)
Lemma wp_forM_ {X} (I : list X → World → Prop) (l : list X) (body : X → M unit)
    E N w :
  I [] w →
  (∀ done x rest w1, l = done ++ x :: rest → I done w1 →
     wp (body x) (λ _ w2, I (done ++ [x]) w2) E N w1) →
  wp (forM_ l body) (λ _ w', I l w') E N w.
Proof.
  intros H0 Hstep.
  cut (∀ rest done w1, l = done ++ rest → I done w1 →
         wp (forM_ rest body) (λ _ w', I l w') E N w1).
  { intros H. by apply (H l [] w). }
  induction rest as [|x rest IH]; intros done w1 Hl HI; simpl.
  - apply wp_ret. by rewrite Hl, app_nil_r.
  - apply wp_bind. eapply wp_mono; [by eapply Hstep| |done|done].
    simpl. intros _ w2 HI2. apply (IH (done ++ [x])); [|done].
    by rewrite <- app_assoc.
Qed.
End WPunit.

(* ===================================================================== *)
(** * The depth walk                                                       *)
(* ===================================================================== *)

Lemma truthy_Some s : truthy s = true ↔ ∃ p, s = Some p ∧ p ≠ "".
Proof.
  destruct s as [p|]; simpl.
  - rewrite negb_true_iff, String.eqb_neq. split; [eauto|].
    by intros (q & [= ->] & ?).
  - split; [done|]. by intros (q & ? & ?).
Qed.

Lemma own_Some_keys nodes k n : DS.own nodes k = Some n → k ∈ DS.keys nodes.
Proof.
  unfold DS.keys. induction nodes as [|[k' n'] nodes IH]; simpl; [done|].
  case_decide as Hk; intros H.
  - rewrite Hk. apply elem_of_cons. by left.
  - apply elem_of_cons. right. by apply IH.
Qed.

Lemma own_Some_elem nodes k n : DS.own nodes k = Some n → (k, n) ∈ nodes.
Proof.
  induction nodes as [|[k' n'] nodes IH]; simpl; [done|].
  case_decide as Hk; intros H.
  - injection H as ->. rewrite Hk. apply elem_of_cons. by left.
  - apply elem_of_cons. right. by apply IH.
Qed.

Lemma own_keys_Some nodes k : k ∈ DS.keys nodes → is_Some (DS.own nodes k).
Proof.
  unfold DS.keys. induction nodes as [|[k' n'] nodes IH]; simpl.
  - by intros ?%elem_of_nil.
  - intros Hin. case_decide as Hk; [by eexists|].
    apply elem_of_cons in Hin as [Heq|Hin]; [by destruct Hk|by apply IH].
Qed.

Lemma own_NoDup_elem nodes k n :
  NoDup (DS.keys nodes) → (k, n) ∈ nodes → DS.own nodes k = Some n.
Proof.
  unfold DS.keys. induction nodes as [|[k' n'] nodes IH]; simpl.
  - by intros _ ?%elem_of_nil.
  - rewrite NoDup_cons. intros [Hk' Hnd] Hin.
    apply elem_of_cons in Hin as [Heq|Hin].
    + injection Heq as -> ->. by rewrite decide_True.
    + rewrite decide_False; [by apply IH|].
      intros ->. apply Hk'. by apply (list_elem_of_fmap_2 fst) in Hin.
Qed.

Lemma prop_own nodes k n : DS.own nodes k = Some n → DS.prop nodes k = Some (DS.Entry n).
Proof. unfold DS.prop. by intros ->. Qed.

(** An identifier without entry: the property access gives what every
    object inherits under that name, or [undefined]. *)
Lemma prop_absent nodes k :
  DS.own nodes k = None →
  DS.prop nodes k = (if decide (k ∈ inheritedNames) then Some DS.Inherited else None).
Proof. unfold DS.prop. by intros ->. Qed.

Lemma remove_dups_length {A} `{EqDecision A} (l : list A) :
  length (remove_dups l) ≤ length l ∧
  (¬ NoDup l → length (remove_dups l) < length l).
Proof.
  induction l as [|x l [IH1 IH2]]; simpl.
  - split; [done|]. intros H. destruct H. constructor.
  - destruct (decide_rel elem_of x l) as [Hin|Hout]; simpl.
    + split; lia.
    + split; [lia|]. intros Hnd.
      assert (¬ NoDup l) as Hl by (intros Hl; apply Hnd; by constructor).
      specialize (IH2 Hl). lia.
Qed.

Lemma walk_shift fuel nodes d k pid :
  walk fuel nodes (d + k) pid = (λ r, r + k) <$> walk fuel nodes d pid.
Proof.
  revert d pid. induction fuel as [|fuel IH]; intros d pid; simpl; [done|].
  destruct (truthy pid); [|done].
  destruct (pid ≫= DS.prop nodes) as [m|]; [|done].
  apply (IH (S d)).
Qed.

Lemma walk_mono fuel fuel' nodes d pid r :
  walk fuel nodes d pid = Some r → fuel ≤ fuel' → walk fuel' nodes d pid = Some r.
Proof.
  revert fuel' d pid. induction fuel as [|fuel IH]; intros fuel' d pid; simpl; [done|].
  intros H Hle. destruct fuel' as [|fuel']; [lia|]. simpl.
  destruct (truthy pid); [|done].
  destruct (pid ≫= DS.prop nodes) as [m|]; [|done].
  apply IH; [done|lia].
Qed.

Lemma walk_ge fuel nodes d pid r : walk fuel nodes d pid = Some r → d ≤ r.
Proof.
  revert d pid. induction fuel as [|fuel IH]; intros d pid; simpl; [done|].
  destruct (truthy pid); [|intros; simplify_eq; lia].
  destruct (pid ≫= DS.prop nodes) as [m|]; [|intros; simplify_eq; lia].
  intros ?%IH. lia.
Qed.

(** The walk goes through the entries up to the first identifier that has
    none.  It stops there when the property access gives [undefined], with
    the number of entries it went through; when the identifier names a
    member every object inherits, it counts that member too and stops
    then. *)
Lemma walk_reaches fuel nodes d pid k x :
  reaches nodes pid k x → DS.own nodes x = None → S k < fuel →
  walk fuel nodes d pid
  = Some (d + k + (if decide (x ∈ inheritedNames) then 1 else 0)).
Proof.
  intros Hr Hx. revert fuel d.
  induction Hr as [x Hne|p n k x Hne Hp Hr IH]; intros fuel d Hk;
    (destruct fuel as [|fuel]; [lia|]); simpl.
  - rewrite (proj2 (String.eqb_neq x "")) by done. simpl.
    rewrite (prop_absent _ _ Hx). case_decide.
    + destruct fuel as [|fuel]; [lia|]. simpl. f_equal. lia.
    + f_equal. lia.
  - rewrite (proj2 (String.eqb_neq p "")) by done. simpl.
    rewrite (prop_own _ _ _ Hp). simpl.
    rewrite (IH Hx) by lia. f_equal. lia.
Qed.

(** A walk that has seen more identifiers than there are keys has seen one
    twice, which a data set without cycles excludes; [pool] holds every
    key, and the fuel leaves room for the step through an inherited
    member. *)
Lemma walk_seen nodes pool fuel seen d pid :
  acyclic nodes →
  (∀ k, k ∈ DS.keys nodes → k ∈ pool) →
  NoDup seen → (∀ s, s ∈ seen → s ∈ DS.keys nodes) →
  (∀ s q, s ∈ seen → pid = Some q → q ≠ "" → tc (parentStep nodes) s q) →
  S (length pool) < length seen + fuel →
  is_Some (walk fuel nodes d pid).
Proof.
  intros Hac Hpool. revert seen d pid.
  assert (∀ seen, NoDup seen → (∀ s, s ∈ seen → s ∈ DS.keys nodes) →
            length seen ≤ length pool) as Hbound.
  { intros seen Hnd Hsub. apply submseteq_length, NoDup_submseteq; [done|].
    intros s Hs. by apply Hpool, Hsub. }
  induction fuel as [|fuel IH]; intros seen d pid Hnd Hsub Hpath Hlen.
  - specialize (Hbound seen Hnd Hsub). lia.
  - simpl. destruct (truthy pid) eqn:Ht; [|eauto].
    apply truthy_Some in Ht as (q & -> & Hq). simpl.
    destruct (DS.own nodes q) as [n|] eqn:Hn.
    + rewrite (prop_own _ _ _ Hn). simpl. apply (IH (q :: seen)).
      * constructor; [|done]. intros Hin. by apply (Hac q), Hpath.
      * intros s [->|?]%elem_of_cons; [by eapply own_Some_keys|auto].
      * intros s q' Hs Hq' Hne.
        assert (parentStep nodes q q') by (exists n; eauto).
        apply elem_of_cons in Hs as [->|Hs]; [by apply tc_once|].
        eapply tc_r; [|done]. by apply Hpath.
      * simpl. lia.
    + rewrite (prop_absent _ _ Hn). case_decide; [|eauto]. simpl.
      specialize (Hbound seen Hnd Hsub).
      destruct fuel as [|fuel]; [lia|]. simpl. eauto.
Qed.

(** From the parent of an entry the walk comes back within one more step
    than there are entries. *)
Lemma walk_terminates nodes k n :
  acyclic nodes → (k, n) ∈ nodes →
  is_Some (walk (S (length nodes)) nodes 0 (DS.parent n)).
Proof.
  intros Hac Hkn.
  assert (length (DS.keys nodes) = length nodes) as Hlen
    by (unfold DS.keys; by rewrite length_fmap).
  destruct (decide (NoDup (DS.keys nodes))) as [Hnd|Hdup].
  - apply (walk_seen nodes (DS.keys nodes) _ [k]); [done|done| | | |].
    + apply NoDup_singleton.
    + intros s ->%list_elem_of_singleton. by apply (list_elem_of_fmap_2 fst) in Hkn.
    + intros s q ->%list_elem_of_singleton Hq Hne. apply tc_once.
      exists n. split; [by apply own_NoDup_elem|done].
    + simpl. lia.
  - apply (walk_seen nodes (remove_dups (DS.keys nodes)) _ []); [done| | | | |].
    + intros k' Hk'. by apply elem_of_remove_dups.
    + constructor.
    + by intros s ?%elem_of_nil.
    + by intros s q ?%elem_of_nil.
    + destruct (remove_dups_length (DS.keys nodes)) as [_ Hlt].
      specialize (Hlt Hdup). simpl. lia.
Qed.

Lemma nodesWithDepth_terminates dataSet :
  acyclic (DS.nodes dataSet) →
  is_Some (nodesWithDepth (S (length (DS.nodes dataSet))) dataSet).
Proof.
  intros Hac. apply mapM_is_Some, Forall_forall. intros [k n] Hkn.
  unfold compose. cbn [fst snd].
  destruct (walk_terminates (DS.nodes dataSet) k n Hac Hkn) as [r ->].
  by eexists.
Qed.

(* ===================================================================== *)
(** * The sort                                                             *)
(* ===================================================================== *)

Section SortFacts.
Context {A : Type} (key : A → nat) (cmp : A → A → Z).
Hypothesis cmp_key : ∀ x y, (cmp x y <=? 0)%Z = (key x <=? key y).

#[local] Abbreviation le_key := (λ a b : A, key a ≤ key b).

Lemma insert_Permutation x l : insert cmp x l ≡ₚ x :: l.
Proof.
  induction l as [|y l IH]; simpl; [done|].
  destruct (cmp x y <=? 0)%Z; [done|].
  rewrite IH. apply Permutation_swap.
Qed.

Lemma sort_Permutation l : sort cmp l ≡ₚ l.
Proof.
  induction l as [|x l IH]; simpl; [done|].
  by rewrite insert_Permutation, IH.
Qed.

Lemma insert_sorted x l :
  StronglySorted le_key l → StronglySorted le_key (insert cmp x l).
Proof.
  induction 1 as [|y l Hl IH Hy]; simpl.
  - repeat constructor.
  - rewrite cmp_key. destruct (key x <=? key y) eqn:Hxy.
    + apply Nat.leb_le in Hxy. constructor; [by constructor|].
      constructor; [done|].
      eapply Forall_impl; [done|]. simpl. intros; lia.
    + apply Nat.leb_gt in Hxy. constructor; [done|].
      rewrite insert_Permutation. constructor; [|done].
      simpl. lia.
Qed.

Lemma sort_sorted l : StronglySorted le_key (sort cmp l).
Proof.
  induction l as [|x l IH]; simpl; [constructor|]. by apply insert_sorted.
Qed.



(** In a sorted list an element of smaller key stands in front. *)
Lemma sorted_before done x rest y :
  StronglySorted le_key (done ++ x :: rest) →
  y ∈ done ++ x :: rest → key y < key x → y ∈ done.
Proof.
  intros Hs Hy Hlt.
  apply elem_of_app in Hy as [?|Hy]; [done|].
  apply StronglySorted_app_1_r in Hs.
  apply StronglySorted_cons in Hs as [Hx _].
  apply elem_of_cons in Hy as [->|Hy]; [lia|].
  rewrite Forall_forall in Hx. specialize (Hx y Hy). simpl in Hx. lia.
Qed.
End SortFacts.

Lemma compareDepth_key x y :
  (compareDepth x y <=? 0)%Z = (nwd_depth x <=? nwd_depth y).
Proof.
  unfold compareDepth.
  destruct (nwd_depth x <? nwd_depth y) eqn:H1.
  { apply Nat.ltb_lt in H1. symmetry. apply Nat.leb_le. lia. }
  apply Nat.ltb_ge in H1.
  destruct (nwd_depth y <? nwd_depth x) eqn:H2.
  - apply Nat.ltb_lt in H2. symmetry. apply Nat.leb_gt. lia.
  - apply Nat.ltb_ge in H2. symmetry. apply Nat.leb_le. lia.
Qed.

(* ===================================================================== *)
(** * The calls of the hook                                                *)
(* ===================================================================== *)

#[local] Arguments nodeIdsOf : simpl never.
#[local] Arguments attach : simpl never.

Section Calls.
Implicit Types (Q : unit → World → Prop) (E : World → Prop) (N : Prop).

Lemma wp_cy_add def Q E N w :
  (∀ f, (fuse w = None → f = None) →
     Q tt (withCy (add def (cy w)) (logged f (CAdd def) w))) →
  (fuse w = Some 0 → E w) →
  wp (cy_add def) Q E N w.
Proof.
  intros HQ HE. apply wp_bind, wp_call; [|done].
  intros f Hf. by apply wp_modify, HQ.
Qed.

Lemma wp_ensureNodeExists k Q E N w :
  (k ∈ nodeIds w → Q tt w) →
  (k ∉ nodeIds w → ∀ f, (fuse w = None → f = None) →
     Q tt (withCy (add (placeholder k) (cy w))
             (logged f (CAdd (placeholder k))
                (withNodeIds ({[k]} ∪ nodeIds w) w)))) →
  (k ∉ nodeIds w → fuse w = Some 0 → E (withNodeIds ({[k]} ∪ nodeIds w) w)) →
  wp (ensureNodeExists k) Q E N w.
Proof.
  intros H1 H2 H3. unfold wp, ensureNodeExists. case_decide as Hk; [by apply H1|].
  apply (wp_cy_add _ Q E N); [|by apply H3]. intros f. by apply H2.
Qed.

Lemma wp_UUID_v4 (Q : string → World → Prop) E N w :
  (∀ f, (fuse w = None → f = None) →
     Q (uuids w (drawn w)) (withDrawn (S (drawn w)) (logged f CUuid w))) →
  (fuse w = Some 0 → E w) →
  wp UUID_v4 Q E N w.
Proof.
  intros HQ HE. apply wp_bind, wp_call; [|done]. intros f Hf.
  by apply wp_bind, wp_gets, wp_bind, wp_modify, wp_ret, HQ.
Qed.
End Calls.

(** ** The elements of the live model during a rebuild *)

Lemma nodeIdsOf_app els els' : nodeIdsOf (els ++ els') = nodeIdsOf els ++ nodeIdsOf els'.
Proof. unfold nodeIdsOf. by rewrite filter_app, fmap_app. Qed.

Lemma nodeIdsOf_snoc els e :
  nodeIdsOf (els ++ [e]) = nodeIdsOf els ++ (if isNode e then [id e] else []).
Proof.
  rewrite nodeIdsOf_app. f_equal. unfold nodeIdsOf.
  rewrite filter_cons, filter_nil. by destruct (isNode e); case_decide.
Qed.

Lemma attach_id els def : id (attach els def) = id def.
Proof. unfold attach. destruct (parent def); [case_decide|]; done. Qed.

Lemma attach_isNode els def : isNode (attach els def) = isNode def.
Proof. unfold attach. destruct (parent def); [case_decide|]; done. Qed.

Lemma attach_source els def : source (attach els def) = source def.
Proof. unfold attach. destruct (parent def); [case_decide|]; done. Qed.

Lemma attach_target els def : target (attach els def) = target def.
Proof. unfold attach. destruct (parent def); [case_decide|]; done. Qed.

Lemma attach_orphan els def : parent def = None → attach els def = def.
Proof. unfold attach. by intros ->. Qed.

Lemma attach_found els def p :
  parent def = Some p → p ∈ nodeIdsOf els → attach els def = def.
Proof. unfold attach. intros -> ?. by case_decide. Qed.

Lemma elem_of_nodeIdsOf els k :
  k ∈ nodeIdsOf els ↔ ∃ e, e ∈ els ∧ isNode e = true ∧ id e = k.
Proof.
  unfold nodeIdsOf. rewrite list_elem_of_fmap. split.
  - intros (e & -> & [? ?]%list_elem_of_filter). eauto.
  - intros (e & ? & ? & <-). exists e. split; [done|]. by apply list_elem_of_filter.
Qed.

(** ** What [nodesWithDepth] holds *)

Section NodesWithDepth.
Context (fuel : nat) (dataSet : DS.DataSet) (nwd : list NodeWithDepth).
Hypothesis Hnwd : nodesWithDepth fuel dataSet = Some nwd.

#[local] Abbreviation entryOf :=
  (λ (x : NodeWithDepth) (entry : string * DS.Node),
     nwd_id x = entry.1 ∧ nwd_node x = entry.2 ∧
     walk fuel (DS.nodes dataSet) 0 (DS.parent entry.2) = Some (nwd_depth x)).

Lemma nodesWithDepth_Forall2 : Forall2 (λ entry x, entryOf x entry) (DS.nodes dataSet) nwd.
Proof.
  apply mapM_Some_1 in Hnwd. eapply Forall2_impl; [done|].
  intros [k n] x. cbn [fst snd].
  destruct (walk fuel (DS.nodes dataSet) 0 (DS.parent n)); [|done].
  by intros [= <-].
Qed.

Lemma nodesWithDepth_elem x :
  x ∈ nwd →
  (nwd_id x, nwd_node x) ∈ DS.nodes dataSet ∧
  walk fuel (DS.nodes dataSet) 0 (DS.parent (nwd_node x)) = Some (nwd_depth x).
Proof.
  intros Hx. pose proof nodesWithDepth_Forall2 as H.
  apply list_elem_of_lookup in Hx as [i Hi].
  destruct (Forall2_lookup_r _ _ _ _ _ H Hi) as ([k n] & Hkn & Hid & Hnode & Hw).
  simpl in *. rewrite Hid, Hnode. split; [|done].
  by eapply list_elem_of_lookup_2.
Qed.

Lemma nodesWithDepth_entry k n :
  (k, n) ∈ DS.nodes dataSet → ∃ x, x ∈ nwd ∧ nwd_id x = k ∧ nwd_node x = n.
Proof.
  intros Hx. pose proof nodesWithDepth_Forall2 as H.
  apply list_elem_of_lookup in Hx as [i Hi].
  destruct (Forall2_lookup_l _ _ _ _ _ H Hi) as (x & Hx & Hid & Hnode & Hw).
  exists x. split; [by eapply list_elem_of_lookup_2|done].
Qed.

Lemma nodesWithDepth_ids : nwd_id <$> nwd = DS.keys (DS.nodes dataSet).
Proof.
  assert (Forall2 (λ entry x, nwd_id x = entry.1) (DS.nodes dataSet) nwd) as H.
  { eapply Forall2_impl; [apply nodesWithDepth_Forall2|]. by intros ?? (? & _). }
  unfold DS.keys. clear -H.
  induction H as [|[k n] x ? ? Hid _ IH]; [done|].
  rewrite !fmap_cons. by f_equal.
Qed.

(** The entry of a resolved parent is one level up. *)
Lemma nodesWithDepth_parent x p np :
  x ∈ nwd → resolvedParent (DS.nodes dataSet) (nwd_node x) = Some (p, np) →
  ∃ y, y ∈ nwd ∧ nwd_id y = p ∧ nwd_node y = np ∧ nwd_depth y < nwd_depth x.
Proof.
  intros Hx Hres. unfold resolvedParent in Hres.
  destruct (truthy (DS.parent (nwd_node x))) eqn:Ht; [|done].
  destruct (DS.parent (nwd_node x)) as [p'|] eqn:Hp; [|done]. simpl in Hres.
  destruct (DS.own (DS.nodes dataSet) p') as [np'|] eqn:Hprop; [|done].
  simpl in Hres. injection Hres as -> ->.
  destruct (nodesWithDepth_entry p np) as (y & Hy & Hyid & Hynode);
    [by eapply own_Some_elem|].
  exists y. repeat split; try done.
  destruct (nodesWithDepth_elem x Hx) as [_ Hwx].
  destruct (nodesWithDepth_elem y Hy) as [_ Hwy].
  rewrite Hp in Hwx. rewrite Hynode in Hwy.
  destruct fuel as [|fuel']; [done|].
  cbn [walk] in Hwx. rewrite Ht in Hwx. simpl in Hwx.
  rewrite (prop_own _ _ _ Hprop) in Hwx. simpl in Hwx.
  apply (walk_mono _ (S fuel')) in Hwx; [|lia].
  change 1 with (0 + 1) in Hwx. rewrite walk_shift, Hwy in Hwx.
  simpl in Hwx. injection Hwx as <-. lia.
Qed.
End NodesWithDepth.

(** ** The invariant of a rebuild *)

Section Invariant.
Context (K : list string).

Lemma Inv_init : Inv K [] (list_to_set K).
Proof.
  split.
  - intros k. by rewrite elem_of_list_to_set.
  - by intros k ?%elem_of_nil.
  - intros k. rewrite elem_of_list_to_set. by left.
  - by intros e ?%elem_of_nil.
  - constructor.
  - by intros e ?%elem_of_nil.
Qed.

Lemma Inv_placeholder els ids k :
  Inv K els ids → k ∉ ids →
  Inv K (els ++ [attach els (placeholder k)]) ({[k]} ∪ ids).
Proof.
  intros [H1 H2 H3 H4 H5 H6] Hk. rewrite attach_orphan by done.
  split; try rewrite nodeIdsOf_snoc; simpl.
  - intros k' ?. apply elem_of_union_r. auto.
  - intros k' [?|Hin]%elem_of_app; [apply elem_of_union_r; auto|].
    apply list_elem_of_singleton in Hin as ->. by apply elem_of_union_l, elem_of_singleton.
  - intros k' [Heq%elem_of_singleton|Hin]%elem_of_union; [subst k'|].
    + right. apply elem_of_app. right. by apply list_elem_of_singleton.
    + destruct (H3 k' Hin); [by left|right]. apply elem_of_app. by left.
  - intros e [?|Heq%list_elem_of_singleton]%elem_of_app; [by apply H4|by subst e].
  - rewrite filter_app. apply NoDup_app. split; [done|]. split.
    + intros k' [_ Hk']%list_elem_of_filter Hin.
      apply list_elem_of_filter in Hin as [_ Hin].
      apply list_elem_of_singleton in Hin as ->. by apply Hk, H2.
    + rewrite filter_cons, filter_nil. case_decide; [apply NoDup_singleton|constructor].
  - intros e [Hin|Heq%list_elem_of_singleton]%elem_of_app; [|by subst e]. intros Hn.
    destruct (H6 e Hin Hn) as (s & t & ? & ? & ? & ?).
    exists s, t. repeat split; try done; apply elem_of_app; by left.
Qed.

Lemma Inv_node els ids def :
  Inv K els ids → isNode def = true → id def ∈ K →
  Inv K (els ++ [attach els def]) ids.
Proof.
  intros [H1 H2 H3 H4 H5 H6] Hn Hk.
  split; try rewrite nodeIdsOf_snoc, attach_isNode, attach_id, Hn.
  - done.
  - intros k' [?|Hin]%elem_of_app; [auto|].
    apply list_elem_of_singleton in Hin as ->. auto.
  - intros k' Hin. destruct (H3 k' Hin); [by left|right]. apply elem_of_app. by left.
  - intros e [?|Heq%list_elem_of_singleton]%elem_of_app; [by apply H4|subst e].
    rewrite attach_id. by intros _ [].
  - rewrite filter_app, filter_cons, filter_nil.
    case_decide; [done|]. by rewrite app_nil_r.
  - intros e [Hin|Heq%list_elem_of_singleton]%elem_of_app; [|subst e].
    + intros Hne. destruct (H6 e Hin Hne) as (s & t & ? & ? & ? & ?).
      exists s, t. repeat split; try done; apply elem_of_app; by left.
    + rewrite attach_isNode. congruence.
Qed.

Lemma Inv_edge els ids def s t :
  Inv K els ids → source def = Some s → target def = Some t →
  s ∈ nodeIdsOf els → t ∈ nodeIdsOf els →
  Inv K (els ++ [attach els def]) ids.
Proof.
  intros [H1 H2 H3 H4 H5 H6] Hs Ht Hsin Htin.
  assert (isNode def = false) as Hn by (unfold isNode; by rewrite Hs).
  split; try rewrite nodeIdsOf_snoc, attach_isNode, Hn, app_nil_r; try done.
  - intros e [?|Heq%list_elem_of_singleton]%elem_of_app; [by apply H4|subst e].
    rewrite attach_isNode. congruence.
  - intros e [Hin|Heq%list_elem_of_singleton]%elem_of_app; [|subst e].
    + intros Hne. destruct (H6 e Hin Hne) as (s' & t' & ? & ? & ? & ?).
      exists s', t'. repeat split; try done; apply elem_of_app; by left.
    + intros _. exists s, t. rewrite attach_source, attach_target.
      repeat split; try done; apply elem_of_app; by left.
Qed.
End Invariant.

(** ** The two loops *)

Lemma sameView_refl c : sameView c c.
Proof. by repeat split. Qed.

Lemma sameView_trans c1 c2 c3 : sameView c1 c2 → sameView c2 c3 → sameView c1 c3.
Proof. unfold sameView. intros (?&?&?&?&?&?) (?&?&?&?&?&?). repeat split; congruence. Qed.

Section Phases.
Context (fuel : nat) (dataSet : DS.DataSet) (nwd : list NodeWithDepth).
Hypothesis Hnwd : nodesWithDepth fuel dataSet = Some nwd.

#[local] Abbreviation K := (DS.keys (DS.nodes dataSet)).
#[local] Abbreviation sorted := (sort compareDepth nwd).

Lemma NodeInv_app done els more :
  NodeInv dataSet done els → filter (λ k, k ∈ K) (nodeIdsOf more) = [] →
  NodeInv dataSet done (els ++ more).
Proof.
  intros [H1 H2] Hmore. split.
  - by rewrite nodeIdsOf_app, filter_app, Hmore, app_nil_r.
  - intros x p np Hx Hp. destruct (H2 x p np Hx Hp) as (l1 & l2 & -> & ?).
    exists l1, (l2 ++ more). by rewrite <- app_assoc.
Qed.

Lemma sorted_elem x : x ∈ sorted ↔ x ∈ nwd.
Proof. by rewrite sort_Permutation. Qed.

Lemma sorted_key x : x ∈ sorted → nwd_id x ∈ K.
Proof.
  intros Hx%sorted_elem.
  rewrite <- (nodesWithDepth_ids fuel dataSet nwd Hnwd).
  by apply list_elem_of_fmap_2.
Qed.

Lemma wp_ensure_Building done w0 w k :
  Building dataSet done w0 w →
  wp (ensureNodeExists k)
     (λ _ w', Building dataSet done w0 w' ∧ k ∈ nodeIds w' ∧
              (∀ k', k' ∈ nodeIdsOf (elements (cy w)) → k' ∈ nodeIdsOf (elements (cy w'))) ∧
              (∀ k', k' ∈ nodeIds w' → k' ∈ nodeIds w ∨ k' ∈ nodeIdsOf (elements (cy w'))))
     (λ _, True) True w.
Proof.
  intros (HI & HN & HV). apply wp_ensureNodeExists; [| |done].
  - intros Hk. split; [done|]. split; [done|]. split; auto.
  - intros Hk f _. simpl. split; [split; [|split]|split; [|split]].
    + by apply Inv_placeholder.
    + apply NodeInv_app; [done|]. rewrite attach_orphan by done.
      unfold nodeIdsOf. simpl. rewrite filter_cons, filter_nil. simpl.
      case_decide as Hin; [|done]. destruct Hk. by apply (inv_keys K _ _ HI).
    + done.
    + apply elem_of_union_l. by apply elem_of_singleton.
    + intros k' ?. rewrite nodeIdsOf_app. apply elem_of_app. by left.
    + intros k' [Heq%elem_of_singleton|?]%elem_of_union; [subst k'|by left].
      right. rewrite attach_orphan, nodeIdsOf_snoc by done. simpl.
      apply elem_of_app. right. by apply list_elem_of_singleton.
Qed.

Lemma wp_insertNode done x rest w0 w :
  sorted = done ++ x :: rest → Building dataSet done w0 w →
  wp (insertNode x) (λ _ w', Building dataSet (done ++ [x]) w0 w') (λ _, True) True w.
Proof.
  intros Hsorted HB. unfold insertNode. apply wp_bind.
  assert (x ∈ sorted) as Hx by (rewrite Hsorted; set_solver).
  eapply (wp_mono _ (λ _ w1, Building dataSet done w0 w1)); [| |done|done].
  { destruct (truthy (DS.parent (nwd_node x))).
    - eapply wp_mono; [by apply wp_ensure_Building| |done|done]. by intros _ w1 [? _].
    - by apply wp_ret. }
  clear w HB. intros _ w (HI & HN & HV).
  apply wp_cy_add; [|done]. intros f _. unfold Building. simpl.
  split; [|split; [|done]].
  { apply Inv_node; [done|done|by apply sorted_key]. }
  destruct HN as [Horder Hparent]. split.
  - rewrite nodeIdsOf_snoc, attach_isNode, attach_id, filter_app. simpl.
    rewrite Horder, fmap_app, filter_cons, filter_nil. simpl.
    case_decide as Hk; [done|]. destruct Hk. by apply sorted_key.
  - intros x' p np [Hx'|Hx']%elem_of_app Hres.
    + destruct (Hparent x' p np Hx' Hres) as (l1 & l2 & -> & ?).
      exists l1, (l2 ++ [attach (l1 ++ nodeElement (nwd_id x') (nwd_node x') :: l2)
                           (nodeElement (nwd_id x) (nwd_node x))]).
      by rewrite <- app_assoc.
    + apply list_elem_of_singleton in Hx' as ->.
      destruct (nodesWithDepth_parent fuel dataSet nwd Hnwd x p np)
        as (y & Hy & Hyid & _ & Hlt); [by apply sorted_elem|done|].
      assert (y ∈ done) as Hydone.
      { apply (sorted_before nwd_depth done x rest y); [|by rewrite <- Hsorted; apply sorted_elem|done].
        rewrite <- Hsorted. apply (sort_sorted nwd_depth compareDepth compareDepth_key). }
      assert (p ∈ nodeIdsOf (elements (cy w))) as Hp.
      { assert (p ∈ filter (λ k, k ∈ K) (nodeIdsOf (elements (cy w)))) as Hin.
        { rewrite Horder, <- Hyid. by apply list_elem_of_fmap_2. }
        by apply list_elem_of_filter in Hin as [_ ?]. }
      exists (elements (cy w)), []. split; [|done]. f_equal. f_equal.
      apply (attach_found _ _ p); [|done]. simpl.
      unfold resolvedParent in Hres.
      destruct (truthy (DS.parent (nwd_node x))); [|done].
      destruct (DS.parent (nwd_node x)) as [p'|]; [|done]. simpl in Hres.
      destruct (DS.own (DS.nodes dataSet) p'); [|done]. simpl in Hres. congruence.
Qed.

Lemma wp_insertNodes w0 w :
  Building dataSet [] w0 w →
  wp (forM_ sorted insertNode) (λ _ w', Building dataSet sorted w0 w') (λ _, True) True w.
Proof.
  intros HB. apply (wp_forM_ (λ done w', Building dataSet done w0 w')); [done|].
  intros done x rest w1 Hs HB1. by eapply wp_insertNode.
Qed.

(** Once all the entries are in, every known identifier is a node. *)
Lemma Building_sorted_known w0 w k :
  Building dataSet sorted w0 w → k ∈ nodeIds w → k ∈ nodeIdsOf (elements (cy w)).
Proof.
  intros (HI & [Horder _] & _) Hk.
  destruct (inv_registered K _ _ HI k Hk) as [HK|?]; [|done].
  assert (k ∈ filter (λ k, k ∈ K) (nodeIdsOf (elements (cy w)))) as Hin.
  { rewrite Horder.
    rewrite <- (nodesWithDepth_ids fuel dataSet nwd Hnwd) in HK.
    by rewrite sort_Permutation. }
  by apply list_elem_of_filter in Hin as [_ ?].
Qed.

Lemma wp_ensure_Linking done w0 w k :
  Linking dataSet nwd done w0 w →
  wp (ensureNodeExists k)
     (λ _ w', Linking dataSet nwd done w0 w' ∧ k ∈ nodeIdsOf (elements (cy w')) ∧
              (∀ k', k' ∈ nodeIdsOf (elements (cy w)) → k' ∈ nodeIdsOf (elements (cy w'))))
     (λ _, True) True w.
Proof.
  intros (HB & Hknown & Hends).
  eapply wp_mono; [by apply wp_ensure_Building| |done|done]. simpl.
  intros _ w' (HB' & Hk & Hmono & Hnew).
  assert (∀ k', k' ∈ nodeIds w' → k' ∈ nodeIdsOf (elements (cy w'))) as Hknown'.
  { intros k' Hk'. destruct (Hnew k' Hk'); auto. }
  split; [|split; [by apply Hknown'|done]].
  split; [done|]. split; [done|].
  intros e He. destruct (Hends e He). split; by apply Hmono.
Qed.

Lemma wp_insertEdge done e w0 w :
  Linking dataSet nwd done w0 w →
  wp (insertEdge e) (λ _ w', Linking dataSet nwd (done ++ [e]) w0 w') (λ _, True) True w.
Proof.
  intros HL. unfold insertEdge. apply wp_bind.
  eapply wp_mono; [by apply wp_ensure_Linking| |done|done]. simpl.
  intros _ w1 (HL1 & Hs & _). apply wp_bind.
  eapply wp_mono; [by apply wp_ensure_Linking| |done|done]. simpl.
  intros _ w2 (((HI & HN & HV) & Hknown & Hends) & Ht & Hmono). apply Hmono in Hs.
  apply wp_bind, wp_UUID_v4; [|done]. intros f _.
  apply wp_cy_add; [|done]. intros f' _. unfold Linking, Building. simpl.
  set (def := {| id := uuids w2 (drawn w2); label := DS.elabel e; parent := None;
                 source := Some (DS.source e); target := Some (DS.target e) |}).
  assert (nodeIdsOf (elements (cy w2) ++ [attach (elements (cy w2)) def])
          = nodeIdsOf (elements (cy w2))) as Hids.
  { by rewrite nodeIdsOf_snoc, attach_isNode, app_nil_r. }
  split; [split; [|split]|split].
  - by eapply Inv_edge.
  - apply NodeInv_app; [done|]. unfold nodeIdsOf.
    by rewrite filter_cons, attach_isNode, filter_nil.
  - done.
  - rewrite Hids. done.
  - rewrite Hids. intros e' [?|Heq%list_elem_of_singleton]%elem_of_app; [auto|by subst e'].
Qed.

Lemma wp_insertEdges w0 w :
  Linking dataSet nwd [] w0 w →
  wp (forM_ (DS.edges dataSet) insertEdge)
     (λ _ w', Linking dataSet nwd (DS.edges dataSet) w0 w') (λ _, True) True w.
Proof.
  intros HL. apply (wp_forM_ (λ done w', Linking dataSet nwd done w0 w')); [done|].
  intros done e rest w1 _ HL1. by apply wp_insertEdge.
Qed.
End Phases.

(** ** A rebuild that returns *)

Lemma sameView_eq c c' : sameView c c' → c' = withElements (elements c') c.
Proof.
  destruct c, c'. unfold sameView, withElements. simpl.
  intros (-> & -> & -> & -> & -> & ->). done.
Qed.

Lemma wp_rebuild fuel dataSet viewState w :
  wp (rebuild fuel dataSet viewState)
     (λ _ w', Rebuilt fuel dataSet viewState w w') (λ _, True) True w.
Proof.
  unfold rebuild.
  apply wp_bind, wp_bind, wp_call; [|done]. intros f1 _. apply wp_modify.
  apply wp_bind, wp_bind, wp_call; [|done]. intros f2 _. apply wp_gets.
  apply wp_bind, wp_bind, wp_call; [|done]. intros f3 _. apply wp_modify.
  apply wp_bind, wp_modify.
  apply wp_bind, wp_await; [|done]. intros nwd Hnwd.
  match goal with |- wp _ _ _ _ ?w1 => set (w1' := w1) end.
  apply wp_bind.
  eapply wp_mono; [apply (wp_insertNodes fuel dataSet nwd Hnwd w1' w1')| |done|done].
  { split; [apply Inv_init|]. split; [|apply sameView_refl].
    split; [done|]. by intros x p np ?%elem_of_nil. }
  simpl. intros _ w2 HB2. apply wp_bind.
  eapply wp_mono; [apply (wp_insertEdges dataSet nwd w1' w2)| |done|done].
  { split; [done|]. split.
    - intros k. by eapply Building_sorted_known.
    - by intros e ?%elem_of_nil. }
  simpl. intros _ w3 ((HI & HN & HV) & _ & Hends).
  apply wp_bind, wp_bind, wp_call; [|done]. intros f4 _. apply wp_modify.
  apply wp_bind, wp_call; [|done]. intros f5 _. apply wp_modify.
  exists nwd. simpl. repeat (split; [done|]).
  f_equal. f_equal. by apply sameView_eq in HV.
Qed.

Lemma applyToCytoscape_Ret fuel dataSet viewState w w' :
  applyToCytoscape fuel dataSet viewState (Some w) = Ran (Ret tt w') →
  ∃ w1, Rebuilt fuel dataSet viewState w w1 ∧
        cy w' = endBatch (cy w1) ∧ nodeIds w' = nodeIds w1.
Proof.
  unfold applyToCytoscape, try_finally. intros [= H].
  pose proof (wp_rebuild fuel dataSet viewState w) as Hwp. unfold wp in Hwp.
  destruct (rebuild fuel dataSet viewState w) as [[] w1|w1|]; [|done|done].
  exists w1. split; [done|]. unfold cy_endBatch in H.
  by injection H as <-.
Qed.

(** ** A rebuild without faults on a data set without cycles returns *)

Lemma wp_returns {A} (c : M A) Q w :
  wp c Q (λ _, False) False w → ∃ a w', c w = Ret a w' ∧ Q a w'.
Proof. unfold wp. destruct (c w) as [a w'| |]; [eauto|done|done]. Qed.

Lemma wp_ensure_noFault k w :
  fuse w = None → wp (ensureNodeExists k) (λ _ w', fuse w' = None) (λ _, False) False w.
Proof.
  intros Hw. apply wp_ensureNodeExists.
  - done.
  - intros _ f Hf. by apply Hf.
  - intros _. by rewrite Hw.
Qed.

Lemma wp_cy_add_noFault def w :
  fuse w = None → wp (cy_add def) (λ _ w', fuse w' = None) (λ _, False) False w.
Proof.
  intros Hw. apply wp_cy_add; [|by rewrite Hw]. intros f Hf. by apply Hf.
Qed.

Lemma wp_insertNode_noFault x w :
  fuse w = None → wp (insertNode x) (λ _ w', fuse w' = None) (λ _, False) False w.
Proof.
  intros Hw. unfold insertNode. apply wp_bind.
  eapply (wp_post _ (λ _ w1, fuse w1 = None)).
  - destruct (truthy _); [by apply wp_ensure_noFault|by apply wp_ret].
  - intros [] w1 Hw1. by apply wp_cy_add_noFault.
Qed.

Lemma wp_insertEdge_noFault e w :
  fuse w = None → wp (insertEdge e) (λ _ w', fuse w' = None) (λ _, False) False w.
Proof.
  intros Hw. unfold insertEdge. apply wp_bind.
  eapply wp_post; [by apply wp_ensure_noFault|].
  intros [] w1 Hw1; simpl in *. apply wp_bind.
  eapply wp_post; [by apply wp_ensure_noFault|].
  intros [] w2 Hw2; simpl in *.
  apply wp_bind, wp_UUID_v4; [|by rewrite Hw2]. intros f Hf.
  apply wp_cy_add_noFault. by apply Hf.
Qed.

Lemma wp_rebuild_noFault dataSet viewState w :
  acyclic (DS.nodes dataSet) → fuse w = None →
  wp (rebuild (S (length (DS.nodes dataSet))) dataSet viewState)
     (λ _ w', fuse w' = None) (λ _, False) False w.
Proof.
  intros Hac Hw. unfold rebuild.
  apply wp_bind, wp_bind, wp_call; [|by rewrite Hw].
  intros f1 Hf1. rewrite (Hf1 Hw). apply wp_modify.
  apply wp_bind, wp_bind, wp_call; [|done].
  intros f2 Hf2. rewrite (Hf2 eq_refl). apply wp_gets.
  apply wp_bind, wp_bind, wp_call; [|done].
  intros f3 Hf3. rewrite (Hf3 eq_refl). apply wp_modify.
  apply wp_bind, wp_modify.
  apply wp_bind, wp_await.
  2: { intros Hnone. destruct (nodesWithDepth_terminates dataSet Hac) as [? Hsome].
       by rewrite Hnone in Hsome. }
  intros nwd _. apply wp_bind.
  eapply wp_post; [apply (wp_forM_ (λ _ w', fuse w' = None)); [done|] |].
  { intros. by apply wp_insertNode_noFault. }
  intros [] w2 Hw2; simpl in *. apply wp_bind.
  eapply wp_post; [apply (wp_forM_ (λ _ w', fuse w' = None)); [done|] |].
  { intros. by apply wp_insertEdge_noFault. }
  intros [] w3 Hw3; simpl in *.
  apply wp_bind, wp_bind, wp_call; [|by rewrite Hw3].
  intros f4 Hf4. rewrite (Hf4 Hw3). apply wp_modify.
  apply wp_bind, wp_call; [|done]. intros f5 Hf5. rewrite (Hf5 eq_refl).
  by apply wp_modify.
Qed.

Lemma applyToCytoscape_returns dataSet viewState w :
  acyclic (DS.nodes dataSet) → fuse w = None →
  ∃ w', applyToCytoscape (S (length (DS.nodes dataSet))) dataSet viewState (Some w)
        = Ran (Ret tt w').
Proof.
  intros Hac Hw.
  destruct (wp_returns _ _ _ (wp_rebuild_noFault dataSet viewState w Hac Hw))
    as ([] & w1 & Hrun & _).
  unfold applyToCytoscape, try_finally. rewrite Hrun. by eexists.
Qed.

(* ===================================================================== *)
(** * Relations every step of a rebuild keeps                              *)
(* ===================================================================== *)

Section Keeps.
Context (R : World → World → Prop).
Hypothesis R_refl : ∀ w, R w w.
Hypothesis R_trans : ∀ w1 w2 w3, R w1 w2 → R w2 w3 → R w1 w3.

Lemma keeps_ret {A} (a : A) : keeps R (mret a).
Proof. intros w. apply wp_ret, R_refl. Qed.

Lemma keeps_bind {A B} (c : M B) (k : B → M A) :
  keeps R c → (∀ b, keeps R (k b)) → keeps R (c ≫= k).
Proof.
  intros Hc Hk w. apply wp_bind. eapply wp_mono; [apply Hc| |done|done].
  simpl. intros b w1 Hq1.
  eapply wp_mono; [apply Hk| | |done]; simpl; intros; by eapply R_trans.
Qed.

Lemma keeps_gets {A} (f : World → A) : keeps R (gets f).
Proof. intros w. apply wp_gets, R_refl. Qed.

Lemma keeps_await {A} (o : option A) : keeps R (await_ o).
Proof. intros w. apply wp_await; [|done]. intros. apply R_refl. Qed.

Lemma keeps_forM_ {X} (l : list X) (body : X → M unit) :
  (∀ x, keeps R (body x)) → keeps R (forM_ l body).
Proof.
  intros Hbody. induction l as [|x l IH]; simpl.
  - apply keeps_ret.
  - apply keeps_bind; [apply Hbody|]. by intros [].
Qed.

(** The steps of the two loops, from what the calls they make keep. *)
Hypothesis R_call : ∀ c f w, c ≠ CStartBatch → c ≠ CEndBatch → R w (logged f c w).
Hypothesis R_add : ∀ def w, R w (withCy (add def (cy w)) w).
Hypothesis R_drawn : ∀ n w, R w (withDrawn n w).
Hypothesis R_known : ∀ k w, R w (withNodeIds ({[k]} ∪ nodeIds w) w).

Lemma keeps_call c : c ≠ CStartBatch → c ≠ CEndBatch → keeps R (call c).
Proof. intros H1 H2 w. apply wp_call; [|intros; apply R_refl]. intros f _. by apply R_call. Qed.

Lemma keeps_cy_add def : keeps R (cy_add def).
Proof.
  apply keeps_bind; [by apply keeps_call|]. intros _ w. apply wp_modify, R_add.
Qed.

Lemma keeps_ensureNodeExists k : keeps R (ensureNodeExists k).
Proof.
  intros w. unfold wp, ensureNodeExists. case_decide as Hk; [apply R_refl|].
  pose proof (keeps_cy_add (placeholder k) (withNodeIds ({[k]} ∪ nodeIds w) w)) as H.
  unfold wp in H. fold (placeholder k).
  destruct (cy_add (placeholder k) (withNodeIds ({[k]} ∪ nodeIds w) w));
    [| |done]; (eapply R_trans; [apply R_known|done]).
Qed.

Lemma keeps_insertNode x : keeps R (insertNode x).
Proof.
  apply keeps_bind.
  - destruct (truthy _); [apply keeps_ensureNodeExists|apply keeps_ret].
  - intros _. apply keeps_cy_add.
Qed.

Lemma keeps_UUID_v4 : keeps R UUID_v4.
Proof.
  apply keeps_bind; [by apply keeps_call|]. intros _.
  apply keeps_bind; [apply keeps_gets|]. intros k.
  apply keeps_bind; [|intros _; apply keeps_ret].
  intros w. apply wp_modify, R_drawn.
Qed.

Lemma keeps_insertEdge e : keeps R (insertEdge e).
Proof.
  repeat (apply keeps_bind; [apply keeps_ensureNodeExists|intros _]).
  apply keeps_bind; [apply keeps_UUID_v4|]. intros k. apply keeps_cy_add.
Qed.
End Keeps.

(* ===================================================================== *)
(** * The batch                                                            *)
(* ===================================================================== *)

Lemma quiet_refl w : quiet w w.
Proof. split; [done|]. exists []. by rewrite app_nil_r. Qed.

Lemma quiet_trans w1 w2 w3 : quiet w1 w2 → quiet w2 w3 → quiet w1 w3.
Proof.
  intros (Hb1 & tr1 & Ht1 & Hf1) (Hb2 & tr2 & Ht2 & Hf2). split; [congruence|].
  exists (tr1 ++ tr2). rewrite Ht2, Ht1, <- app_assoc. split; [done|].
  by apply Forall_app.
Qed.

Lemma quiet_call c f w : c ≠ CStartBatch → c ≠ CEndBatch → quiet w (logged f c w).
Proof. intros. split; [done|]. exists [c]. split; [done|]. by repeat constructor. Qed.

Lemma quiet_same w w' :
  batchCount (cy w') = batchCount (cy w) → trace w' = trace w → quiet w w'.
Proof. intros Hb Ht. split; [done|]. exists []. by rewrite Ht, app_nil_r. Qed.

Lemma quiet_modify f :
  (∀ w, batchCount (cy (f w)) = batchCount (cy w)) → (∀ w, trace (f w) = trace w) →
  keeps quiet (modify f).
Proof. intros Hb Ht w. apply wp_modify. by apply quiet_same. Qed.

(** The [try] block after [cy.startBatch()]. *)
Lemma quiet_rebuild_rest fuel dataSet viewState :
  keeps quiet
    (viewStateBeforeQuery ← collectViewState;
     cy_elements_remove ;;
     modify (withNodeIds (list_to_set (DS.keys (DS.nodes dataSet)))) ;;
     nodesWithDepth ← await_ (nodesWithDepth fuel dataSet);
     forM_ (sort compareDepth nodesWithDepth) insertNode ;;
     forM_ (DS.edges dataSet) insertEdge ;;
     applyViewState viewState ;;
     applyViewState viewStateBeforeQuery).
Proof.
  pose proof quiet_refl as Hr. pose proof quiet_trans as Ht.
  pose proof quiet_call as Hc.
  assert (∀ c, c ≠ CStartBatch → c ≠ CEndBatch → keeps quiet (call c)) as Hcall.
  { intros. by apply keeps_call. }
  assert (∀ x, keeps quiet (insertNode x)) as Hnode.
  { intros. apply keeps_insertNode; try done; intros; by apply quiet_same. }
  assert (∀ e, keeps quiet (insertEdge e)) as Hedge.
  { intros. apply keeps_insertEdge; try done; intros; by apply quiet_same. }
  apply keeps_bind; [done| |].
  { apply keeps_bind; [done|by apply Hcall|]. intros _. by apply keeps_gets. }
  intros prior. apply keeps_bind; [done| |].
  { apply keeps_bind; [done|by apply Hcall|]. intros _. by apply quiet_modify. }
  intros _. apply keeps_bind; [done|by apply quiet_modify|].
  intros _. apply keeps_bind; [done|by apply keeps_await|].
  intros nwd. apply keeps_bind; [done|by apply keeps_forM_|].
  intros _. apply keeps_bind; [done|by apply keeps_forM_|].
  intros _. apply keeps_bind; [done| |].
  { apply keeps_bind; [done|by apply Hcall|]. intros _. by apply quiet_modify. }
  intros _. apply keeps_bind; [done|by apply Hcall|]. intros _. by apply quiet_modify.
Qed.

Lemma wp_rebuild_batch fuel dataSet viewState w :
  wp (rebuild fuel dataSet viewState)
     (λ _ w', inBatch w w')
     (λ w', (fuse w = Some 0 ∧ w' = w) ∨ inBatch w w') True w.
Proof.
  unfold rebuild. apply wp_bind, wp_bind, wp_call.
  2: { intros Hf. by left. }
  intros f1 _. apply wp_modify.
  eapply wp_mono; [apply quiet_rebuild_rest| | |done]; simpl.
  - intros _ w' (Hb & tr & Ht & Hf). simpl in *. split; [done|]. exists tr.
    by rewrite Ht, <- app_assoc.
  - intros w' (Hb & tr & Ht & Hf). simpl in *. right. split; [done|]. exists tr.
    by rewrite Ht, <- app_assoc.
Qed.

(* ===================================================================== *)
(** * Cycles are what keeps the walk from coming back                      *)
(* ===================================================================== *)

Lemma parentStep_fun nodes a b c :
  parentStep nodes a b → parentStep nodes a c → b = c.
Proof. intros (n & Hn & Hb & _) (n' & Hn' & Hc & _). congruence. Qed.

Lemma cycle_next nodes k b :
  tc (parentStep nodes) k k → parentStep nodes k b → tc (parentStep nodes) b b.
Proof.
  intros Hc Hb. inversion Hc as [? ? Hk|? y ? Hk Hy]; subst.
  - rewrite (parentStep_fun _ _ _ _ Hb Hk). by apply tc_once.
  - rewrite (parentStep_fun _ _ _ _ Hb Hk). by eapply tc_r.
Qed.

Lemma walk_cycle nodes k fuel d :
  tc (parentStep nodes) k k → walk fuel nodes d (Some k) = None.
Proof.
  revert k d. induction fuel as [|fuel IH]; intros k d Hc; [done|].
  assert (∃ b, parentStep nodes k b) as [b Hb].
  { inversion Hc; subst; eauto. }
  assert (k ≠ "") as Hk.
  { clear -Hc. induction Hc as [? ? (? & ? & ? & ?)|]; done. }
  pose proof (cycle_next _ _ _ Hc Hb) as Hcb.
  destruct Hb as (n & Hn & Hp & _). simpl.
  rewrite (proj2 (String.eqb_neq k "")) by done. simpl.
  rewrite (prop_own _ _ _ Hn). simpl. rewrite Hp. by apply IH.
Qed.

(** A check that can be run: if the walk comes back from every key, there
    is no cycle. *)
Lemma acyclic_by_walk nodes fuel :
  Forall (λ k, is_Some (walk fuel nodes 0 (Some k))) (DS.keys nodes) →
  acyclic nodes.
Proof.
  intros H k Hc. rewrite Forall_forall in H.
  assert (k ∈ DS.keys nodes) as Hk.
  { inversion Hc as [? ? (n & ? & _)|? ? ? (n & ? & _)]; subst;
      by eapply own_Some_keys. }
  destruct (H k Hk) as [r Hr]. by rewrite walk_cycle in Hr.
Qed.

Lemma scenarioChildFirst_acyclic : acyclic (DS.nodes scenarioChildFirst).
Proof. apply (acyclic_by_walk _ 4). repeat constructor; by eexists. Qed.

Lemma scenarioSelf_cycle : tc (parentStep (DS.nodes scenarioSelf)) "A" "A".
Proof. apply tc_once. by exists (childNode "A" "A"). Qed.

(* ===================================================================== *)
(** * The properties                                                       *)
(* ===================================================================== *)

(** ** C4 *)

(** C4.  The depth walk comes back on every data set whose parent
    references form no cycle: with fuel for one more step than there are
    entries, [nodesWithDepth] yields its list.  On the data set whose one
    node is its own parent it never comes back, whatever the fuel, and so
    a run of [applyToCytoscape] that no call interrupts never ends. *)
Theorem depth_walk_termination :
  (∀ dataSet, acyclic (DS.nodes dataSet) →
     ∃ nwd, nodesWithDepth (S (length (DS.nodes dataSet))) dataSet = Some nwd) ∧
  (¬ acyclic (DS.nodes scenarioSelf) ∧
   (∀ fuel, nodesWithDepth fuel scenarioSelf = None) ∧
   (∀ fuel viewState w, fuse w = None →
      applyToCytoscape fuel scenarioSelf viewState (Some w) = Ran OutOfFuel)).
Proof.
  split; [intros dataSet Hac; by apply nodesWithDepth_terminates|].
  assert (∀ fuel, nodesWithDepth fuel scenarioSelf = None) as Hnone.
  { intros fuel. pose proof (walk_cycle _ "A" fuel 0 scenarioSelf_cycle) as Hw.
    unfold nodesWithDepth. simpl in *. by rewrite Hw. }
  split; [|split; [done|]].
  - intros Hac. apply (Hac "A"), scenarioSelf_cycle.
  - intros fuel viewState w Hw.
    assert (wp (rebuild fuel scenarioSelf viewState)
               (λ _ _, False) (λ _, False) True w) as Hwp.
    { unfold rebuild.
      apply wp_bind, wp_bind, wp_call; [|by rewrite Hw].
      intros f1 Hf1. rewrite (Hf1 Hw). apply wp_modify.
      apply wp_bind, wp_bind, wp_call; [|done].
      intros f2 Hf2. rewrite (Hf2 eq_refl). apply wp_gets.
      apply wp_bind, wp_bind, wp_call; [|done].
      intros f3 Hf3. apply wp_modify.
      apply wp_bind, wp_modify, wp_bind, wp_await; [|done].
      intros nwd Hnwd. by rewrite Hnone in Hnwd. }
    unfold applyToCytoscape, try_finally. unfold wp in Hwp.
    by destruct (rebuild fuel scenarioSelf viewState w).
Qed.

Lemma depth_walk_termination_witness :
  ∃ nwd, nodesWithDepth 4 scenarioChildFirst = Some nwd ∧
         nwd_depth <$> nwd = [1; 0; 0].
Proof.
  destruct (proj1 depth_walk_termination scenarioChildFirst
              scenarioChildFirst_acyclic) as [nwd Hnwd].
  exists nwd. split; [done|].
  vm_compute in Hnwd. injection Hnwd as <-. reflexivity.
Defined.

(** ** C3 *)

(** The claim C3 fails: in [scenarioChildFirst] the chain of "B" goes
    through "A" to "X", which has no entry, and the depth of "B" is 1. *)
Lemma broken_chain_depth_counterexample :
  ¬ (∀ fuel dataSet nwd x k y,
       nodesWithDepth fuel dataSet = Some nwd → x ∈ nwd →
       reaches (DS.nodes dataSet) (DS.parent (nwd_node x)) k y →
       DS.own (DS.nodes dataSet) y = None →
       nwd_depth x = 0).
Proof.
  intros H.
  specialize (H 3 scenarioChildFirst scenarioChildFirst_depths
                scenarioChildFirst_B 1 "X" eq_refl).
  discriminate H.
  - apply elem_of_cons. by left.
  - by apply (reaches_step _ "A" (childNode "A" "X")); [| |apply reaches_here].
  - done.
Qed.

(** C3, amended.  When the parent chain of a node reaches, after [k]
    entries, an identifier that has no entry, the walk stops there, or one
    step later when the identifier names a member every object inherits
    (such as "constructor"), which the walk takes for one more ancestor.
    The depth of the node is the number of steps taken: [k], the number of
    ancestors it went through, and one more in the inherited case.  So the
    depth is 0 only when the parent of the node itself is missing and not
    an inherited name. *)
Theorem depth_counts_resolved_ancestors fuel dataSet nwd x k y :
  nodesWithDepth fuel dataSet = Some nwd → x ∈ nwd →
  reaches (DS.nodes dataSet) (DS.parent (nwd_node x)) k y →
  DS.own (DS.nodes dataSet) y = None →
  nwd_depth x = k + (if decide (y ∈ inheritedNames) then 1 else 0) ∧
  ∀ fuel', S k < fuel' →
    walk fuel' (DS.nodes dataSet) 0 (DS.parent (nwd_node x))
    = Some (k + (if decide (y ∈ inheritedNames) then 1 else 0)).
Proof.
  intros Hnwd Hx Hr Hy.
  assert (∀ fuel', S k < fuel' →
            walk fuel' (DS.nodes dataSet) 0 (DS.parent (nwd_node x))
            = Some (k + (if decide (y ∈ inheritedNames) then 1 else 0))) as Hw.
  { intros fuel' Hlt. by rewrite (walk_reaches _ _ 0 _ k y). }
  split; [|done].
  destruct (nodesWithDepth_elem _ _ _ Hnwd x Hx) as [_ Hd].
  apply (walk_mono _ (fuel `max` S (S k))) in Hd; [|lia].
  rewrite Hw in Hd by lia. by injection Hd.
Qed.

Lemma depth_counts_resolved_ancestors_witness :
  nwd_depth scenarioChildFirst_B = 1 ∧
  ∀ fuel', 2 < fuel' →
    walk fuel' (DS.nodes scenarioChildFirst) 0 (Some "A") = Some 1.
Proof.
  apply (depth_counts_resolved_ancestors 3 scenarioChildFirst
           scenarioChildFirst_depths scenarioChildFirst_B 1 "X").
  - reflexivity.
  - apply elem_of_cons. by left.
  - by apply (reaches_step _ "A" (childNode "A" "X")); [| |apply reaches_here].
  - reflexivity.
Defined.

(** A parent identifier that names an inherited member: "X" is one level
    down, and goes in behind "Y" and the placeholder of its parent. *)
Example scenarioInherited_order :
  nodesWithDepth 3 scenarioInherited
  = Some [ {| nwd_id := "X"; nwd_node := childNode "X" "constructor";
              nwd_depth := 1 |};
           {| nwd_id := "Y"; nwd_node := plainNode "Y"; nwd_depth := 0 |} ] ∧
  ∃ w', applyToCytoscape 3 scenarioInherited emptyViewState
          (Some (worldOf emptyCore None)) = Ran (Ret tt w') ∧
        nodeIdsOf (elements (cy w')) = ["Y"; "constructor"; "X"].
Proof.
  split; [vm_compute; reflexivity|].
  eexists. split; [vm_compute; reflexivity|]. vm_compute. reflexivity.
Qed.

(** ** C1 *)




(** The order in which the nodes of [scenarioChildFirst] go into the model:
    the placeholder of the missing "X", then "A" and "C" (depth 0, in input
    order), then "B" (depth 1), which was first in the input. *)
Example scenarioChildFirst_order :
  ∃ w', applyToCytoscape 4 scenarioChildFirst emptyViewState
          (Some (worldOf emptyCore None)) = Ran (Ret tt w') ∧
        nodeIdsOf (elements (cy w')) = ["X"; "A"; "C"; "B"; "Y"].
Proof. eexists. split; [vm_compute; reflexivity|]. vm_compute. reflexivity. Qed.

(** [scenarioAB] of the specification: two nodes, one edge, "B" under "A". *)
Example scenarioAB_model :
  ∃ w', applyToCytoscape 3 scenarioAB emptyViewState
          (Some (worldOf emptyCore None)) = Ran (Ret tt w') ∧
        elements (cy w') =
          [ nodeElement "A" (plainNode "A"); nodeElement "B" (childNode "B" "A");
            {| id := "uuid-0"; label := "e"; parent := None;
               source := Some "A"; target := Some "B" |} ].
Proof. eexists. split; [vm_compute; reflexivity|]. vm_compute. reflexivity. Qed.

(** ** C2 *)

(** C2.  After a run of [applyToCytoscape] that returns, the source and the
    target of every edge of the data set are nodes of the live model, and so
    are the ends of every edge element of the model; a node of the model
    that is not a key of [dataSet.nodes] is a placeholder: its label is its
    identifier and it has no parent.  On a data set without cycles a run
    that no call interrupts does return. *)
Theorem applyToCytoscape_edge_ends_exist dataSet viewState w :
  (acyclic (DS.nodes dataSet) → fuse w = None →
   ∃ w', applyToCytoscape (S (length (DS.nodes dataSet))) dataSet viewState (Some w)
         = Ran (Ret tt w')) ∧
  (∀ fuel w',
     applyToCytoscape fuel dataSet viewState (Some w) = Ran (Ret tt w') →
     (∀ e k, e ∈ DS.edges dataSet → k = DS.source e ∨ k = DS.target e →
        k ∈ nodeIdsOf (elements (cy w')) ∧
        (k ∉ DS.keys (DS.nodes dataSet) → placeholder k ∈ elements (cy w'))) ∧
     (∀ el, el ∈ elements (cy w') → isNode el = false →
        ∃ s t, source el = Some s ∧ target el = Some t ∧
               s ∈ nodeIdsOf (elements (cy w')) ∧
               t ∈ nodeIdsOf (elements (cy w')))).
Proof.
  split; [by apply applyToCytoscape_returns|].
  intros fuel w' Hrun.
  destruct (applyToCytoscape_Ret _ _ _ _ _ Hrun)
    as (w1 & (nwd & Hnwd & HI & _ & Hends & Hcy) & Hw' & _).
  assert (elements (cy w') = elements (cy w1)) as -> by by rewrite Hw'.
  split; [|by apply (inv_edges _ _ _ HI)].
  intros e k He Hk.
  assert (k ∈ nodeIdsOf (elements (cy w1))) as Hin.
  { destruct (Hends e He). by destruct Hk as [->| ->]. }
  split; [done|]. intros Hnew.
  apply elem_of_nodeIdsOf in Hin as (el & Hel & Hnode & <-).
  by rewrite <- (inv_placeholder _ _ _ HI el Hel Hnode Hnew).
Qed.

Lemma applyToCytoscape_edge_ends_exist_witness :
  ∃ w', applyToCytoscape 2 scenarioZ emptyViewState
          (Some (worldOf emptyCore None)) = Ran (Ret tt w') ∧
        "Z" ∈ nodeIdsOf (elements (cy w')) ∧
        placeholder "Z" ∈ elements (cy w').
Proof.
  destruct (proj1 (applyToCytoscape_edge_ends_exist scenarioZ emptyViewState
                     (worldOf emptyCore None))) as [w' Hrun].
  - apply (acyclic_by_walk _ 2). repeat constructor; by eexists.
  - reflexivity.
  - exists w'. split; [done|].
    destruct (proj2 (applyToCytoscape_edge_ends_exist scenarioZ emptyViewState
                       (worldOf emptyCore None)) _ w' Hrun) as [Hends _].
    destruct (Hends (edge "A" "Z" "e") "Z") as [Hin Hph].
    + apply elem_of_cons. by left.
    + by right.
    + split; [done|]. apply Hph. unfold DS.keys. simpl.
      intros [?|?%elem_of_nil]%elem_of_cons; done.
Defined.

(** The scenario of the specification: the edge to the unknown "Z" yields
    the node "Z" labelled "Z". *)
Example scenarioZ_model :
  ∃ w', applyToCytoscape 2 scenarioZ emptyViewState
          (Some (worldOf emptyCore None)) = Ran (Ret tt w') ∧
        elements (cy w') =
          [ nodeElement "A" (plainNode "A"); placeholder "Z";
            {| id := "uuid-0"; label := "e"; parent := None;
               source := Some "A"; target := Some "Z" |} ].
Proof. eexists. split; [vm_compute; reflexivity|]. vm_compute. reflexivity. Qed.

(** ** C10 *)

Lemma extends_refl w : extends w w.
Proof. by split. Qed.

Lemma extends_trans w1 w2 w3 : extends w1 w2 → extends w2 w3 → extends w1 w3.
Proof. intros [? ?] [? ?]. split; by etrans. Qed.

Lemma extends_loops xs es :
  keeps extends (forM_ xs insertNode ;; forM_ es insertEdge).
Proof.
  pose proof extends_refl as Hr. pose proof extends_trans as Ht.
  assert (∀ c f w, c ≠ CStartBatch → c ≠ CEndBatch → extends w (logged f c w)) as Hc
    by by intros.
  assert (∀ def w, extends w (withCy (add def (cy w)) w)) as Ha.
  { intros. split; [done|]. by apply prefix_app_r. }
  assert (∀ n w, extends w (withDrawn n w)) as Hd by by intros.
  assert (∀ k w, extends w (withNodeIds ({[k]} ∪ nodeIds w) w)) as Hk.
  { intros. split; [|done]. simpl. set_solver. }
  apply keeps_bind; [done| |intros _].
  - apply keeps_forM_; [done|done|]. intros. by apply keeps_insertNode.
  - apply keeps_forM_; [done|done|]. intros. by apply keeps_insertEdge.
Qed.

(** C10.  The first call of [ensureNodeExists] for an identifier adds one
    element, the placeholder, which has no parent, and makes the identifier
    known; for a known identifier a call changes nothing, and an identifier
    stays known through the two loops, so every later call for it leaves
    the model as it is.  In the model a returning run leaves, each
    placeholder is there once. *)
Theorem ensureNodeExists_idempotent :
  (∀ k w w1,
     ensureNodeExists k w = Ret tt w1 → k ∉ nodeIds w →
     elements (cy w1) = elements (cy w) ++ [placeholder k] ∧
     parent (placeholder k) = None ∧
     nodeIds w1 = {[k]} ∪ nodeIds w) ∧
  (∀ k w, k ∈ nodeIds w → ensureNodeExists k w = Ret tt w) ∧
  (∀ k w w1 xs es w2,
     ensureNodeExists k w = Ret tt w1 →
     (forM_ xs insertNode ;; forM_ es insertEdge) w1 = Ret tt w2 →
     ensureNodeExists k w2 = Ret tt w2) ∧
  (∀ fuel dataSet viewState w w',
     applyToCytoscape fuel dataSet viewState (Some w) = Ran (Ret tt w') →
     NoDup (filter (λ k, k ∉ DS.keys (DS.nodes dataSet))
              (nodeIdsOf (elements (cy w')))) ∧
     ∀ el, el ∈ elements (cy w') → isNode el = true →
           id el ∉ DS.keys (DS.nodes dataSet) →
           el = placeholder (id el) ∧ parent el = None).
Proof.
  assert (∀ k w, k ∈ nodeIds w → ensureNodeExists k w = Ret tt w) as Hknown.
  { intros k w Hk. unfold ensureNodeExists. by case_decide. }
  assert (∀ k w w1, ensureNodeExists k w = Ret tt w1 → k ∈ nodeIds w1) as Hafter.
  { intros k w w1 Hrun.
    refine (wp_Ret _ (λ _ w', k ∈ nodeIds w') (λ _, True) True w tt w1 _ Hrun).
    apply wp_ensureNodeExists; [done| |done].
    intros _ f _. simpl. set_solver. }
  split; [|split; [done|split]].
  - intros k w w1 Hrun Hk.
    refine (wp_Ret _ (λ _ w', elements (cy w') = elements (cy w) ++ [placeholder k] ∧
                             parent (placeholder k) = None ∧
                             nodeIds w' = {[k]} ∪ nodeIds w)
              (λ _, True) True w tt w1 _ Hrun).
    apply wp_ensureNodeExists; [done| |done].
    intros _ f _. simpl. by rewrite attach_orphan.
  - intros k w w1 xs es w2 Hrun Hloops. apply Hknown.
    pose proof (extends_loops xs es w1) as Hwp.
    apply (wp_Ret _ _ _ _ _ _ _ Hwp) in Hloops as [Hsub _].
    apply Hsub. by eapply Hafter.
  - intros fuel dataSet viewState w w' Hrun.
    destruct (applyToCytoscape_Ret _ _ _ _ _ Hrun)
      as (w1 & (nwd & Hnwd & HI & _ & _ & _) & Hw' & _).
    assert (elements (cy w') = elements (cy w1)) as -> by by rewrite Hw'.
    split; [by apply (inv_once _ _ _ HI)|].
    intros el Hel Hnode Hid.
    by rewrite (inv_placeholder _ _ _ HI el Hel Hnode Hid).
Qed.

Lemma ensureNodeExists_idempotent_witness :
  ∃ w1, ensureNodeExists "Z" (worldOf emptyCore None) = Ret tt w1 ∧
        elements (cy w1) = [placeholder "Z"] ∧
        ensureNodeExists "Z" w1 = Ret tt w1.
Proof.
  eexists. split; [vm_compute; reflexivity|]. split.
  - refine (proj1 (proj1 ensureNodeExists_idempotent "Z" (worldOf emptyCore None) _ _ _)).
    + vm_compute. reflexivity.
    + vm_compute. set_solver.
  - apply (proj1 (proj2 ensureNodeExists_idempotent)). vm_compute. set_solver.
Defined.

(** ** C9 *)

(** C9.  Whether [applyToCytoscape] returns or throws, and wherever in the
    [try] block the error comes from, a run in which [cy.startBatch()] has
    returned makes, from then on, no call that opens or closes a batch but
    one [cy.endBatch()], the last call of the run, and leaves the depth of
    open batches as it found it.  [cy.startBatch()] returns unless it is
    the call that throws. *)
Theorem applyToCytoscape_ends_batch fuel dataSet viewState w o w' :
  applyToCytoscape fuel dataSet viewState (Some w) = Ran o →
  o = Ret tt w' ∨ o = Thrown w' →
  ∃ tr,
    trace w' = trace w ++ tr ∧
    (fuse w ≠ Some 0 → CStartBatch ∈ tr) ∧
    (CStartBatch ∈ tr →
     ∃ mid, tr = CStartBatch :: mid ++ [CEndBatch] ∧ Forall notBatch mid ∧
            batchCount (cy w') = batchCount (cy w)).
Proof.
  unfold applyToCytoscape, try_finally. intros [= <-] Ho.
  pose proof (wp_rebuild_batch fuel dataSet viewState w) as Hwp. unfold wp in Hwp.
  assert (∀ w1, inBatch w w1 →
            ∃ tr, trace (withCy (endBatch (cy w1)) (logged (fuse w1) CEndBatch w1))
                  = trace w ++ tr ∧
                  (fuse w ≠ Some 0 → CStartBatch ∈ tr) ∧
                  (CStartBatch ∈ tr →
                   ∃ mid, tr = CStartBatch :: mid ++ [CEndBatch] ∧ Forall notBatch mid ∧
                          batchCount (cy (withCy (endBatch (cy w1))
                                            (logged (fuse w1) CEndBatch w1)))
                          = batchCount (cy w))) as Hopen.
  { intros w1 (Hb & mid & Ht & Hmid). exists (CStartBatch :: mid ++ [CEndBatch]).
    simpl. rewrite Ht, Hb, <- app_assoc. simpl.
    split; [done|]. split; [intros; by left|]. intros _. by exists mid. }
  destruct (rebuild fuel dataSet viewState w) as [[] w1|w1|] eqn:Hrun; simpl in Ho.
  - destruct Ho as [[= <-]|?]; [|done]. by apply Hopen.
  - destruct Ho as [?|[= <-]]; [done|].
    destruct Hwp as [[Hf ->]|Hin]; [|by apply Hopen].
    exists [CEndBatch]. simpl. split; [done|]. split; [done|].
    intros [?|?%elem_of_nil]%elem_of_cons; done.
  - by destruct Ho.
Qed.

(** The call that adds "C" throws: the batch is closed all the same. *)
Lemma applyToCytoscape_ends_batch_witness :
  ∃ w',
    applyToCytoscape 4 scenarioChildFirst emptyViewState
      (Some (worldOf emptyCore (Some 5))) = Ran (Thrown w') ∧
    ∃ mid, trace w' = CStartBatch :: mid ++ [CEndBatch] ∧ Forall notBatch mid ∧
           batchCount (cy w') = 0.
Proof.
  assert (∃ w', applyToCytoscape 4 scenarioChildFirst emptyViewState
                  (Some (worldOf emptyCore (Some 5))) = Ran (Thrown w'))
    as [w' Hrun] by (eexists; vm_compute; reflexivity).
  exists w'. split; [done|].
  destruct (applyToCytoscape_ends_batch 4 scenarioChildFirst emptyViewState
              (worldOf emptyCore (Some 5)) _ w' Hrun (or_intror eq_refl))
    as (tr & Htr & Hbegun & Honce).
  change (trace w' = tr) in Htr. rewrite Htr. by apply Honce, Hbegun.
Defined.

(** ** C5 *)

Lemma wp_True {A} (c : M A) w : wp c (λ _ _, True) (λ _, True) True w.
Proof. unfold wp. by destruct (c w). Qed.

(** The calls of the [try] block, when it returns: the view state is
    collected before the elements are removed, and the last two calls apply
    [viewState] and then what was collected. *)
Lemma wp_rebuild_trace fuel dataSet viewState w :
  wp (rebuild fuel dataSet viewState)
     (λ _ w', ∃ tr, trace w' = trace w ++ [CStartBatch; CCollect; CRemove] ++ tr ++
                                  [CApply viewState; CApply (collect (cy w))])
     (λ _, True) True w.
Proof.
  pose proof (λ w w' (H : ∃ tr, trace w' = trace w ++ tr), H) as Hshape.
  assert (∀ l, keeps (λ w w', ∃ tr, trace w' = trace w ++ tr)
                 (forM_ l insertNode)) as Hnodes.
  { intros l. apply keeps_forM_.
    - intros w1. exists []. by rewrite app_nil_r.
    - intros w1 w2 w3 [t1 H1] [t2 H2]. exists (t1 ++ t2). by rewrite H2, H1, app_assoc.
    - intros x. apply keeps_insertNode.
      + intros w1. exists []. by rewrite app_nil_r.
      + intros w1 w2 w3 [t1 H1] [t2 H2]. exists (t1 ++ t2). by rewrite H2, H1, app_assoc.
      + intros c f w1 _ _. by exists [c].
      + intros def w1. exists []. by rewrite app_nil_r.
      + intros k w1. exists []. by rewrite app_nil_r. }
  assert (∀ l, keeps (λ w w', ∃ tr, trace w' = trace w ++ tr)
                 (forM_ l insertEdge)) as Hedges.
  { intros l. apply keeps_forM_.
    - intros w1. exists []. by rewrite app_nil_r.
    - intros w1 w2 w3 [t1 H1] [t2 H2]. exists (t1 ++ t2). by rewrite H2, H1, app_assoc.
    - intros x. apply keeps_insertEdge.
      + intros w1. exists []. by rewrite app_nil_r.
      + intros w1 w2 w3 [t1 H1] [t2 H2]. exists (t1 ++ t2). by rewrite H2, H1, app_assoc.
      + intros c f w1 _ _. by exists [c].
      + intros def w1. exists []. by rewrite app_nil_r.
      + intros n w1. exists []. by rewrite app_nil_r.
      + intros k w1. exists []. by rewrite app_nil_r. }
  unfold rebuild.
  apply wp_bind, wp_bind, wp_call; [|done]. intros f1 _. apply wp_modify.
  apply wp_bind, wp_bind, wp_call; [|done]. intros f2 _. apply wp_gets.
  apply wp_bind, wp_bind, wp_call; [|done]. intros f3 _. apply wp_modify.
  apply wp_bind, wp_modify.
  apply wp_bind, wp_await; [|done]. intros nwd _.
  apply wp_bind. eapply wp_mono; [apply Hnodes| |done|done].
  simpl. intros _ w2 [t2 H2]. apply wp_bind.
  eapply wp_mono; [apply Hedges| |done|done].
  simpl. intros _ w3 [t3 H3].
  apply wp_bind, wp_bind, wp_call; [|done]. intros f4 _. apply wp_modify.
  apply wp_bind, wp_call; [|done]. intros f5 _. apply wp_modify.
  exists (t2 ++ t3). simpl. rewrite H3, H2. simpl.
  by rewrite <- !app_assoc.
Qed.

Lemma positions_apply vs c k :
  positions (apply vs c) !! k =
    match nodePositions vs !! k with
    | Some p => if decide (k ∈ nodeIdsOf (elements c)) then Some p else positions c !! k
    | None => positions c !! k
    end.
Proof.
  simpl. destruct (nodePositions vs !! k) as [p|] eqn:Hk.
  - case_decide as Hin.
    + apply lookup_union_Some_l. by apply map_lookup_filter_Some_2.
    + apply lookup_union_r. apply map_lookup_filter_None_2. right.
      intros p' Hp'. by simpl.
  - apply lookup_union_r. apply map_lookup_filter_None_2. by left.
Qed.

(** C5.  A run that returns has collected the view state before it removed
    the elements, and its last calls before [cy.endBatch()] apply first
    [viewState], the one just loaded, then the collected one.  So, for every
    node of the rebuilt model, the position is the collected one when there
    is one and the loaded one otherwise, whatever the loaded one is when
    both are there; and the camera and the lock flag, which are always
    collected, are those from before the rebuild. *)
Theorem applyToCytoscape_view_state_order fuel dataSet viewState w w' :
  applyToCytoscape fuel dataSet viewState (Some w) = Ran (Ret tt w') →
  (∃ tr, trace w' =
           trace w ++ [CStartBatch; CCollect; CRemove] ++ tr ++
             [CApply viewState; CApply (collect (cy w)); CEndBatch]) ∧
  (∃ rebuilt,
     positions rebuilt = ∅ ∧ elements rebuilt = elements (cy w') ∧
     cy w' = endBatch (apply (collect (cy w)) (apply viewState rebuilt))) ∧
  (∀ k, k ∈ nodeIdsOf (elements (cy w')) →
     positions (cy w') !! k =
       match nodePositions (collect (cy w)) !! k with
       | Some p => Some p
       | None => nodePositions viewState !! k
       end) ∧
  viewport (cy w') = viewport (cy w) ∧
  autolock (cy w') = autolock (cy w).
Proof.
  intros Hrun.
  destruct (applyToCytoscape_Ret _ _ _ _ _ Hrun)
    as (w1 & (nwd & _ & _ & _ & _ & Hcy) & Hw' & _).
  assert (elements (cy w') = elements (cy w1)) as Hels by by rewrite Hw'.
  split; [|split; [|split]].
  - unfold applyToCytoscape, try_finally in Hrun. injection Hrun as Hrun.
    pose proof (wp_rebuild_trace fuel dataSet viewState w) as Hwp. unfold wp in Hwp.
    destruct (rebuild fuel dataSet viewState w) as [[] w2|w2|]; [|done|done].
    destruct Hwp as [tr Htr]. injection Hrun as <-. exists tr. simpl.
    rewrite Htr. by rewrite <- !app_assoc.
  - exists (withElements (elements (cy w1)) (removeAll (startBatch (cy w)))).
    split; [done|]. split; [by rewrite Hels|]. by rewrite Hw', Hcy at 1.
  - intros k Hk. rewrite Hels in Hk. rewrite Hw', Hcy.
    change (positions (endBatch ?c)) with (positions c).
    rewrite !positions_apply. simpl.
    destruct (list_to_map _ !! k) as [p|]; [by case_decide|].
    destruct (nodePositions viewState !! k); [by case_decide|done].
  - by rewrite Hw', Hcy.
Qed.

(** "A" was moved before the reload and keeps its place though the loaded
    view state has one for it; "B" is new and goes where the loaded view
    state puts it. *)
Lemma applyToCytoscape_view_state_order_witness :
  ∃ w', applyToCytoscape 3 scenarioAB loadedViewState
          (Some (worldOf movedCore None)) = Ran (Ret tt w') ∧
        positions (cy w') !! "A" = Some {| px := 5; py := 5 |} ∧
        positions (cy w') !! "B" = Some {| px := 2; py := 2 |} ∧
        viewport (cy w') = viewport movedCore.
Proof.
  assert (∃ w', applyToCytoscape 3 scenarioAB loadedViewState
                  (Some (worldOf movedCore None)) = Ran (Ret tt w') ∧
                nodeIdsOf (elements (cy w')) = ["A"; "B"])
    as (w' & Hrun & Hids).
  { eexists. split; vm_compute; reflexivity. }
  exists w'. split; [exact Hrun|].
  destruct (applyToCytoscape_view_state_order 3 scenarioAB loadedViewState
              (worldOf movedCore None) w' Hrun) as (_ & _ & Hpos & Hview & _).
  assert ("A" ∈ nodeIdsOf (elements (cy w'))) as HA.
  { rewrite Hids. apply elem_of_cons. by left. }
  assert ("B" ∈ nodeIdsOf (elements (cy w'))) as HB.
  { rewrite Hids. apply elem_of_cons. right. apply elem_of_cons. by left. }
  split; [|split; [|exact Hview]].
  - etrans; [exact (Hpos "A" HA)|]. vm_compute. reflexivity.
  - etrans; [exact (Hpos "B" HB)|]. vm_compute. reflexivity.
Defined.

(* ===================================================================== *)
(** * The cache in front of localStorage                                   *)
(* ===================================================================== *)

Section Storage.
Import StorageUtil.
Context {T : Type} `{Nullish T}.
Implicit Types (handler consumer : LocalStorageHandler T) (b : Browser T).

Lemma data_shown handler dflt b :
  defaultValue handler () = Returns dflt →
  data handler b = Returns (shown handler dflt b).
Proof.
  intros Hd. unfold data, shown.
  destruct (context b !! storageKey handler) as [c|].
  - destruct (nullish c); [by rewrite Hd|done].
  - case_decide; [done|by rewrite Hd].
Qed.


Lemma setItem_Returns key value b b1 :
  setItem key value b = Returns b1 →
  denied b = false ∧ b1 = withLocalStorage (<[key := value]> (localStorage b)) b.
Proof.
  unfold setItem. destruct (denied b); [done|].
  destruct (quota b) as [q|]; [case_decide; [done|]|]; by intros [= <-].
Qed.

(** What the effect does, by what is stored under the key. *)
Lemma effect_cases handler b :
  denied b = false →
  effect handler b =
    match localStorage b !! storageKey handler with
    | None => Returns b
    | Some serialized =>
        match deserialize handler serialized with
        | Throws error => Throws error
        | Returns NotOk => Returns (warn (parseWarning handler) b)
        | Returns (Ok obj) => Returns (dispatch (cache (storageKey handler) obj) b)
        end
    end.
Proof.
  intros Hd. unfold effect, getItem. rewrite Hd. simpl.
  destruct (localStorage b !! storageKey handler) as [s|]; [|done].
  destruct (deserialize handler s) as [[obj|]|e]; done.
Qed.



End Storage.





(* ===================================================================== *)
(** * The forest                                                           *)
(* ===================================================================== *)

Section TreeFacts.
Import Tree.
Context {T : Type} (fn : ToTreeArgs T).
Implicit Types (h : list (TreeNode T)) (m tn : list (string * nat)).

(** ** The map *)

Lemma elem_of_Map_set m k v k' a :
  (k', a) ∈ Map_set m k v → (k', a) = (k, v) ∨ (k', a) ∈ m.
Proof.
  induction m as [|[k0 v0] m IH]; simpl.
  - intros ?%list_elem_of_singleton. by left.
  - case_decide as Hk.
    + intros [?|?]%elem_of_cons; [by left|]. right. apply elem_of_cons. by right.
    + intros [?|Hin]%elem_of_cons.
      * right. apply elem_of_cons. by left.
      * destruct (IH Hin); [by left|]. right. apply elem_of_cons. by right.
Qed.

Lemma Map_set_NoDup m k v : NoDup m.*2 → v ∉ m.*2 → NoDup (Map_set m k v).*2.
Proof.
  induction m as [|[k0 v0] m IH]; simpl.
  - intros _ _. apply NoDup_singleton.
  - rewrite !NoDup_cons, !not_elem_of_cons. intros [Hv0 Hnd] [Hne Hv].
    case_decide as Hk; simpl; rewrite NoDup_cons; [done|].
    split; [|by apply IH].
    intros ([k' a] & Heq & Hin)%list_elem_of_fmap. simpl in Heq. subst a.
    apply elem_of_Map_set in Hin as [[= _ Heq]|Hin]; [done|].
    apply Hv0. by apply (list_elem_of_fmap_2 snd) in Hin.
Qed.

(** Every entry of the map holds the address of an item with its
    identifier, and no address is there twice. *)
Lemma mapFrom_spec (items : list T) rest :
  ∀ pre m,
    items = pre ++ rest → NoDup m.*2 →
    (∀ k a, (k, a) ∈ m →
       a < length pre ∧ ∃ it, items !! a = Some it ∧ getId fn it = k) →
    NoDup (mapFrom fn (length pre) rest m).*2 ∧
    ∀ k a, (k, a) ∈ mapFrom fn (length pre) rest m →
      ∃ it, items !! a = Some it ∧ getId fn it = k.
Proof.
  induction rest as [|it rest IH]; intros pre m Hitems Hnd Hm; simpl.
  - split; [done|]. intros k a Hin. by destruct (Hm k a Hin).
  - replace (S (length pre)) with (length (pre ++ [it]))
      by (rewrite length_app; simpl; lia).
    apply IH.
    + by rewrite <- app_assoc.
    + apply Map_set_NoDup; [done|].
      intros ([k a] & Heq & Hin)%list_elem_of_fmap. simpl in Heq.
      destruct (Hm k a Hin). lia.
    + intros k a [[= Hk Ha]|Hin]%elem_of_Map_set.
      * rewrite length_app, Ha, Hk. simpl. split; [lia|]. exists it. split; [|done].
        rewrite Hitems. by apply list_lookup_middle.
      * destruct (Hm k a Hin) as [? ?]. rewrite length_app. split; [lia|done].
Qed.

Lemma mapFrom_NoDup items : NoDup (mapFrom fn 0 items []).*2.
Proof.
  apply (mapFrom_spec items items [] []); [done|constructor|].
  by intros k a ?%elem_of_nil.
Qed.

Lemma mapFrom_entry items k a :
  (k, a) ∈ mapFrom fn 0 items [] → ∃ it, items !! a = Some it ∧ getId fn it = k.
Proof.
  apply (mapFrom_spec items items [] []); [done|constructor|].
  by intros k' a' ?%elem_of_nil.
Qed.

(** ** The first loop *)

Lemma lookup_alter_Some {A} (f : A → A) (l : list A) i j y :
  alter f i l !! j = Some y →
  ∃ x, l !! j = Some x ∧ y = (if decide (i = j) then f x else x).
Proof.
  rewrite list_lookup_alter. destruct (decide (i = j)) as [->|Hij].
  - destruct (l !! j) as [x|]; [|done]. intros [= <-]. by exists x.
  - intros Hy. by exists y.
Qed.

(** What [link] leaves of a node: the parent of the node it is called for,
    and children. *)
Lemma link_lookup tn h k a a' n' :
  link fn tn h (k, a) !! a' = Some n' →
  ∃ n, h !! a' = Some n ∧ item n' = item n ∧ depth n' = depth n ∧
       parent n' =
         (if decide (a' = a)
          then match getParent fn (item n) with
               | Some parentId => Map_get tn parentId
               | None => parent n
               end
          else parent n).
Proof.
  unfold link. simpl. destruct (h !! a) as [n|] eqn:Ha.
  2: { intros Hn'. exists n'. repeat split; try done.
       case_decide; [congruence|done]. }
  destruct (getParent fn (item n)) as [parentId|] eqn:Hp.
  2: { intros Hn'. exists n'. repeat split; try done.
       case_decide as Heq; [|done]. subst a'.
       rewrite Ha in Hn'. injection Hn' as <-. by rewrite Hp. }
  destruct (Map_get tn parentId) as [p|] eqn:Hget.
  - intros (n1 & (n0 & Hn0 & ->)%lookup_alter_Some & ->)%lookup_alter_Some.
    exists n0. split; [done|].
    destruct (decide (p = a')), (decide (a = a')), (decide (a' = a));
      subst; simpl; try done; try congruence;
      rewrite Ha in Hn0; injection Hn0 as <-; by rewrite Hp.
  - intros (n0 & Hn0 & ->)%lookup_alter_Some.
    exists n0. split; [done|].
    destruct (decide (a = a')), (decide (a' = a));
      subst; simpl; try done; try congruence;
      rewrite Ha in Hn0; injection Hn0 as <-; by rewrite Hp.
Qed.

Lemma wired_allocate tn items : wired fn tn items [] (allocate items).
Proof.
  intros a n. unfold allocate. rewrite list_lookup_fmap.
  destruct (items !! a) as [it|]; [|done]. intros [= <-]. simpl.
  by repeat split.
Qed.

Lemma wired_link tn items done h k a :
  a ∉ done.*2 → wired fn tn items done h →
  wired fn tn items (done ++ [(k, a)]) (link fn tn h (k, a)).
Proof.
  intros Ha Hw a' n' (n & Hn & Hitem & Hdepth & Hparent)%link_lookup.
  destruct (Hw a' n Hn) as (Hi & Hd & Hp).
  rewrite Hitem, Hdepth, Hparent. split; [done|]. split; [done|].
  rewrite fmap_app, Hp. simpl.
  destruct (decide (a' = a)) as [->|Hne].
  - rewrite decide_False by done. rewrite decide_True by set_solver.
    by destruct (getParent fn (item n)).
  - destruct (decide (a' ∈ done.*2)) as [Hin|Hout].
    + rewrite decide_True; [done|]. apply elem_of_app. by left.
    + rewrite decide_False; [done|].
      intros [?|Heq%list_elem_of_singleton]%elem_of_app; done.
Qed.

Lemma wired_foldl tn items rest :
  ∀ done h,
    NoDup (done ++ rest).*2 → wired fn tn items done h →
    wired fn tn items (done ++ rest) (foldl (link fn tn) h rest).
Proof.
  induction rest as [|[k a] rest IH]; intros done h Hnd Hw; simpl.
  - by rewrite app_nil_r.
  - rewrite (assoc_L (++) done [(k, a)] rest : done ++ (k, a) :: rest = _).
    apply IH.
    + by rewrite <- app_assoc.
    + apply wired_link; [|done].
      rewrite fmap_app in Hnd. apply NoDup_app in Hnd as (_ & Hnd & _).
      intros Hin. apply (Hnd a Hin). simpl. apply elem_of_cons. by left.
Qed.

(** ** The second loop *)

Lemma ancestors_length fuel h par arr r :
  ancestors fuel h par arr = Some r →
  length arr ≤ length r ∧ (is_Some par → length arr < length r).
Proof.
  revert par arr. induction fuel as [|fuel IH]; intros par arr; simpl; [done|].
  destruct par as [p|].
  - destruct (h !! p) as [n|].
    + intros (Hle & _)%IH. rewrite length_app in Hle. simpl in Hle. lia.
    + intros [= <-]. rewrite length_app. simpl. lia.
  - intros [= <-]. split; [done|]. by intros [? ?].
Qed.

Lemma getDepth_spec fuel h n d :
  getDepth fuel h n = Some d →
  (parent n = None → d = 0%Z) ∧ (is_Some (parent n) → (1 ≤ d)%Z).
Proof.
  unfold getDepth, getAncestors.
  destruct (ancestors fuel h (parent n) []) as [r|] eqn:Hr; [|done].
  simpl. intros [= <-]. rewrite length_reverse. split.
  - intros Hp. rewrite Hp in Hr. destruct fuel; [done|].
    simpl in Hr. by injection Hr as <-.
  - intros Hp. apply ancestors_length in Hr as [_ Hr]. specialize (Hr Hp).
    simpl in Hr. lia.
Qed.

(** What the second loop leaves of a node: its depth. *)
Lemma measure_spec fuel rest :
  NoDup rest.*2 →
  ∀ h h', measure fuel rest h = Some h' →
  ∀ a n', h' !! a = Some n' →
    ∃ n, h !! a = Some n ∧ item n' = item n ∧ parent n' = parent n ∧
         children n' = children n ∧
         (a ∉ rest.*2 → depth n' = depth n) ∧
         (a ∈ rest.*2 →
            (parent n = None → depth n' = 0%Z) ∧
            (is_Some (parent n) → (1 ≤ depth n')%Z)).
Proof.
  induction rest as [|[k a0] rest IH]; simpl; intros Hnd h h' Hm a n' Hn'.
  - injection Hm as <-. exists n'. do 5 (split; [done|]). by intros ?%elem_of_nil.
  - apply NoDup_cons in Hnd as [Ha0 Hnd].
    destruct (h !! a0) as [n0|] eqn:Hn0.
    + destruct (getDepth fuel h n0) as [d|] eqn:Hd; [|done]. simpl in Hm.
      destruct (IH Hnd _ _ Hm a n' Hn')
        as (n1 & (n & Hn & ->)%lookup_alter_Some & Hi & Hp & Hc & Hout & Hin).
      exists n. split; [done|].
      destruct (decide (a0 = a)) as [->|Hne]; simpl in *.
      * rewrite Hn0 in Hn. injection Hn as <-.
        split_and!; try done.
        -- intros Hnot. destruct Hnot. apply elem_of_cons. by left.
        -- intros _. rewrite (Hout Ha0). by apply (getDepth_spec _ _ _ _ Hd).
      * split_and!; try done.
        -- intros Hnot. apply Hout. intros ?. apply Hnot, elem_of_cons. by right.
        -- intros [?|?]%elem_of_cons; [done|]. by apply Hin.
    + destruct (IH Hnd _ _ Hm a n' Hn') as (n & Hn & Hi & Hp & Hc & Hout & Hin).
      exists n. split_and!; try done.
      * intros Hnot. apply Hout. intros ?. apply Hnot, elem_of_cons. by right.
      * intros [->|?]%elem_of_cons; [congruence|]. by apply Hin.
Qed.

Lemma link_length tn h node : length (link fn tn h node) = length h.
Proof.
  unfold link. destruct (h !! node.2); [|done].
  destruct (getParent fn _); [|done].
  destruct (Map_get tn _); by rewrite ?length_alter.
Qed.

Lemma foldl_link_length tn rest h : length (foldl (link fn tn) h rest) = length h.
Proof.
  revert h. induction rest as [|node rest IH]; intros h; simpl; [done|].
  by rewrite IH, link_length.
Qed.

Lemma measure_length fuel rest h h' :
  measure fuel rest h = Some h' → length h' = length h.
Proof.
  revert h. induction rest as [|node rest IH]; intros h; simpl.
  - by intros [= <-].
  - destruct (h !! node.2); [|by apply IH].
    destruct (getDepth fuel h _); [|done]. simpl.
    intros ->%IH. by rewrite length_alter.
Qed.

(** ** Termination *)

Lemma ancestors_seen h fuel seen par arr :
  (∀ a, ¬ tc (heapStep h) a a) →
  NoDup seen → (∀ s, s ∈ seen → s < length h) →
  (∀ s p, s ∈ seen → par = Some p → tc (heapStep h) s p) →
  length h < length seen + fuel →
  is_Some (ancestors fuel h par arr).
Proof.
  intros Hac. revert seen par arr.
  induction fuel as [|fuel IH]; intros seen par arr Hnd Hlt Hpath Hlen.
  - assert (seen ⊆+ seq 0 (length h)) as Hsub.
    { apply NoDup_submseteq; [done|]. intros s Hs. apply elem_of_seq.
      specialize (Hlt s Hs). lia. }
    apply submseteq_length in Hsub. rewrite length_seq in Hsub. lia.
  - simpl. destruct par as [p|]; [|by eexists].
    destruct (h !! p) as [n|] eqn:Hn; [|by eexists].
    apply (IH (p :: seen)).
    + constructor; [|done]. intros Hin. by apply (Hac p), Hpath.
    + intros s [->|?]%elem_of_cons; [by eapply lookup_lt_Some|auto].
    + intros s q Hs Hq.
      assert (heapStep h p q) by (by exists n).
      apply elem_of_cons in Hs as [->|Hs]; [by apply tc_once|].
      eapply tc_r; [|done]. by apply Hpath.
    + simpl. lia.
Qed.

Lemma measure_terminates fuel rest h :
  (∀ a, ¬ tc (heapStep h) a a) → length h < fuel →
  is_Some (measure fuel rest h).
Proof.
  revert h. induction rest as [|node rest IH]; intros h Hac Hlen; simpl; [by eexists|].
  destruct (h !! node.2) as [n|] eqn:Hn; [|by apply IH].
  destruct (ancestors_seen h fuel [] (parent n) [] Hac) as [r Hr].
  { constructor. } { by intros s ?%elem_of_nil. } { by intros s p ?%elem_of_nil. }
  { simpl. lia. }
  unfold getDepth, getAncestors. rewrite Hr. simpl. apply IH.
  - intros a Htc. apply (Hac a).
    apply (tc_congruence (λ x, x) (heapStep h)) in Htc; [done|].
    intros x y (n' & (n0 & Hn0 & ->)%lookup_alter_Some & Hp).
    exists n0. split; [done|]. by destruct (decide (node.2 = x)).
  - by rewrite length_alter.
Qed.

(** ** toTree *)

(** What [toTree] returns, and that it returns. *)
Lemma toTree_spec items :
  (acyclicItems fn items →
   ∃ r, toTree (S (length items)) items fn = Some r) ∧
  (∀ fuel heap roots,
     toTree fuel items fn = Some (heap, roots) →
     (∀ a, a ∈ roots ↔
           a ∈ (mapFrom fn 0 items []).*2 ∧
           ∃ n, heap !! a = Some n ∧ depth n = 0%Z) ∧
     (∀ k a, (k, a) ∈ mapFrom fn 0 items [] →
        ∃ n, heap !! a = Some n ∧
             items !! a = Some (item n) ∧ getId fn (item n) = k ∧
             parent n = getParent fn (item n) ≫= Map_get (mapFrom fn 0 items []) ∧
             (parent n = None → depth n = 0%Z ∧ a ∈ roots) ∧
             (is_Some (parent n) → (1 ≤ depth n)%Z ∧ a ∉ roots))).
Proof.
  set (tn := mapFrom fn 0 items []).
  set (h1 := foldl (link fn tn) (allocate items) tn).
  assert (wired fn tn items tn h1) as Hw.
  { apply (wired_foldl tn items tn []); [apply mapFrom_NoDup|apply wired_allocate]. }
  assert (length h1 = length items) as Hlen.
  { unfold h1. rewrite foldl_link_length. unfold allocate. by rewrite length_fmap. }
  split.
  - intros Hac. unfold toTree. fold tn h1.
    destruct (measure_terminates (S (length items)) tn h1) as [h2 ->]; [|lia|by eexists].
    intros a Htc. apply (Hac a).
    apply (tc_congruence (λ x, x) (parentLink fn items)) in Htc; [done|].
    intros x y (n & Hn & Hp). destruct (Hw x n Hn) as (Hit & _ & Hpar).
    rewrite Hp in Hpar. case_decide as Hin; [|done].
    split; [done|]. by exists (item n).
  - intros fuel heap roots. unfold toTree. fold tn h1.
    destruct (measure fuel tn h1) as [h2|] eqn:Hm; [|done]. simpl.
    intros [= <- <-].
    assert (∀ a, a ∈ filter (λ a, depth <$> h2 !! a = Some 0%Z) tn.*2 ↔
                 a ∈ tn.*2 ∧ ∃ n, h2 !! a = Some n ∧ depth n = 0%Z) as Hroots.
    { intros a. rewrite list_elem_of_filter. split.
      - intros [Hd Hin]. split; [done|]. destruct (h2 !! a) as [n|]; [|done].
        exists n. split; [done|]. by injection Hd.
      - intros [Hin (n & Hn & Hd)]. split; [|done]. by rewrite Hn, <- Hd. }
    split; [done|]. intros k a Hka.
    assert (a ∈ tn.*2) as Hin by by apply (list_elem_of_fmap_2 snd) in Hka.
    destruct (mapFrom_entry items k a Hka) as (it & Hit & Hid).
    destruct (lookup_lt_is_Some_2 h2 a) as [n' Hn'].
    { rewrite (measure_length _ _ _ _ Hm), Hlen. by eapply lookup_lt_Some. }
    destruct (measure_spec fuel tn (mapFrom_NoDup items) h1 h2 Hm a n' Hn')
      as (n & Hn & Hitem & Hparent & _ & _ & Hdepth).
    destruct (Hw a n Hn) as (Hita & _ & Hpar).
    rewrite decide_True in Hpar by done.
    exists n'. rewrite Hitem, Hparent. split_and!; try done.
    + rewrite Hit in Hita. injection Hita as <-. done.
    + intros Hnone. destruct (Hdepth Hin) as [Hd _]. split; [by apply Hd|].
      apply Hroots. split; [done|]. exists n'. split; [done|]. by apply Hd.
    + intros Hsome. destruct (Hdepth Hin) as [_ Hd]. split; [by apply Hd|].
      intros (_ & n'' & Hn'' & Hzero)%Hroots.
      rewrite Hn' in Hn''. injection Hn'' as <-. specialize (Hd Hsome). lia.
Qed.
End TreeFacts.

Lemma scenarioItems_acyclic : acyclicItems itemArgs scenarioItems.
Proof.
  assert (∀ x y, parentLink itemArgs scenarioItems x y → x = 1 ∧ y = 0) as Hlink.
  { intros x y (Hx & it & Hit & Hp). vm_compute in Hx.
    repeat (apply elem_of_cons in Hx as [->|Hx]);
      try (by apply elem_of_nil in Hx);
      vm_compute in Hit; injection Hit as <-; vm_compute in Hp;
      try discriminate Hp.
    by injection Hp as <-. }
  intros a Htc. inversion Htc as [? ? H1|? y ? H1 H2]; subst.
  - by apply Hlink in H1 as [-> ?].
  - apply Hlink in H1 as [-> ->].
    inversion H2 as [? ? H3|? ? ? H3 _]; subst; by apply Hlink in H3 as [? ?].
Qed.



(** An item that is its own parent: [getAncestors] never comes back. *)
Example scenarioItemsSelf_diverges fuel :
  Tree.toTree fuel scenarioItemsSelf itemArgs = None.
Proof.
  unfold Tree.toTree. simpl.
  assert (∀ arr,
            Tree.ancestors fuel
              [ {| Tree.item := {| item_id := "1"; item_parent := Some "1" |};
                   Tree.children := [0]; Tree.parent := Some 0; Tree.depth := -1 |} ]
              (Some 0) arr = None) as Hloop.
  { induction fuel as [|fuel IH]; intros arr; [done|]. simpl. apply IH. }
  unfold Tree.getDepth, Tree.getAncestors. simpl. by rewrite Hloop.
Qed.

(* ===================================================================== *)
(** * Further properties of the rebuild                                    *)
(* ===================================================================== *)

Lemma edgesOf_snoc els e :
  edgesOf (els ++ [e]) = edgesOf els ++ (if isNode e then [] else [e]).
Proof.
  unfold edgesOf. rewrite filter_app, filter_cons, filter_nil.
  destruct (isNode e); by case_decide.
Qed.

Lemma nodesOnly_refl w : nodesOnly w w.
Proof. by repeat split. Qed.

Lemma nodesOnly_trans w1 w2 w3 : nodesOnly w1 w2 → nodesOnly w2 w3 → nodesOnly w1 w3.
Proof. intros (?&?&?) (?&?&?). repeat split; congruence. Qed.

Lemma nodesOnly_add def w w' :
  isNode def = true → uuids w' = uuids w → drawn w' = drawn w →
  elements (cy w') = elements (cy w) ++ [attach (elements (cy w)) def] →
  nodesOnly w w'.
Proof.
  intros Hn Hu Hd He. repeat split; [done|done|].
  by rewrite He, edgesOf_snoc, attach_isNode, Hn, app_nil_r.
Qed.

Lemma wp_ensure_nodesOnly k w :
  wp (ensureNodeExists k) (λ _ w', nodesOnly w w') (λ _, True) True w.
Proof.
  apply wp_ensureNodeExists; [intros; apply nodesOnly_refl| |done].
  intros _ f _. by apply (nodesOnly_add (placeholder k)).
Qed.

Lemma wp_insertNode_nodesOnly x w :
  wp (insertNode x) (λ _ w', nodesOnly w w') (λ _, True) True w.
Proof.
  unfold insertNode. apply wp_bind.
  eapply (wp_post _ (λ _ w1, nodesOnly w w1)).
  - destruct (truthy _); [apply wp_ensure_nodesOnly|apply wp_ret, nodesOnly_refl].
  - intros [] w1 H1. apply wp_cy_add; [|done]. intros f _.
    eapply nodesOnly_trans; [done|].
    eapply nodesOnly_add; [| | |reflexivity]; done.
Qed.

Lemma wp_insertNodes_nodesOnly l w :
  wp (forM_ l insertNode) (λ _ w', nodesOnly w w') (λ _, True) True w.
Proof.
  apply (wp_forM_ (λ _ w', nodesOnly w w')); [apply nodesOnly_refl|].
  intros done x rest w1 _ H1.
  eapply wp_post; [apply wp_insertNode_nodesOnly|].
  intros [] w2 H2. by eapply nodesOnly_trans.
Qed.

Lemma Drawn_nodesOnly done w0 w w' : Drawn done w0 w → nodesOnly w w' → Drawn done w0 w'.
Proof. intros (?&?&?) (?&?&?). repeat split; congruence. Qed.

Lemma wp_insertEdge_Drawn done e w0 w :
  Drawn done w0 w →
  wp (insertEdge e) (λ _ w', Drawn (done ++ [e]) w0 w') (λ _, True) True w.
Proof.
  intros HD. unfold insertEdge. apply wp_bind.
  eapply wp_post; [apply wp_ensure_nodesOnly|].
  intros [] w1 H1. apply (Drawn_nodesOnly _ _ _ _ HD) in H1. clear w HD.
  apply wp_bind.
  eapply wp_post; [apply wp_ensure_nodesOnly|].
  intros [] w2 H2. apply (Drawn_nodesOnly _ _ _ _ H1) in H2. clear w1 H1.
  destruct H2 as (Hu & Hd & He).
  apply wp_bind, wp_UUID_v4; [|done]. intros f _.
  apply wp_cy_add; [|done]. intros f' _.
  repeat split; simpl; [done|rewrite length_app; simpl; lia|].
  rewrite edgesOf_snoc, attach_isNode. simpl.
  rewrite He, imap_app. simpl. rewrite attach_orphan by done.
  rewrite Hu, Hd, Nat.add_0_r. done.
Qed.

Lemma wp_insertEdges_Drawn l w0 w :
  Drawn [] w0 w →
  wp (forM_ l insertEdge) (λ _ w', Drawn l w0 w') (λ _, True) True w.
Proof.
  intros HD. apply (wp_forM_ (λ done w', Drawn done w0 w')); [done|].
  intros done e rest w1 _ H1. by apply wp_insertEdge_Drawn.
Qed.

(** The edges of the data set, once each and in their order, are the edge
    elements a rebuild leaves. *)
Lemma wp_rebuild_edges fuel dataSet viewState w :
  wp (rebuild fuel dataSet viewState)
     (λ _ w', drawn w' = drawn w + length (DS.edges dataSet) ∧
              edgesOf (elements (cy w')) =
                imap (λ i e, edgeElement (uuids w (drawn w + i)) e) (DS.edges dataSet))
     (λ _, True) True w.
Proof.
  unfold rebuild.
  apply wp_bind, wp_bind, wp_call; [|done]. intros f1 _. apply wp_modify.
  apply wp_bind, wp_bind, wp_call; [|done]. intros f2 _. apply wp_gets.
  apply wp_bind, wp_bind, wp_call; [|done]. intros f3 _. apply wp_modify.
  apply wp_bind, wp_modify.
  apply wp_bind, wp_await; [|done]. intros nwd _.
  apply wp_bind.
  eapply wp_post; [apply wp_insertNodes_nodesOnly|].
  intros [] w2 H2. apply wp_bind.
  eapply wp_post; [apply (wp_insertEdges_Drawn _ w w2)|].
  { destruct H2 as (Hu & Hd & He). simpl in *.
    repeat split; [done|by rewrite Hd, Nat.add_0_r|by rewrite He]. }
  intros [] w3 (Hu & Hd & He).
  apply wp_bind, wp_bind, wp_call; [|done]. intros f4 _. apply wp_modify.
  apply wp_bind, wp_call; [|done]. intros f5 _. apply wp_modify.
  simpl. by rewrite Hd, He.
Qed.

(** What a returning run leaves is what the [try] block leaves, with the
    batch closed. *)
Lemma applyToCytoscape_wp fuel dataSet viewState w w' (Q : unit → World → Prop) :
  wp (rebuild fuel dataSet viewState) Q (λ _, True) True w →
  applyToCytoscape fuel dataSet viewState (Some w) = Ran (Ret tt w') →
  ∃ w1, Q tt w1 ∧ w' = withCy (endBatch (cy w1)) (logged (fuse w1) CEndBatch w1).
Proof.
  unfold applyToCytoscape, try_finally, wp. intros Hwp [= H].
  destruct (rebuild fuel dataSet viewState w) as [[] w1|w1|]; [|done|done].
  exists w1. split; [done|]. unfold cy_endBatch in H. by injection H as <-.
Qed.

Lemma Adopted_app done els more : Adopted done els → Adopted done (els ++ more).
Proof.
  intros H x p Hx Hp Hne. destruct (H x p Hx Hp Hne) as (l1 & l2 & -> & ?).
  exists l1, (l2 ++ more). by rewrite <- app_assoc.
Qed.

Lemma Sourced_snoc dataSet els el :
  Sourced dataSet els →
  (isNode el = true →
   (∃ n, (id el, n) ∈ DS.nodes dataSet ∧ label el = DS.label n) ∨
   (el = placeholder (id el) ∧ (id el ∉ DS.keys (DS.nodes dataSet)) ∧
    referenced dataSet (id el))) →
  Sourced dataSet (els ++ [el]).
Proof.
  intros H Hel e [?|Heq%list_elem_of_singleton]%elem_of_app; [by apply H|].
  by subst e.
Qed.

Section Shape.
Context (fuel : nat) (dataSet : DS.DataSet) (nwd : list NodeWithDepth).
Hypothesis Hnwd : nodesWithDepth fuel dataSet = Some nwd.

#[local] Abbreviation K := (DS.keys (DS.nodes dataSet)).
#[local] Abbreviation sorted := (sort compareDepth nwd).
#[local] Abbreviation Shaped :=
  (λ (done : list NodeWithDepth) (w : World),
     Adopted done (elements (cy w)) ∧ Sourced dataSet (elements (cy w))).

Lemma wp_ensure_Shaped done w k :
  referenced dataSet k → (∀ k', k' ∈ K → k' ∈ nodeIds w) → Shaped done w →
  wp (ensureNodeExists k) (λ _ w', Shaped done w') (λ _, True) True w.
Proof.
  intros Hk HK [HA HS]. apply wp_ensureNodeExists; [done| |done].
  intros Hnew f _. simpl. split; [by apply Adopted_app|].
  apply Sourced_snoc; [done|]. rewrite attach_orphan by done. intros _. right.
  split; [done|]. split; [|done]. simpl. intros Hin. by apply Hnew, HK.
Qed.

Lemma wp_ensure_Building_Shaped done w0 w k :
  referenced dataSet k → Building dataSet done w0 w → Shaped done w →
  wp (ensureNodeExists k)
     (λ _ w', Building dataSet done w0 w' ∧ Shaped done w' ∧ k ∈ nodeIds w')
     (λ _, True) True w.
Proof.
  intros Hk HB HS.
  eapply wp_mono;
    [apply (wp_and _ _ _ _ _ _ _ _ (wp_ensure_Building dataSet done w0 w k HB)
              (wp_ensure_Shaped done w k Hk (inv_keys _ _ _ (proj1 HB)) HS))
    | |done|done].
  simpl. intros _ w' ((HB' & Hin & _) & HS'). done.
Qed.

Lemma wp_insertNode_Shaped done x rest w0 w :
  sorted = done ++ x :: rest → Building dataSet done w0 w → Shaped done w →
  wp (insertNode x) (λ _ w', Shaped (done ++ [x]) w') (λ _, True) True w.
Proof.
  intros Hsorted HB HS. unfold insertNode. apply wp_bind.
  assert (x ∈ nwd) as Hx.
  { rewrite <- (sort_Permutation compareDepth nwd), Hsorted.
    apply elem_of_app. right. apply elem_of_cons. by left. }
  destruct (nodesWithDepth_elem fuel dataSet nwd Hnwd x Hx) as [Hentry Hwalk].
  eapply (wp_post _ (λ _ w1, Building dataSet done w0 w1 ∧ Shaped done w1 ∧
                             ∀ p, DS.parent (nwd_node x) = Some p → p ≠ "" →
                                  p ∈ nodeIds w1)).
  { destruct (truthy (DS.parent (nwd_node x))) eqn:Ht.
    - apply truthy_Some in Ht as (p & Hp & Hne). rewrite Hp. simpl.
      eapply wp_post; [apply wp_ensure_Building_Shaped; try done|].
      + left. by exists (nwd_id x), (nwd_node x).
      + simpl. intros _ w1 (? & ? & ?). split; [done|]. split; [done|].
        by intros p' [= <-] _.
    - apply wp_ret. split; [done|]. split; [done|]. intros p Hp Hne.
      assert (truthy (DS.parent (nwd_node x)) = true) as Ht'; [|congruence].
      apply truthy_Some. eauto. }
  clear w HB HS. intros [] w ((HI & [Horder Hparent] & HV) & [HA HS] & Hknown).
  apply wp_cy_add; [|done]. intros f _. simpl. split.
  - intros x' p [Hx'|Heq%list_elem_of_singleton]%elem_of_app Hp Hne.
    { by apply (Adopted_app done _ _ HA). }
    subst x'.
    exists (elements (cy w)), [].
    assert (p ∈ nodeIdsOf (elements (cy w))) as Hin.
    { destruct (inv_registered _ _ _ HI p (Hknown p Hp Hne)) as [HK|?]; [|done].
      destruct (own_keys_Some _ _ HK) as [np Hnp].
      destruct (nodesWithDepth_parent fuel dataSet nwd Hnwd x p np Hx)
        as (y & Hy & Hyid & _ & Hlt).
      { unfold resolvedParent. rewrite Hp. simpl.
        rewrite (proj2 (String.eqb_neq p "")) by done. simpl. by rewrite Hnp. }
      assert (y ∈ done) as Hydone.
      { apply (sorted_before nwd_depth done x rest y); [| |done].
        - rewrite <- Hsorted.
          apply (sort_sorted nwd_depth compareDepth compareDepth_key).
        - by rewrite <- Hsorted, (sort_Permutation compareDepth nwd). }
      assert (p ∈ filter (λ k, k ∈ K) (nodeIdsOf (elements (cy w)))) as Hf.
      { rewrite Horder, <- Hyid. by apply list_elem_of_fmap_2. }
      by apply list_elem_of_filter in Hf as [_ ?]. }
    split; [|done]. f_equal. f_equal. by apply (attach_found _ _ p).
  - apply Sourced_snoc; [done|]. intros _. left. exists (nwd_node x).
    unfold attach. simpl. destruct (DS.parent (nwd_node x)); [case_decide|]; done.
Qed.

Lemma wp_insertNodes_Shaped w0 w :
  Building dataSet [] w0 w → Shaped [] w →
  wp (forM_ sorted insertNode)
     (λ _ w', Building dataSet sorted w0 w' ∧ Shaped sorted w') (λ _, True) True w.
Proof.
  intros HB HS.
  apply (wp_forM_ (λ done w', Building dataSet done w0 w' ∧ Shaped done w'));
    [done|].
  intros done x rest w1 Hs [HB1 HS1].
  eapply wp_mono;
    [apply (wp_and _ _ _ _ _ _ _ _
              (wp_insertNode fuel dataSet nwd Hnwd done x rest w0 w1 Hs HB1)
              (wp_insertNode_Shaped done x rest w0 w1 Hs HB1 HS1))
    | |done|done].
  done.
Qed.

Lemma wp_insertEdge_Shaped done e w0 w :
  e ∈ DS.edges dataSet → Linking dataSet nwd done w0 w → Shaped sorted w →
  wp (insertEdge e)
     (λ _ w', Linking dataSet nwd (done ++ [e]) w0 w' ∧ Shaped sorted w')
     (λ _, True) True w.
Proof.
  intros He HL HS.
  eapply wp_mono;
    [apply (wp_and _ _ (λ _ w', Shaped sorted w') _ (λ _, True) _ True _
              (wp_insertEdge dataSet nwd done e w0 w HL))
    | |done|done]; [|done].
  destruct HL as (HB & _). unfold insertEdge. apply wp_bind.
  eapply wp_post; [apply wp_ensure_Building_Shaped; try done|].
  { right. exists e. eauto. }
  simpl. intros [] w1 (HB1 & HS1 & _). apply wp_bind.
  eapply wp_post; [apply wp_ensure_Building_Shaped; try done|].
  { right. exists e. eauto. }
  simpl. intros [] w2 (HB2 & [HA2 HS2] & _).
  apply wp_bind, wp_UUID_v4; [|done]. intros f _.
  apply wp_cy_add; [|done]. intros f' _. simpl. split; [by apply Adopted_app|].
  apply Sourced_snoc; [done|]. by rewrite attach_isNode.
Qed.

Lemma wp_insertEdges_Shaped w0 w :
  Linking dataSet nwd [] w0 w → Shaped sorted w →
  wp (forM_ (DS.edges dataSet) insertEdge)
     (λ _ w', Linking dataSet nwd (DS.edges dataSet) w0 w' ∧ Shaped sorted w')
     (λ _, True) True w.
Proof.
  intros HL HS.
  apply (wp_forM_ (λ done w', Linking dataSet nwd done w0 w' ∧ Shaped sorted w'));
    [done|].
  intros done e rest w1 Hs [HL1 HS1]. apply wp_insertEdge_Shaped; [|done|done].
  rewrite Hs. apply elem_of_app. right. apply elem_of_cons. by left.
Qed.
End Shape.

(** What the [try] block leaves of the entries: each one that names a parent
    stands behind a node of that identifier and keeps it as its parent, and
    every node there is shows an entry or stands in for an identifier the
    data set refers to. *)
Lemma wp_rebuild_shape fuel dataSet viewState w :
  wp (rebuild fuel dataSet viewState)
     (λ _ w', ∃ nwd, nodesWithDepth fuel dataSet = Some nwd ∧
                     Adopted (sort compareDepth nwd) (elements (cy w')) ∧
                     Sourced dataSet (elements (cy w')))
     (λ _, True) True w.
Proof.
  unfold rebuild.
  apply wp_bind, wp_bind, wp_call; [|done]. intros f1 _. apply wp_modify.
  apply wp_bind, wp_bind, wp_call; [|done]. intros f2 _. apply wp_gets.
  apply wp_bind, wp_bind, wp_call; [|done]. intros f3 _. apply wp_modify.
  apply wp_bind, wp_modify.
  apply wp_bind, wp_await; [|done]. intros nwd Hnwd.
  match goal with |- wp _ _ _ _ ?w1 => set (w1' := w1) end.
  apply wp_bind.
  eapply wp_post; [apply (wp_insertNodes_Shaped fuel dataSet nwd Hnwd w1' w1')|].
  { split; [apply Inv_init|]. split; [|apply sameView_refl].
    split; [done|]. by intros x p np ?%elem_of_nil. }
  { split; [by intros x p ?%elem_of_nil|by intros el ?%elem_of_nil]. }
  simpl. intros [] w2 [HB2 HS2]. apply wp_bind.
  eapply wp_post; [apply (wp_insertEdges_Shaped dataSet nwd w1' w2)|]; [|done|].
  { split; [done|]. split.
    - intros k. by eapply Building_sorted_known.
    - by intros e ?%elem_of_nil. }
  simpl. intros [] w3 (_ & HA & HS).
  apply wp_bind, wp_bind, wp_call; [|done]. intros f4 _. apply wp_modify.
  apply wp_bind, wp_call; [|done]. intros f5 _. apply wp_modify.
  exists nwd. done.
Qed.

Lemma NoDup_by_filter {A} (P : A → Prop) `{∀ x, Decision (P x)} (l : list A) :
  NoDup (filter P l) → NoDup (filter (λ x, ¬ P x) l) → NoDup l.
Proof.
  induction l as [|x l IH]; [constructor|].
  rewrite !filter_cons. destruct (decide (P x)) as [HP|HP].
  - rewrite decide_False by tauto. rewrite NoDup_cons. intros [Hx Hl] Hnl.
    constructor; [|by apply IH]. intros Hin. apply Hx. by apply list_elem_of_filter.
  - rewrite decide_True by done. intros Hl. rewrite NoDup_cons. intros [Hx Hnl].
    constructor; [|by apply IH]. intros Hin. apply Hx. by apply list_elem_of_filter.
Qed.

(** What a returning run leaves, from the facts about its [try] block. *)
Lemma applyToCytoscape_shape fuel dataSet viewState w w' :
  applyToCytoscape fuel dataSet viewState (Some w) = Ran (Ret tt w') →
  ∃ nwd,
    nodesWithDepth fuel dataSet = Some nwd ∧
    Inv (DS.keys (DS.nodes dataSet)) (elements (cy w')) (nodeIds w') ∧
    NodeInv dataSet (sort compareDepth nwd) (elements (cy w')) ∧
    (∀ e, e ∈ DS.edges dataSet →
       DS.source e ∈ nodeIdsOf (elements (cy w')) ∧
       DS.target e ∈ nodeIdsOf (elements (cy w'))) ∧
    Adopted (sort compareDepth nwd) (elements (cy w')) ∧
    Sourced dataSet (elements (cy w')) ∧
    edgesOf (elements (cy w')) =
      imap (λ i e, edgeElement (uuids w (drawn w + i)) e) (DS.edges dataSet) ∧
    drawn w' = drawn w + length (DS.edges dataSet).
Proof.
  intros Hrun.
  pose proof (wp_and _ _ _ _ _ _ _ _ (wp_rebuild fuel dataSet viewState w)
                (wp_and _ _ _ _ _ _ _ _ (wp_rebuild_shape fuel dataSet viewState w)
                   (wp_rebuild_edges fuel dataSet viewState w))) as Hwp.
  apply (λ H, wp_mono _ _ _ _ (λ _, True) _ True _ H (λ _ _ HQ, HQ)
                (λ _ _, I) (λ _, I)) in Hwp.
  destruct (applyToCytoscape_wp _ _ _ _ _ _ Hwp Hrun)
    as (w1 & ((nwd & Hnwd & HI & HN & Hends & _) &
              (nwd' & Hnwd' & HA & HS) & Hd & He) & ->).
  rewrite Hnwd in Hnwd'. injection Hnwd' as <-.
  exists nwd. simpl. done.
Qed.

Lemma applyToCytoscape_nodeIds fuel dataSet viewState w w' k :
  applyToCytoscape fuel dataSet viewState (Some w) = Ran (Ret tt w') →
  k ∈ nodeIdsOf (elements (cy w')) ↔
  k ∈ DS.keys (DS.nodes dataSet) ∨ referenced dataSet k.
Proof.
  intros (nwd & Hnwd & HI & [Horder _] & Hends & HA & HS & _)%applyToCytoscape_shape.
  split.
  - intros (el & Hel & Hnode & <-)%elem_of_nodeIdsOf.
    destruct (HS el Hel Hnode) as [(n & Hn & _)|(_ & _ & ?)]; [left|by right].
    by apply (list_elem_of_fmap_2 fst) in Hn.
  - intros [HK|[(k' & n & Hn & Hp & Hne)|(e & He & Hk)]].
    + assert (k ∈ filter (λ k, k ∈ DS.keys (DS.nodes dataSet))
                    (nodeIdsOf (elements (cy w')))) as Hin.
      { rewrite Horder, (sort_Permutation compareDepth nwd).
        by rewrite (nodesWithDepth_ids fuel dataSet nwd Hnwd). }
      by apply list_elem_of_filter in Hin as [_ ?].
    + destruct (nodesWithDepth_entry fuel dataSet nwd Hnwd k' n Hn)
        as (x & Hx & Hid & Hnode).
      destruct (HA x k) as (l1 & l2 & -> & Hin); [|by rewrite Hnode|done|].
      { by rewrite (sort_Permutation compareDepth nwd). }
      rewrite nodeIdsOf_app. apply elem_of_app. by left.
    + destruct (Hends e He). by destruct Hk as [<-|<-].
Qed.

(** ** The edges of the rebuilt model *)

(** X1.  A run of [applyToCytoscape] that returns has made of every edge of
    the data set one edge element, in the order of [dataSet.edges], with the
    label and the ends of the edge and, as identifier, what [UUID.v4()]
    returned for it: the model has no other edge element, and one
    identifier was drawn per edge.  On a data set without cycles a run that
    no call interrupts does return. *)
Theorem applyToCytoscape_edges_in_order dataSet viewState w :
  (acyclic (DS.nodes dataSet) → fuse w = None →
   ∃ w', applyToCytoscape (S (length (DS.nodes dataSet))) dataSet viewState (Some w)
         = Ran (Ret tt w')) ∧
  (∀ fuel w',
     applyToCytoscape fuel dataSet viewState (Some w) = Ran (Ret tt w') →
     edgesOf (elements (cy w')) =
       imap (λ i e, edgeElement (uuids w (drawn w + i)) e) (DS.edges dataSet) ∧
     drawn w' = drawn w + length (DS.edges dataSet)).
Proof.
  split; [by apply applyToCytoscape_returns|].
  intros fuel w' (nwd & _ & _ & _ & _ & _ & _ & He & Hd)%applyToCytoscape_shape.
  done.
Qed.

Lemma applyToCytoscape_edges_in_order_witness :
  ∃ w', applyToCytoscape 4 scenarioChildFirst emptyViewState
          (Some (worldOf emptyCore None)) = Ran (Ret tt w') ∧
        edgesOf (elements (cy w')) =
          [ edgeElement "uuid-0" (edge "B" "Y" "e");
            edgeElement "uuid-1" (edge "Y" "X" "f") ].
Proof.
  destruct (proj1 (applyToCytoscape_edges_in_order scenarioChildFirst
                     emptyViewState (worldOf emptyCore None))
              scenarioChildFirst_acyclic eq_refl) as [w' Hrun].
  exists w'. split; [done|].
  destruct (proj2 (applyToCytoscape_edges_in_order scenarioChildFirst
                     emptyViewState (worldOf emptyCore None)) _ w' Hrun)
    as [Hedges _].
  etrans; [exact Hedges|]. vm_compute. reflexivity.
Defined.

(** ** Compound parents *)

(** X2.  After a run that returns, every entry of [dataSet.nodes] that names
    a parent (an identifier that is not empty) is in the model with this
    parent, and a node of that identifier stands in front of it: the entry
    of the parent or, when the data set has no such entry, the placeholder
    [ensureNodeExists] made for it.  So no entry loses its parent for
    having been added before it. *)
Theorem applyToCytoscape_child_keeps_parent dataSet viewState w :
  (acyclic (DS.nodes dataSet) → fuse w = None →
   ∃ w', applyToCytoscape (S (length (DS.nodes dataSet))) dataSet viewState (Some w)
         = Ran (Ret tt w')) ∧
  (∀ fuel w',
     applyToCytoscape fuel dataSet viewState (Some w) = Ran (Ret tt w') →
     ∀ k n p,
       (k, n) ∈ DS.nodes dataSet → DS.parent n = Some p → p ≠ "" →
       ∃ before after,
         elements (cy w') = before ++ nodeElement k n :: after ∧
         p ∈ nodeIdsOf before ∧
         (p ∉ DS.keys (DS.nodes dataSet) → placeholder p ∈ before)).
Proof.
  split; [by apply applyToCytoscape_returns|].
  intros fuel w' (nwd & Hnwd & HI & _ & _ & HA & _)%applyToCytoscape_shape
    k n p Hkn Hp Hne.
  destruct (nodesWithDepth_entry fuel dataSet nwd Hnwd k n Hkn)
    as (x & Hx & <- & <-).
  destruct (HA x p) as (before & after & Hels & Hin); [|done|done|].
  { by rewrite (sort_Permutation compareDepth nwd). }
  exists before, after. split; [done|]. split; [done|]. intros Hnew.
  apply elem_of_nodeIdsOf in Hin as (el & Hel & Hnode & <-).
  rewrite <- (inv_placeholder _ _ _ HI el); [done| |done|done].
  rewrite Hels. apply elem_of_app. by left.
Qed.

Lemma applyToCytoscape_child_keeps_parent_witness :
  ∃ w' before after,
    applyToCytoscape 4 scenarioChildFirst emptyViewState
      (Some (worldOf emptyCore None)) = Ran (Ret tt w') ∧
    elements (cy w') = before ++ nodeElement "A" (childNode "A" "X") :: after ∧
    placeholder "X" ∈ before.
Proof.
  destruct (proj1 (applyToCytoscape_child_keeps_parent scenarioChildFirst
                     emptyViewState (worldOf emptyCore None))
              scenarioChildFirst_acyclic eq_refl) as [w' Hrun].
  destruct (proj2 (applyToCytoscape_child_keeps_parent scenarioChildFirst
                     emptyViewState (worldOf emptyCore None)) _ w' Hrun
              "A" (childNode "A" "X") "X")
    as (before & after & Hels & _ & Hph).
  - apply elem_of_cons. right. apply elem_of_cons. by left.
  - reflexivity.
  - done.
  - exists w', before, after. split; [done|]. split; [done|]. apply Hph.
    unfold DS.keys. simpl.
    intros Hin. repeat (apply elem_of_cons in Hin as [?|Hin]; [done|]).
    by apply elem_of_nil in Hin.
Defined.

(** ** The nodes of the rebuilt model *)

(** X3.  After a run that returns, the nodes of the model are the keys of
    [dataSet.nodes] and the identifiers the data set refers to (as the
    parent of an entry or as an end of an edge), and no others; when the
    keys are distinct, as the keys of an object are, no identifier is the
    identifier of two nodes. *)
Theorem applyToCytoscape_node_ids dataSet viewState w :
  (acyclic (DS.nodes dataSet) → fuse w = None →
   ∃ w', applyToCytoscape (S (length (DS.nodes dataSet))) dataSet viewState (Some w)
         = Ran (Ret tt w')) ∧
  (∀ fuel w',
     applyToCytoscape fuel dataSet viewState (Some w) = Ran (Ret tt w') →
     (∀ k, k ∈ nodeIdsOf (elements (cy w')) ↔
           k ∈ DS.keys (DS.nodes dataSet) ∨ referenced dataSet k) ∧
     (NoDup (DS.keys (DS.nodes dataSet)) → NoDup (nodeIdsOf (elements (cy w'))))).
Proof.
  split; [by apply applyToCytoscape_returns|].
  intros fuel w' Hrun. split.
  { intros k. by eapply applyToCytoscape_nodeIds. }
  apply applyToCytoscape_shape in Hrun
    as (nwd & Hnwd & HI & [Horder _] & _).
  intros Hkeys.
  apply (NoDup_by_filter (λ k, k ∈ DS.keys (DS.nodes dataSet))).
  - rewrite Horder, (sort_Permutation compareDepth nwd).
    by rewrite (nodesWithDepth_ids fuel dataSet nwd Hnwd).
  - apply (inv_once _ _ _ HI).
Qed.

Lemma applyToCytoscape_node_ids_witness :
  ∃ w', applyToCytoscape 4 scenarioChildFirst emptyViewState
          (Some (worldOf emptyCore None)) = Ran (Ret tt w') ∧
        NoDup (nodeIdsOf (elements (cy w'))) ∧
        "Y" ∈ nodeIdsOf (elements (cy w')).
Proof.
  destruct (proj1 (applyToCytoscape_node_ids scenarioChildFirst
                     emptyViewState (worldOf emptyCore None))
              scenarioChildFirst_acyclic eq_refl) as [w' Hrun].
  destruct (proj2 (applyToCytoscape_node_ids scenarioChildFirst
                     emptyViewState (worldOf emptyCore None)) _ w' Hrun)
    as [Hids Hnodup].
  exists w'. split; [done|]. split.
  - apply Hnodup.
    apply (bool_decide_unpack (NoDup (DS.keys (DS.nodes scenarioChildFirst)))).
    vm_compute. reflexivity.
  - apply Hids. right. right. exists (edge "B" "Y" "e").
    split; [apply elem_of_cons; by left|by right].
Defined.

(** X4.  After a run that returns, every node of the model shows an entry
    of the data set, under the label of the entry, or is the placeholder of
    an identifier that is no key and that the data set refers to: of the
    nodes the model had before the run, none is left that the data set does
    not bring back. *)
Theorem applyToCytoscape_nodes_from_data dataSet viewState w :
  (acyclic (DS.nodes dataSet) → fuse w = None →
   ∃ w', applyToCytoscape (S (length (DS.nodes dataSet))) dataSet viewState (Some w)
         = Ran (Ret tt w')) ∧
  (∀ fuel w' el,
     applyToCytoscape fuel dataSet viewState (Some w) = Ran (Ret tt w') →
     el ∈ elements (cy w') → isNode el = true →
     (∃ n, (id el, n) ∈ DS.nodes dataSet ∧ label el = DS.label n) ∨
     (el = placeholder (id el) ∧ (id el ∉ DS.keys (DS.nodes dataSet)) ∧
      referenced dataSet (id el))).
Proof.
  split; [by apply applyToCytoscape_returns|].
  intros fuel w' el (nwd & _ & _ & _ & _ & _ & HS & _)%applyToCytoscape_shape.
  apply HS.
Qed.

Lemma applyToCytoscape_nodes_from_data_witness :
  ∃ w', applyToCytoscape 3 scenarioAB loadedViewState
          (Some (worldOf movedCore None)) = Ran (Ret tt w') ∧
        ∀ el, el ∈ elements (cy w') → isNode el = true →
              id el = "A" ∨ id el = "B".
Proof.
  assert (∃ w', applyToCytoscape 3 scenarioAB loadedViewState
                  (Some (worldOf movedCore None)) = Ran (Ret tt w'))
    as [w' Hrun] by (eexists; vm_compute; reflexivity).
  exists w'. split; [done|]. intros el Hel Hnode.
  destruct (proj2 (applyToCytoscape_nodes_from_data scenarioAB loadedViewState
                     (worldOf movedCore None)) 3 w' el Hrun Hel Hnode)
    as [(n & Hn & _)|(_ & _ & [(k' & n & Hn & Hp & _)|(e & He & Hk)])].
  - apply elem_of_cons in Hn as [[= -> _]|Hn]; [by left|].
    apply elem_of_cons in Hn as [[= -> _]|Hn]; [by right|].
    by apply elem_of_nil in Hn.
  - apply elem_of_cons in Hn as [[= _ ->]|Hn]; [done|].
    apply elem_of_cons in Hn as [[= _ ->]|Hn]; [injection Hp as <-; by left|].
    by apply elem_of_nil in Hn.
  - apply elem_of_cons in He as [->|He]; [|by apply elem_of_nil in He].
    destruct Hk as [<-|<-]; [by left|by right].
Defined.

(** X5.  After a run that returns, [hasNoElements] holds exactly when the
    data set has no entry and no edge. *)
Theorem hasNoElements_after_rebuild dataSet viewState w :
  (acyclic (DS.nodes dataSet) → fuse w = None →
   ∃ w', applyToCytoscape (S (length (DS.nodes dataSet))) dataSet viewState (Some w)
         = Ran (Ret tt w')) ∧
  (∀ fuel w',
     applyToCytoscape fuel dataSet viewState (Some w) = Ran (Ret tt w') →
     hasNoElements (Some w') = true ↔
     DS.nodes dataSet = [] ∧ DS.edges dataSet = []).
Proof.
  split; [by apply applyToCytoscape_returns|].
  intros fuel w' Hrun.
  pose proof (λ k, applyToCytoscape_nodeIds _ _ _ _ _ k Hrun) as Hids.
  apply applyToCytoscape_shape in Hrun
    as (nwd & _ & _ & _ & _ & _ & HS & He & _).
  unfold hasNoElements. simpl. rewrite Nat.eqb_eq, length_zero_iff_nil. split.
  - intros Hnil. rewrite Hnil in *. split.
    + destruct (DS.nodes dataSet) as [|[k n] nodes] eqn:Hnodes; [done|].
      assert (k ∈ nodeIdsOf []) as Hk; [|by apply elem_of_nil in Hk].
      apply Hids. left. unfold DS.keys. simpl.
      apply elem_of_cons. by left.
    + apply (f_equal length) in He. rewrite length_imap in He.
      by apply length_zero_iff_nil.
  - intros [Hnodes Hedges]. rewrite Hedges in He. simpl in He.
    destruct (elements (cy w')) as [|el els] eqn:Hels; [done|]. exfalso.
    assert (el ∈ el :: els) as Hel by (apply elem_of_cons; by left).
    destruct (isNode el) eqn:Hnode.
    + destruct (HS el Hel Hnode)
        as [(n & Hn & _)|(_ & _ & [(k' & n & Hn & _)|(e & Hin & _)])].
      * rewrite Hnodes in Hn. by apply elem_of_nil in Hn.
      * rewrite Hnodes in Hn. by apply elem_of_nil in Hn.
      * rewrite Hedges in Hin. by apply elem_of_nil in Hin.
    + assert (el ∈ edgesOf (el :: els)) as Hin by by apply list_elem_of_filter.
      rewrite He in Hin. by apply elem_of_nil in Hin.
Qed.

Lemma hasNoElements_after_rebuild_witness :
  ∃ w', applyToCytoscape 1 {| DS.nodes := []; DS.edges := [] |} emptyViewState
          (Some (worldOf movedCore None)) = Ran (Ret tt w') ∧
        hasNoElements (Some w') = true.
Proof.
  assert (∃ w', applyToCytoscape 1 {| DS.nodes := []; DS.edges := [] |}
                  emptyViewState (Some (worldOf movedCore None))
                = Ran (Ret tt w'))
    as [w' Hrun] by (eexists; vm_compute; reflexivity).
  exists w'. split; [done|].
  by apply (proj2 (hasNoElements_after_rebuild
                     {| DS.nodes := []; DS.edges := [] |} emptyViewState
                     (worldOf movedCore None)) 1 w' Hrun).
Defined.

(** ** The depths *)

(** X6.  The depth [nodesWithDepth] gives an entry is one more than the
    depth of the entry of its parent, when the parent identifier is not
    empty and has an entry; without such a parent it is 0, or 1 when the
    parent identifier names a member every object inherits. *)
Theorem nodesWithDepth_depth_step fuel dataSet nwd x :
  nodesWithDepth fuel dataSet = Some nwd → x ∈ nwd →
  match resolvedParent (DS.nodes dataSet) (nwd_node x) with
  | Some (p, np) =>
      ∃ y, y ∈ nwd ∧ nwd_id y = p ∧ nwd_node y = np ∧
           nwd_depth x = S (nwd_depth y)
  | None =>
      nwd_depth x =
        match DS.parent (nwd_node x) with
        | Some p => if decide (p ∈ inheritedNames) then 1 else 0
        | None => 0
        end
  end.
Proof.
  intros Hnwd Hx.
  destruct (nodesWithDepth_elem fuel dataSet nwd Hnwd x Hx) as [_ Hwx].
  destruct fuel as [|fuel']; [done|].
  unfold resolvedParent. cbn [walk] in Hwx.
  destruct (DS.parent (nwd_node x)) as [p|] eqn:Hp; [|by injection Hwx].
  destruct (truthy (Some p)) eqn:Ht.
  2: { injection Hwx as <-. simpl in Ht.
       apply negb_false_iff, String.eqb_eq in Ht as ->.
       assert ("" ∉ inheritedNames) as Hno
         by (apply (bool_decide_unpack ("" ∉ inheritedNames)); vm_compute;
             reflexivity).
       by rewrite decide_False. }
  simpl in Hwx. simpl.
  destruct (DS.own (DS.nodes dataSet) p) as [np|] eqn:Hown; simpl.
  - rewrite (prop_own _ _ _ Hown) in Hwx. simpl in Hwx.
    destruct (nodesWithDepth_entry (S fuel') dataSet nwd Hnwd p np)
      as (y & Hy & Hyid & Hynode); [by eapply own_Some_elem|].
    exists y. split_and!; try done.
    destruct (nodesWithDepth_elem (S fuel') dataSet nwd Hnwd y Hy) as [_ Hwy].
    rewrite Hynode in Hwy.
    apply (walk_mono _ (S fuel')) in Hwx; [|lia].
    change 1 with (0 + 1) in Hwx. rewrite walk_shift, Hwy in Hwx.
    simpl in Hwx. injection Hwx as <-. lia.
  - rewrite (prop_absent _ _ Hown) in Hwx. case_decide.
    + destruct fuel' as [|fuel']; [done|]. simpl in Hwx. by injection Hwx.
    + by injection Hwx.
Qed.

Lemma nodesWithDepth_depth_step_witness :
  ∃ y, y ∈ scenarioChildFirst_depths ∧ nwd_id y = "A" ∧
       nwd_node y = childNode "A" "X" ∧
       nwd_depth scenarioChildFirst_B = S (nwd_depth y).
Proof.
  apply (nodesWithDepth_depth_step 3 scenarioChildFirst
           scenarioChildFirst_depths scenarioChildFirst_B).
  - reflexivity.
  - apply elem_of_cons. by left.
Defined.

(* ===================================================================== *)
(** * Further properties of the cache                                      *)
(* ===================================================================== *)

Section StorageMore.
Import StorageUtil.
Context {T : Type} `{Nullish T}.
Implicit Types (handler other : LocalStorageHandler T) (b : Browser T).

(** X7.  A [save] under one key leaves the other keys alone: what is
    stored under them, their cache entries, and so what their consumers
    read, at a render and when they mount; the console is not written
    to. *)
Theorem save_other_keys handler other value b b2 :
  storageKey other ≠ storageKey handler →
  save handler value b = Returns b2 →
  localStorage b2 !! storageKey other = localStorage b !! storageKey other ∧
  context b2 !! storageKey other = context b !! storageKey other ∧
  console b2 = console b ∧
  data other b2 = data other b ∧
  fst <$> read other b2 = fst <$> read other b.
Proof.
  intros Hne. unfold save.
  destruct (serialize handler value) as [s|]; simpl; [|done].
  destruct (setItem (storageKey handler) s b) as [b1|] eqn:Hset; simpl; [|done].
  intros [= <-]. destruct (setItem_Returns _ _ _ _ Hset) as [Hden ->].
  set (b2 := dispatch _ _).
  assert (localStorage b2 !! storageKey other = localStorage b !! storageKey other)
    as Hls by (unfold b2; simpl; by rewrite lookup_insert_ne).
  assert (context b2 !! storageKey other = context b !! storageKey other)
    as Hctx by (unfold b2, cache; simpl; by rewrite lookup_insert_ne).
  assert (data other b2 = data other b) as Hdata by (unfold data; by rewrite Hctx).
  split_and!; try done.
  unfold read. rewrite Hdata.
  destruct (data other b) as [d0|] eqn:Hd0; simpl; [|done].
  rewrite (effect_cases other b2 Hden), (effect_cases other b Hden), Hls.
  destruct (localStorage b !! storageKey other) as [s'|]; simpl.
  2: { rewrite Hdata, Hd0. reflexivity. }
  destruct (deserialize other s') as [[obj|]|e]; simpl; [| |done].
  - unfold data, cache. simpl. rewrite !lookup_insert_eq.
    destruct (nullish obj); [|reflexivity].
    destruct (defaultValue other ()); reflexivity.
  - change (data other (warn (parseWarning other) b2)) with (data other b2).
    change (data other (warn (parseWarning other) b)) with (data other b).
    rewrite Hdata, Hd0. reflexivity.
Qed.

(** X8.  What is saved outlives the session: in a browser that has kept
    [localStorage] and starts with the empty cache, a consumer that mounts
    reads what its [deserialize] makes of the text [save] stored, so the
    saved value when [deserialize] gives it back, and this object is then
    the cache entry. *)
Theorem save_survives_reload handler value serialized b b2 obj dflt :
  save handler value b = Returns b2 →
  serialize handler value = Returns serialized →
  deserialize handler serialized = Returns (Ok obj) →
  defaultValue handler () = Returns dflt →
  ∃ b3,
    read handler (dispatch (λ _, getInitialState) b2)
    = Returns (Value (if nullish obj then dflt else obj), b3) ∧
    context b3 = {[ storageKey handler := obj ]} ∧
    localStorage b3 = localStorage b2.
Proof.
  intros Hsave Hser Hde Hdflt. unfold save in Hsave.
  rewrite Hser in Hsave. simpl in Hsave.
  destruct (setItem (storageKey handler) serialized b) as [b1|] eqn:Hset;
    simpl in Hsave; [|done].
  injection Hsave as <-. destruct (setItem_Returns _ _ _ _ Hset) as [Hden ->].
  set (b0 := dispatch (λ _, getInitialState) _).
  assert (denied b0 = false) as Hden0 by done.
  assert (localStorage b0 !! storageKey handler = Some serialized) as Hls
    by (unfold b0; simpl; by rewrite lookup_insert_eq).
  unfold read. rewrite (data_shown _ dflt _ Hdflt). simpl.
  rewrite (effect_cases _ _ Hden0), Hls, Hde. simpl.
  rewrite (data_shown _ dflt _ Hdflt). unfold shown, cache. simpl.
  rewrite lookup_insert_eq. eexists. split; [reflexivity|]. split; [|done].
  simpl. unfold getInitialState. by rewrite insert_empty.
Qed.
End StorageMore.

Lemma save_other_keys_witness :
  ∃ b2, StorageUtil.save nullableHandler (Some "x") emptyBrowser
        = StorageUtil.Returns b2 ∧
        StorageUtil.data toStringHandler b2
        = StorageUtil.data toStringHandler emptyBrowser.
Proof.
  eexists. split; [vm_compute; reflexivity|].
  refine (proj1 (proj2 (proj2 (proj2 (save_other_keys nullableHandler
            toStringHandler (Some "x") emptyBrowser _ _ _))))).
  - done.
  - vm_compute. reflexivity.
Defined.

Lemma save_survives_reload_witness :
  ∃ b2 b3,
    StorageUtil.save nullableHandler (Some "x") emptyBrowser
    = StorageUtil.Returns b2 ∧
    StorageUtil.read nullableHandler
      (StorageUtil.dispatch (λ _, StorageUtil.getInitialState) b2)
    = StorageUtil.Returns (StorageUtil.Value (Some "x"), b3).
Proof.
  assert (∃ b2, StorageUtil.save nullableHandler (Some "x") emptyBrowser
                = StorageUtil.Returns b2) as [b2 Hsave]
    by (eexists; vm_compute; reflexivity).
  destruct (save_survives_reload nullableHandler (Some "x") "x" emptyBrowser b2
              (Some "x") (Some "fallback") Hsave eq_refl eq_refl eq_refl)
    as (b3 & Hread & _).
  by exists b2, b3.
Defined.

(* ===================================================================== *)
(** * Further properties of the forest                                     *)
(* ===================================================================== *)

Lemma filter_ext_elem {A} (P Q : A → Prop) `{∀ x, Decision (P x)}
    `{∀ x, Decision (Q x)} (l : list A) :
  (∀ x, x ∈ l → P x ↔ Q x) → filter P l = filter Q l.
Proof.
  induction l as [|x l IH]; intros Hext; [done|].
  rewrite !filter_cons.
  assert (P x ↔ Q x) as Hx by (apply Hext, elem_of_cons; by left).
  rewrite IH by (intros y Hy; apply Hext, elem_of_cons; by right).
  destruct (decide (P x)), (decide (Q x)); tauto.
Qed.

Section Kin.
Import Tree.
Context {T : Type} (fn : ToTreeArgs T).
Implicit Types (h : list (TreeNode T)) (tn done : list (string * nat)).

(** What [link] leaves of the children of a node. *)
Lemma link_children tn h k a p n' :
  link fn tn h (k, a) !! p = Some n' →
  ∃ n, h !! p = Some n ∧
       (((h !! a ≫= (λ na, getParent fn (item na))) ≫= Map_get tn = Some p ∧
         children n' = children n ++ [a]) ∨
        ((h !! a ≫= (λ na, getParent fn (item na))) ≫= Map_get tn ≠ Some p ∧
         children n' = children n)).
Proof.
  unfold link. simpl. destruct (h !! a) as [na|] eqn:Ha; simpl.
  2: { intros Hn'. exists n'. split; [done|]. by right. }
  destruct (getParent fn (item na)) as [parentId|] eqn:Hp; simpl.
  2: { intros Hn'. exists n'. split; [done|]. by right. }
  destruct (Map_get tn parentId) as [p0|] eqn:Hget.
  - intros (n1 & (n0 & Hn0 & ->)%lookup_alter_Some & ->)%lookup_alter_Some.
    exists n0. split; [done|].
    destruct (decide (p0 = p)) as [->|Hne].
    + left. split; [done|]. by destruct (decide (a = p)).
    + right. split; [congruence|]. by destruct (decide (a = p)).
  - intros (n0 & Hn0 & ->)%lookup_alter_Some.
    exists n0. split; [done|]. right. split; [done|].
    by destruct (decide (a = p)).
Qed.

Lemma kin_allocate tn items : kin fn tn items [] (allocate items).
Proof.
  intros p n. unfold allocate. rewrite list_lookup_fmap.
  destruct (items !! p); [|done]. by intros [= <-].
Qed.

Lemma kin_link tn items done h k a :
  is_Some (h !! a) → wired fn tn items done h → kin fn tn items done h →
  kin fn tn items (done ++ [(k, a)]) (link fn tn h (k, a)).
Proof.
  intros [na Hna] Hw Hk p n' (n & Hn & Hcases)%link_children.
  unfold childrenOf. rewrite fmap_app, filter_app. simpl.
  rewrite filter_cons, filter_nil.
  destruct (Hw a na Hna) as (Hitem & _). rewrite Hna in Hcases.
  rewrite Hitem. simpl in *.
  destruct Hcases as [[Hc ->]|[Hc ->]]; rewrite (Hk p n Hn); unfold childrenOf.
  - by rewrite decide_True.
  - rewrite decide_False by done. by rewrite app_nil_r.
Qed.

Lemma kin_foldl tn items rest :
  ∀ done h,
    NoDup (done ++ rest).*2 → (∀ k a, (k, a) ∈ rest → a < length h) →
    wired fn tn items done h → kin fn tn items done h →
    kin fn tn items (done ++ rest) (foldl (link fn tn) h rest).
Proof.
  induction rest as [|[k a] rest IH]; intros done h Hnd Hlt Hw Hk; simpl.
  - by rewrite app_nil_r.
  - rewrite (assoc_L (++) done [(k, a)] rest : done ++ (k, a) :: rest = _).
    assert (a ∉ done.*2) as Ha.
    { rewrite fmap_app in Hnd. apply NoDup_app in Hnd as (_ & Hnd & _).
      intros Hin. apply (Hnd a Hin). simpl. apply elem_of_cons. by left. }
    apply IH.
    + by rewrite <- app_assoc.
    + intros k' a' Hin. rewrite link_length. apply (Hlt k').
      apply elem_of_cons. by right.
    + by apply wired_link.
    + apply kin_link; [|done|done]. apply lookup_lt_is_Some_2, (Hlt k).
      apply elem_of_cons. by left.
Qed.

(** ** The depths *)

Lemma ancestors_arr fuel h par arr :
  ancestors fuel h par arr = (arr ++.) <$> ancestors fuel h par [].
Proof.
  revert par arr. induction fuel as [|fuel IH]; intros par arr; simpl; [done|].
  destruct par as [p|]; simpl; [|by rewrite app_nil_r].
  destruct (h !! p) as [n|]; simpl; [|done].
  rewrite (IH _ (arr ++ [p])), (IH _ [p]).
  destruct (ancestors fuel h (parent n) []); simpl; [|done].
  by rewrite <- app_assoc.
Qed.

Lemma ancestors_mono fuel fuel' h par arr r :
  ancestors fuel h par arr = Some r → fuel ≤ fuel' →
  ancestors fuel' h par arr = Some r.
Proof.
  revert fuel' par arr. induction fuel as [|fuel IH]; intros fuel' par arr;
    simpl; [done|].
  intros Hr Hle. destruct fuel' as [|fuel']; [lia|]. simpl.
  destruct par as [p|]; [|done]. destruct (h !! p) as [n|]; [|done].
  apply IH; [done|lia].
Qed.

(** The ancestors, and so the depth, depend on the parents only. *)
Lemma ancestors_ext fuel h h' par arr :
  length h = length h' →
  (∀ a n n', h !! a = Some n → h' !! a = Some n' → parent n' = parent n) →
  ancestors fuel h' par arr = ancestors fuel h par arr.
Proof.
  intros Hlen Hpar. revert par arr.
  induction fuel as [|fuel IH]; intros par arr; simpl; [done|].
  destruct par as [p|]; [|done].
  destruct (h !! p) as [n|] eqn:Hn.
  - destruct (lookup_lt_is_Some_2 h' p) as [n' Hn'].
    { rewrite <- Hlen. by eapply lookup_lt_Some. }
    rewrite Hn', (Hpar p n n' Hn Hn'). apply IH.
  - rewrite (lookup_ge_None_2 h' p); [done|].
    rewrite <- Hlen. by apply lookup_ge_None.
Qed.

(** A node is one level below its parent. *)
Lemma getDepth_step fuel h n p np d :
  parent n = Some p → h !! p = Some np →
  getDepth fuel h n = Some d →
  ∃ dp, getDepth fuel h np = Some dp ∧ d = (dp + 1)%Z.
Proof.
  unfold getDepth, getAncestors. intros Hp Hnp Hd. rewrite Hp in Hd.
  destruct fuel as [|fuel]; [done|]. cbn [ancestors] in Hd.
  rewrite Hnp, ancestors_arr in Hd.
  destruct (ancestors fuel h (parent np) []) as [r|] eqn:Hr; [|done].
  rewrite (ancestors_mono _ (S fuel) _ _ _ _ Hr) by lia.
  simpl in Hd. injection Hd as <-. simpl.
  eexists. split; [done|]. rewrite !length_reverse. simpl. lia.
Qed.

(** What the second loop leaves of a node of the map: the number of its
    ancestors as its depth. *)
Lemma measure_depth fuel rest :
  NoDup rest.*2 →
  ∀ h h', measure fuel rest h = Some h' →
  ∀ a n', a ∈ rest.*2 → h' !! a = Some n' →
    ∃ n, h !! a = Some n ∧ getDepth fuel h n = Some (depth n').
Proof.
  induction rest as [|[k a0] rest IH]; simpl; intros Hnd h h' Hm a n' Ha Hn'.
  { by apply elem_of_nil in Ha. }
  apply NoDup_cons in Hnd as [Ha0 Hnd].
  destruct (h !! a0) as [n0|] eqn:Hn0.
  - destruct (getDepth fuel h n0) as [d|] eqn:Hd; [|done]. simpl in Hm.
    assert (∀ x, getDepth fuel (alter (setDepth d) a0 h) x = getDepth fuel h x)
      as Hsame.
    { intros x. unfold getDepth, getAncestors. f_equal. f_equal.
      apply ancestors_ext; [by rewrite length_alter|].
      intros b nb nb' Hb (nb0 & Hb0 & ->)%lookup_alter_Some.
      rewrite Hb in Hb0. injection Hb0 as <-. by destruct (decide (a0 = b)). }
    destruct (decide (a = a0)) as [->|Hne].
    + destruct (measure_spec fuel rest Hnd _ _ Hm a0 n' Hn')
        as (n1 & (n & Hn & ->)%lookup_alter_Some & _ & _ & _ & Hout & _).
      rewrite Hn0 in Hn. injection Hn as <-. exists n0. split; [done|].
      rewrite (Hout Ha0). rewrite decide_True by done. simpl. done.
    + apply elem_of_cons in Ha as [?|Ha]; [done|].
      destruct (IH Hnd _ _ Hm a n' Ha Hn')
        as (n1 & (n & Hn & ->)%lookup_alter_Some & Hd1).
      exists n. split; [done|]. rewrite decide_False in Hd1 by done.
      by rewrite Hsame in Hd1.
  - apply elem_of_cons in Ha as [->|Ha].
    { destruct (measure_spec fuel rest Hnd _ _ Hm a0 n' Hn') as (n & Hn & _).
      congruence. }
    by apply (IH Hnd _ _ Hm).
Qed.

Lemma Map_get_elem tn k a : Map_get tn k = Some a → (k, a) ∈ tn.
Proof.
  induction tn as [|[k' a'] tn IH]; simpl; [done|].
  case_decide as Hk.
  - intros [= ->]. subst k'. apply elem_of_cons. by left.
  - intros ?%IH. apply elem_of_cons. by right.
Qed.

(** What [toTree] leaves of the links between the nodes. *)
Lemma toTree_links items fuel heap roots :
  toTree fuel items fn = Some (heap, roots) →
  (∀ p np, heap !! p = Some np →
     children np
     = filter (λ a, heap !! a ≫= parent = Some p) (mapFrom fn 0 items []).*2) ∧
  (∀ a n p, a ∈ (mapFrom fn 0 items []).*2 → heap !! a = Some n →
     parent n = Some p →
     p ∈ (mapFrom fn 0 items []).*2 ∧
     ∃ np, heap !! p = Some np ∧ depth n = (depth np + 1)%Z).
Proof.
  set (tn := mapFrom fn 0 items []).
  set (h1 := foldl (link fn tn) (allocate items) tn).
  assert (length (allocate items) = length items) as Hlen0
    by (unfold allocate; by rewrite length_fmap).
  assert (wired fn tn items tn h1) as Hw.
  { apply (wired_foldl fn tn items tn []); [apply mapFrom_NoDup|apply wired_allocate]. }
  assert (kin fn tn items tn h1) as Hk.
  { apply (kin_foldl tn items tn []);
      [apply mapFrom_NoDup| |apply wired_allocate|apply kin_allocate].
    intros k a (it & Hit & _)%mapFrom_entry. rewrite Hlen0.
    by eapply lookup_lt_Some. }
  unfold toTree. fold tn h1.
  destruct (measure fuel tn h1) as [h2|] eqn:Hm; [|done]. simpl.
  intros [= <- <-].
  assert (∀ a n', h2 !! a = Some n' →
            ∃ n, h1 !! a = Some n ∧ parent n' = parent n ∧
                 children n' = children n) as Hback.
  { intros a n' Hn'.
    destruct (measure_spec fuel tn (mapFrom_NoDup fn items) h1 h2 Hm a n' Hn')
      as (n & Hn & _ & Hp & Hc & _). by exists n. }
  assert (∀ a n', a ∈ tn.*2 → h2 !! a = Some n' →
            parent n' = (items !! a ≫= getParent fn) ≫= Map_get tn) as Hpar.
  { intros a n' Ha Hn'. destruct (Hback a n' Hn') as (n & Hn & -> & _).
    destruct (Hw a n Hn) as (-> & _ & ->). by rewrite decide_True. }
  split.
  - intros p np Hnp. destruct (Hback p np Hnp) as (n & Hn & _ & ->).
    rewrite (Hk p n Hn). unfold childrenOf. apply filter_ext_elem.
    intros a Ha. destruct (lookup_lt_is_Some_2 h2 a) as [na Hna].
    { rewrite (measure_length _ _ _ _ Hm). unfold h1.
      rewrite foldl_link_length, Hlen0.
      apply list_elem_of_fmap in Ha as ([k a'] & -> & Hin).
      destruct (mapFrom_entry fn items k a' Hin) as (it & Hit & _).
      by eapply lookup_lt_Some. }
    rewrite Hna. simpl. by rewrite (Hpar a na Ha Hna).
  - intros a n p Ha Hn Hp.
    assert (p ∈ tn.*2) as Hpin.
    { rewrite (Hpar a n Ha Hn) in Hp.
      destruct (items !! a) as [it|]; [|done]. simpl in Hp.
      destruct (getParent fn it) as [pid|]; [|done]. simpl in Hp.
      apply Map_get_elem in Hp. by apply (list_elem_of_fmap_2 snd) in Hp. }
    split; [done|].
    destruct (lookup_lt_is_Some_2 h2 p) as [np Hnp].
    { rewrite (measure_length _ _ _ _ Hm). unfold h1.
      rewrite foldl_link_length, Hlen0.
      apply list_elem_of_fmap in Hpin as ([k p'] & -> & Hin).
      destruct (mapFrom_entry fn items k p' Hin) as (it & Hit & _).
      by eapply lookup_lt_Some. }
    exists np. split; [done|].
    destruct (measure_depth fuel tn (mapFrom_NoDup fn items) h1 h2 Hm a n Ha Hn)
      as (n1 & Hn1 & Hd).
    destruct (measure_depth fuel tn (mapFrom_NoDup fn items) h1 h2 Hm p np Hpin Hnp)
      as (np1 & Hnp1 & Hdp).
    destruct (Hback a n Hn) as (n1' & Hn1' & Hpn & _).
    rewrite Hn1 in Hn1'. injection Hn1' as <-.
    destruct (getDepth_step fuel h1 n1 p np1 (depth n)) as (dp & Hdp' & ->);
      [congruence|done|done|].
    rewrite Hdp in Hdp'. by injection Hdp' as <-.
Qed.
End Kin.

(** X9.  In the forest [toTree] builds from parent identifiers, the lists of
    children and the parents agree: the children of a node are the nodes of
    the map that have it as their parent, each once, in the order of the
    map.  When the parent links of the items form no cycle, [toTree] does
    return. *)
Theorem toTree_children_agree {T} (fn : Tree.ToTreeArgs T) (items : list T) :
  (acyclicItems fn items →
   ∃ r, Tree.toTree (S (length items)) items fn = Some r) ∧
  (∀ fuel heap roots p np,
     Tree.toTree fuel items fn = Some (heap, roots) →
     heap !! p = Some np →
     Tree.children np
     = filter (λ a, heap !! a ≫= Tree.parent = Some p)
         (Tree.mapFrom fn 0 items []).*2 ∧
     NoDup (Tree.children np) ∧
     ∀ c, c ∈ Tree.children np ↔
          c ∈ (Tree.mapFrom fn 0 items []).*2 ∧
          ∃ nc, heap !! c = Some nc ∧ Tree.parent nc = Some p).
Proof.
  split; [apply toTree_spec|].
  intros fuel heap roots p np Hrun Hnp.
  destruct (toTree_links fn items fuel heap roots Hrun) as [Hchildren _].
  rewrite (Hchildren p np Hnp). split; [done|]. split.
  - apply NoDup_filter, mapFrom_NoDup.
  - intros c. rewrite list_elem_of_filter. split.
    + intros [Hc Hin]. split; [done|].
      destruct (heap !! c) as [nc|]; [|done]. by exists nc.
    + intros [Hin (nc & Hnc & Hp)]. split; [|done]. by rewrite Hnc.
Qed.

Lemma toTree_children_agree_witness :
  ∃ heap roots np,
    Tree.toTree 4 scenarioItems itemArgs = Some (heap, roots) ∧
    heap !! 0 = Some np ∧ Tree.children np = [1].
Proof.
  destruct (proj1 (toTree_children_agree itemArgs scenarioItems)
              scenarioItems_acyclic) as [[heap roots] Hrun].
  assert (∃ np, heap !! 0 = Some np) as [np Hnp].
  { vm_compute in Hrun. injection Hrun as <- _. by eexists. }
  destruct (proj2 (toTree_children_agree itemArgs scenarioItems)
              4 heap roots 0 np Hrun Hnp) as [Hchildren _].
  exists heap, roots, np. split; [done|]. split; [done|].
  rewrite Hchildren. vm_compute in Hrun. injection Hrun as <- _.
  vm_compute. reflexivity.
Defined.

(** X10.  In the forest [toTree] builds from parent identifiers, the depth
    of a node that has a parent is one more than the depth of the parent,
    which is a node of the map as well. *)
Theorem toTree_depth_step {T} (fn : Tree.ToTreeArgs T) (items : list T) :
  (acyclicItems fn items →
   ∃ r, Tree.toTree (S (length items)) items fn = Some r) ∧
  (∀ fuel heap roots a n p,
     Tree.toTree fuel items fn = Some (heap, roots) →
     a ∈ (Tree.mapFrom fn 0 items []).*2 → heap !! a = Some n →
     Tree.parent n = Some p →
     p ∈ (Tree.mapFrom fn 0 items []).*2 ∧
     ∃ np, heap !! p = Some np ∧ Tree.depth n = (Tree.depth np + 1)%Z).
Proof.
  split; [apply toTree_spec|].
  intros fuel heap roots a n p Hrun.
  destruct (toTree_links fn items fuel heap roots Hrun) as [_ Hdepth].
  apply Hdepth.
Qed.

Lemma toTree_depth_step_witness :
  ∃ heap roots n np,
    Tree.toTree 4 scenarioItems itemArgs = Some (heap, roots) ∧
    heap !! 1 = Some n ∧ heap !! 0 = Some np ∧
    Tree.depth n = (Tree.depth np + 1)%Z.
Proof.
  destruct (proj1 (toTree_depth_step itemArgs scenarioItems)
              scenarioItems_acyclic) as [[heap roots] Hrun].
  assert (∃ n, heap !! 1 = Some n ∧ Tree.parent n = Some 0) as (n & Hn & Hp).
  { vm_compute in Hrun. injection Hrun as <- _. by eexists. }
  destruct (proj2 (toTree_depth_step itemArgs scenarioItems)
              4 heap roots 1 n 0 Hrun) as (_ & np & Hnp & Hd); [|done|done|].
  { vm_compute. apply elem_of_cons. right. apply elem_of_cons. by left. }
  by exists heap, roots, n, np.
Defined.

(* ===================================================================== *)
(** * The list of messages                                                 *)
(* ===================================================================== *)

Lemma prefix_trans (a b c : string) :
  String.prefix a b = true → String.prefix b c = true →
  String.prefix a c = true.
Proof.
  revert b c. induction a as [|x a IH]; intros b c; [by destruct c|].
  destruct b as [|y b]; simpl; [done|]. destruct c as [|z c]; simpl.
  { by destruct (Ascii.ascii_dec x y). }
  destruct (Ascii.ascii_dec x y) as [->|]; [|done].
  destruct (Ascii.ascii_dec y z) as [->|]; [|done].
  apply IH.
Qed.

Lemma prefix_refl (a : string) : String.prefix a a = true.
Proof.
  induction a as [|x a IH]; [done|]. simpl.
  by destruct (Ascii.ascii_dec x x).
Qed.

Section Messages.
Import ErrorHandling.
Implicit Types (m msg : ErrMsg) (l : list ErrMsg) (state : State).

Lemma nameStartsWith_trans a b m :
  String.prefix a b = true → nameStartsWith b m = true →
  nameStartsWith a m = true.
Proof.
  unfold nameStartsWith. destruct (name m) as [n|]; simpl; [|done].
  apply prefix_trans.
Qed.

Lemma addedMessages_Returns v4 i type ms added :
  addedMessages v4 i type ms = StorageUtil.Returns added →
  Forall presentable ms ∧
  added = imap (λ j u, messageOf type (v4 (i + j)) u) ms.
Proof.
  revert i added. induction ms as [|u ms IH]; intros i added; simpl.
  - intros [= <-]. by split.
  - destruct (toErrMsg type (v4 i) u) as [msg|] eqn:Hu; [|done].
    destruct (addedMessages v4 (S i) type ms) as [msgs|] eqn:Hms; [|done].
    intros [= <-]. destruct (IH _ _ Hms) as [Hall ->]. split.
    + constructor; [|done].
      destruct u as [| | |[|]]; simpl in *; done.
    + f_equal.
      * rewrite Nat.add_0_r. unfold messageOf.
        destruct u as [s| |s n|[[s|]|]]; simpl in Hu; by simplify_eq.
      * apply imap_ext. intros j u' _. simpl. f_equal. f_equal. lia.
Qed.

Lemma addedMessages_presentable v4 i type ms :
  Forall presentable ms →
  ∃ added, addedMessages v4 i type ms = StorageUtil.Returns added.
Proof.
  intros Hall. revert i. induction Hall as [|u ms Hu _ IH]; intros i; simpl.
  - by eexists.
  - destruct (IH (S i)) as [msgs ->].
    destruct u as [| | |[|]]; simpl in *; try done; by eexists.
Qed.

Lemma filter_none {A} (P : A → Prop) `{∀ x, Decision (P x)} (l : list A) :
  Forall (λ x, ¬ P x) l → filter P l = [].
Proof.
  induction 1 as [|x l Hx _ IH]; [done|].
  by rewrite filter_cons_False, IH.
Qed.

Lemma filter_all {A} (P : A → Prop) `{∀ x, Decision (P x)} (l : list A) :
  Forall P l → filter P l = l.
Proof.
  induction 1 as [|x l Hx _ IH]; [done|].
  by rewrite filter_cons_True, IH.
Qed.

Lemma filter_other_id l1 l2 msg :
  id msg ∉ id <$> (l1 ++ l2) →
  filter (λ m, id m ≠ id msg) (l1 ++ msg :: l2) = l1 ++ l2.
Proof.
  intros Hfresh. rewrite filter_app, filter_cons_False by (intros ?; done).
  rewrite <- filter_app. apply filter_all, Forall_forall.
  intros m Hm Heq. apply Hfresh. rewrite <- Heq.
  by apply list_elem_of_fmap_2.
Qed.

Lemma NoDup_id_middle l1 msg l2 :
  NoDup (id <$> (l1 ++ msg :: l2)) → id msg ∉ id <$> (l1 ++ l2).
Proof.
  rewrite !fmap_app, fmap_cons. intros Hnd.
  apply NoDup_app in Hnd as (_ & Hl1 & Hl2%NoDup_cons).
  destruct Hl2 as [Hl2 _]. intros [Hin|Hin]%elem_of_app; [|done].
  apply (Hl1 _ Hin). apply elem_of_cons. by left.
Qed.

(** X11.  [clear(name)] takes away the messages [MessageList] lists under
    the filter [name], and no other: the messages left, which keep their
    order, and the messages listed make up the messages there were, and
    under [name] or a filter that [name] begins, the list is empty
    afterwards.  This holds for the empty string as well, which clears all
    messages as a filter and lists them all. *)
Theorem clear_name_removes_filtered name state :
  errorMessages (clear (Some (Name name)) state)
    `sublist_of` errorMessages state ∧
  filtered (Some name) (errorMessages state)
    ++ errorMessages (clear (Some (Name name)) state)
    ≡ₚ errorMessages state ∧
  ∀ prefix, String.prefix name prefix = true →
    filtered (Some prefix) (errorMessages (clear (Some (Name name)) state))
    = [].
Proof.
  destruct name as [|c name].
  - simpl. split; [apply sublist_nil_l|]. split; [by rewrite app_nil_r|].
    intros prefix _. by destruct prefix.
  - cbn [clear filtered]. split; [apply sublist_filter|]. split.
    + rewrite (list_filter_iff
                 (λ m, nameStartsWith (String c name) m = false)
                 (λ m, ¬ nameStartsWith (String c name) m = true)).
      * apply filter_app_complement.
      * intros m. destruct (nameStartsWith (String c name) m); naive_solver.
    + intros prefix Hpre. destruct prefix as [|c' prefix]; [done|].
      cbn [filtered errorMessages].
      apply filter_none, Forall_forall. intros m [Hm _]%list_elem_of_filter Hp.
      by rewrite (nameStartsWith_trans _ _ _ Hpre Hp) in Hm.
Qed.

(** X12.  [add] keeps the messages there are and puts behind them one
    message for each of its arguments, the elements of an array counting
    each for one, in their order, of the type given and under the
    identifiers [UUID.v4()] returns, call by call; the text is the string
    itself, the [message] of a value that has one (whose [name] is kept),
    and what [toString()] returns otherwise.  It throws exactly when one of
    them is [null] or [undefined] or has a [toString()] that throws. *)
Theorem add_appends v4 type messages state :
  (Forall presentable (flatten messages) ↔
   ∃ state', add v4 type messages state = StorageUtil.Returns state') ∧
  ∀ state', add v4 type messages state = StorageUtil.Returns state' →
    errorMessages state'
    = errorMessages state
      ++ imap (λ j u, messageOf type (v4 j) u) (flatten messages).
Proof.
  unfold add. split; [split|].
  - intros Hall.
    destruct (addedMessages_presentable v4 0 type _ Hall) as [added ->].
    by eexists.
  - intros [state' Hadd].
    destruct (addedMessages v4 0 type (flatten messages)) as [added|] eqn:Hms;
      [|done].
    by destruct (addedMessages_Returns _ _ _ _ _ Hms).
  - intros state' Hadd.
    destruct (addedMessages v4 0 type (flatten messages)) as [added|] eqn:Hms;
      [|done].
    injection Hadd as <-.
    by destruct (addedMessages_Returns _ _ _ _ _ Hms) as [_ ->].
Qed.

(** X13.  When the identifiers of the messages are distinct, the button of
    a message takes away this message and no other, and the others keep
    their order. *)
Theorem dismiss_removes_one state l1 msg l2 :
  errorMessages state = l1 ++ msg :: l2 →
  NoDup (id <$> errorMessages state) →
  errorMessages (dismiss msg state) = l1 ++ l2.
Proof.
  intros Hl Hnd. unfold dismiss. cbn [clear errorMessages]. rewrite Hl.
  apply filter_other_id. by apply NoDup_id_middle; rewrite <- Hl.
Qed.

(** X14.  A message [add] has put in and the button of this message: when
    the identifier [UUID.v4()] returned for it is not the identifier of a
    message there was, the state is what it was before the [add]. *)
Theorem add_then_dismiss v4 type messages u state state' :
  add v4 type messages state = StorageUtil.Returns state' →
  flatten messages = [u] →
  v4 0 ∉ id <$> errorMessages state →
  errorMessages state'
  = errorMessages state ++ [messageOf type (v4 0) u] ∧
  dismiss (messageOf type (v4 0) u) state' = state.
Proof.
  unfold add. intros Hadd Hu Hfresh. rewrite Hu in Hadd.
  destruct (addedMessages v4 0 type [u]) as [added|] eqn:Hms; [|done].
  injection Hadd as <-.
  destruct (addedMessages_Returns _ _ _ _ _ Hms) as [_ ->]. simpl.
  split; [done|]. unfold dismiss. cbn [clear errorMessages].
  rewrite (filter_other_id _ [] _) by (by rewrite app_nil_r).
  rewrite app_nil_r. by destruct state.
Qed.

End Messages.

Lemma clear_name_removes_filtered_witness :
  ErrorHandling.errorMessages
    (ErrorHandling.clear (Some (ErrorHandling.Name "form")) scenarioMessages)
  = [ {| ErrorHandling.id := "2"; ErrorHandling.name := Some "query";
         ErrorHandling.message := "syntax";
         ErrorHandling.type := ErrorHandling.error |};
      {| ErrorHandling.id := "3"; ErrorHandling.name := None;
         ErrorHandling.message := "offline";
         ErrorHandling.type := ErrorHandling.warn |} ] ∧
  ErrorHandling.filtered (Some "form.age")
    (ErrorHandling.errorMessages
       (ErrorHandling.clear (Some (ErrorHandling.Name "form"))
          scenarioMessages))
  = [].
Proof.
  split; [vm_compute; reflexivity|].
  apply (proj2 (proj2 (clear_name_removes_filtered "form" scenarioMessages))).
  vm_compute. reflexivity.
Defined.

Lemma add_appends_witness :
  ∃ state',
    ErrorHandling.add (λ n, "uuid-" +:+ pretty n) ErrorHandling.warn
      [ErrorHandling.One (ErrorHandling.Text "a");
       ErrorHandling.Many
         [ErrorHandling.Described "b" (Some "query");
          ErrorHandling.Other (StorageUtil.Returns None)]]
      scenarioMessages
    = StorageUtil.Returns state' ∧
    length (ErrorHandling.errorMessages state') = 7.
Proof.
  destruct (proj1 (proj1 (add_appends (λ n, "uuid-" +:+ pretty n)
              ErrorHandling.warn
              [ErrorHandling.One (ErrorHandling.Text "a");
               ErrorHandling.Many
                 [ErrorHandling.Described "b" (Some "query");
                  ErrorHandling.Other (StorageUtil.Returns None)]]
              scenarioMessages))) as [state' Hadd].
  { vm_compute. repeat constructor. }
  exists state'. split; [done|].
  rewrite (proj2 (add_appends _ _ _ _) state' Hadd). reflexivity.
Defined.

Lemma dismiss_removes_one_witness :
  length (ErrorHandling.errorMessages
            (ErrorHandling.dismiss
               {| ErrorHandling.id := "2"; ErrorHandling.name := Some "query";
                  ErrorHandling.message := "syntax";
                  ErrorHandling.type := ErrorHandling.error |}
               scenarioMessages)) = 3.
Proof.
  rewrite (dismiss_removes_one scenarioMessages
             [ {| ErrorHandling.id := "1";
                  ErrorHandling.name := Some "form.name";
                  ErrorHandling.message := "required";
                  ErrorHandling.type := ErrorHandling.error |} ]
             _
             [ {| ErrorHandling.id := "3"; ErrorHandling.name := None;
                  ErrorHandling.message := "offline";
                  ErrorHandling.type := ErrorHandling.warn |};
               {| ErrorHandling.id := "4";
                  ErrorHandling.name := Some "form.age";
                  ErrorHandling.message := "number";
                  ErrorHandling.type := ErrorHandling.warn |} ]).
  - reflexivity.
  - reflexivity.
  - apply (bool_decide_unpack
             (NoDup (ErrorHandling.id
                       <$> ErrorHandling.errorMessages scenarioMessages))).
    vm_compute. reflexivity.
Defined.

Lemma add_then_dismiss_witness :
  ∃ state',
    ErrorHandling.add (λ n, "uuid-" +:+ pretty n) ErrorHandling.error
      [ErrorHandling.One (ErrorHandling.Text "a")] scenarioMessages
    = StorageUtil.Returns state' ∧
    ErrorHandling.dismiss
      (messageOf ErrorHandling.error "uuid-0" (ErrorHandling.Text "a")) state'
    = scenarioMessages.
Proof.
  eexists. split; [vm_compute; reflexivity|].
  refine (proj2 (add_then_dismiss (λ n, "uuid-" +:+ pretty n)
                   ErrorHandling.error
                   [ErrorHandling.One (ErrorHandling.Text "a")]
                   (ErrorHandling.Text "a") scenarioMessages _ _ _ _)).
  - vm_compute. reflexivity.
  - reflexivity.
  - apply (bool_decide_unpack
             ("uuid-0" ∉ ErrorHandling.id
                <$> ErrorHandling.errorMessages scenarioMessages)).
    vm_compute. reflexivity.
Defined.
